(** * Inventory scripts of the hexagonal-architecture refactor plan

    A shallow embedding of [scripts/refresh_hex_arch_inventories.py] and
    [scripts/inventory_unhandled_request_payloads.py], and the properties of
    the declaration scanner, the classifier, the table renderer, the block
    splicer and the variant parser.

    Python [str] values are lists of characters.  Characters are the code
    points below 256 (type [ascii]); the whitespace class and the word class
    are the ones Python's [re] and [str.isspace] use on those code points. *)

From Stdlib Require Import String Ascii DecimalString.
From Stdlib Require Import Bool Arith ZArith Lia List Sorted.
Import ListNotations.

Set Implicit Arguments.

Abbreviation str := (list ascii).

(** A Python string literal. *)
Definition L (s : string) : str := list_ascii_of_string s.

Definition nl : ascii := "010"%char.

(** ** Characters *)

Module Chars.

Definition code (c : ascii) : nat := nat_of_ascii c.

Definition in_range (lo hi : nat) (c : ascii) : bool :=
  (lo <=? code c) && (code c <=? hi).

(** [\s] on a [str] pattern, and [str.isspace]: Unicode white space. *)
Definition is_space (c : ascii) : bool :=
  in_range 9 13 c || in_range 28 32 c || (code c =? 133) || (code c =? 160).

Definition is_upper (c : ascii) : bool := in_range 65 90 c.
Definition is_lower (c : ascii) : bool := in_range 97 122 c.
Definition is_digit (c : ascii) : bool := in_range 48 57 c.
Definition is_underscore (c : ascii) : bool := code c =? 95.

(** [[A-Za-z_]] *)
Definition ident_start (c : ascii) : bool :=
  is_upper c || is_lower c || is_underscore c.

(** [[A-Za-z0-9_]] *)
Definition ident_char (c : ascii) : bool :=
  is_upper c || is_lower c || is_digit c || is_underscore c.

(** [\w] on a [str] pattern: alphanumeric code points and the underscore. *)
Definition is_word (c : ascii) : bool :=
  ident_char c
  || (code c =? 170) || in_range 178 179 c || (code c =? 181)
  || in_range 185 186 c || in_range 188 190 c
  || in_range 192 214 c || in_range 216 246 c || in_range 248 255 c.

(** A string of white space only (the empty one included). *)
Definition ws (w : str) : bool := forallb is_space w.

(** [.] under DOTALL. *)
Definition any (c : ascii) : bool := true.

Definition is_nl (c : ascii) : bool := Ascii.eqb c nl.

(** [[A-Za-z0-9_:{}\s,]] *)
Definition inbound_tail_char (c : ascii) : bool :=
  ident_char c || (code c =? 58) || (code c =? 123) || (code c =? 125)
  || is_space c || (code c =? 44).

End Chars.

(** ** Python string operations *)

Module Py.

Definition str_eqb (a b : str) : bool :=
  if list_eq_dec ascii_dec a b then true else false.

(** [x in xs] for a list or set of strings. *)
Definition mem (x : str) (xs : list str) : bool := existsb (str_eqb x) xs.

(** [s[len(p):]] when [s.startswith(p)]. *)
Fixpoint strip_prefix (p s : str) : option str :=
  match p with
  | [] => Some s
  | a :: p' =>
      match s with
      | [] => None
      | b :: s' => if Ascii.eqb a b then strip_prefix p' s' else None
      end
  end.

Definition startswith (s p : str) : bool :=
  match strip_prefix p s with Some _ => true | None => false end.

Definition endswith (s p : str) : bool := startswith (rev s) (rev p).

(** [sub in s] *)
Fixpoint contains (sub s : str) : bool :=
  startswith s sub || match s with [] => false | _ :: t => contains sub t end.

(** [s.find(sub)]: the lowest index, or -1. *)
Fixpoint find (sub s : str) : Z :=
  if startswith s sub then 0%Z
  else match s with
       | [] => (-1)%Z
       | _ :: t => let i := find sub t in
                   if (i <? 0)%Z then (-1)%Z else (i + 1)%Z
       end.

(** [s[i:]] for [i >= 0]. *)
Definition slice_from (i : Z) (s : str) : str := skipn (Z.to_nat i) s.

Fixpoint lstrip (s : str) : str :=
  match s with
  | c :: t => if Chars.is_space c then lstrip t else s
  | [] => []
  end.

Definition rstrip (s : str) : str := rev (lstrip (rev s)).
Definition strip (s : str) : str := rstrip (lstrip s).

(** [s.lstrip(chars)] for a one-character set. *)
Fixpoint lstrip_char (ch : ascii) (s : str) : str :=
  match s with
  | c :: t => if Ascii.eqb c ch then lstrip_char ch t else s
  | [] => []
  end.

(** [sep.join(parts)] *)
Fixpoint join (sep : str) (parts : list str) : str :=
  match parts with
  | [] => []
  | [p] => p
  | p :: rest => p ++ sep ++ join sep rest
  end.

(** [s.split(sep)] for a non-empty separator; [skip] counts the characters
    of a separator occurrence still to be passed over. *)
Fixpoint split_aux (sep : str) (skip : nat) (cur : str) (s : str) : list str :=
  match s with
  | [] => [rev cur]
  | x :: t =>
      match skip with
      | S k => split_aux sep k cur t
      | O =>
          if startswith s sep
          then rev cur :: split_aux sep (length sep - 1) [] t
          else split_aux sep 0 (x :: cur) t
      end
  end.

Definition split (sep s : str) : list str := split_aux sep 0 [] s.

(** [s.split(ch, 1)[0]] for a one-character separator. *)
Fixpoint split1_head (ch : ascii) (s : str) : str :=
  match s with
  | [] => []
  | c :: t => if Ascii.eqb c ch then [] else c :: split1_head ch t
  end.

(** Code-point order on strings, as [sorted] uses it. *)
Fixpoint str_leb (a b : str) : bool :=
  match a, b with
  | [], _ => true
  | _ :: _, [] => false
  | x :: a', y :: b' =>
      if Chars.code x <? Chars.code y then true
      else if Chars.code y <? Chars.code x then false
      else str_leb a' b'
  end.

(** Order on the sort key [(a, b)], a tuple of two strings. *)
Definition pair_leb (x y : str * str) : bool :=
  if str_eqb (fst x) (fst y) then str_leb (snd x) (snd y)
  else str_leb (fst x) (fst y).

Fixpoint insert_sorted {A : Type} (leb : A -> A -> bool) (x : A) (l : list A)
  : list A :=
  match l with
  | [] => [x]
  | y :: t => if leb x y then x :: l else y :: insert_sorted leb x t
  end.

(** [sorted(l)]: a stable sort (the elements are inserted from the last one
    backwards, each before the first element that is not smaller). *)
Definition sorted {A : Type} (leb : A -> A -> bool) (l : list A) : list A :=
  fold_right (insert_sorted leb) [] l.

(** [set(l)] as the list of the distinct elements. *)
Fixpoint distinct (l : list str) : list str :=
  match l with
  | [] => []
  | x :: t => if mem x t then distinct t else x :: distinct t
  end.

(** [sorted(set(l))] *)
Definition sorted_set (l : list str) : list str := sorted str_leb (distinct l).

(** [str(n)] for a non-negative integer. *)
Definition str_of_nat (n : nat) : str :=
  L (NilZero.string_of_uint (Nat.to_uint n)).

(** Exceptions that end the program.  The two raised by the scripts carry
    their message; the ones raised by the file system calls carry the path
    of the file concerned. *)
Inductive exn : Type :=
| RuntimeError (msg : str)
| SystemExit (msg : str)
| FileNotFoundError (path : str)
| UnicodeDecodeError (path : str)
| ValueError (path : str).

Inductive result (A : Type) : Type :=
| Ok (a : A)
| Raise (e : exn).

Arguments Ok {A} a.
Arguments Raise {A} e.

(** Sequencing: an exception ends the computation. *)
Definition bind {A B : Type} (r : result A) (k : A -> result B) : result B :=
  match r with
  | Ok a => k a
  | Raise e => Raise e
  end.

(** A [for] loop over [l] that updates the state [s]; an exception raised
    by the body ends the loop. *)
Fixpoint for_each {A S : Type} (l : list A) (body : S -> A -> result S) (s : S)
  : result S :=
  match l with
  | [] => Ok s
  | x :: t => bind (body s x) (for_each t body)
  end.

End Py.

Notation "x <- r ;; k" := (Py.bind r (fun x => k))
  (at level 61, r at next level, right associativity).


(** ** Regular expressions, matched by backtracking as [re] does *)

Module Re.

(** A position in the subject: the character before it, the text from it
    on, and the groups captured so far (the latest first). *)
Record cursor : Type := mkCur {
  prev : option ascii;
  rest : str;
  groups : list (nat * str)
}.

Inductive regex : Type :=
| Lit (s : str)                  (* escaped literal text *)
| Cls (p : ascii -> bool)        (* one character of a class *)
| StarG (p : ascii -> bool)      (* class*, greedy *)
| StarL (p : ascii -> bool)      (* class*?, lazy *)
| Bol                            (* ^ under MULTILINE *)
| Eol                            (* $ under MULTILINE *)
| WordB                          (* \b *)
| Cat (r1 r2 : regex)
| Alt (r1 r2 : regex)
| Grp (n : nat) (r : regex).     (* capturing group number n *)

(** class+, greedy *)
Definition Plus (p : ascii -> bool) : regex := Cat (Cls p) (StarG p).

(** class{n} *)
Fixpoint Rep (n : nat) (p : ascii -> bool) : regex :=
  match n with
  | O => Lit []
  | S O => Cls p
  | S n' => Cat (Cls p) (Rep n' p)
  end.

Fixpoint seq (rs : list regex) : regex :=
  match rs with
  | [] => Lit []
  | [r] => r
  | r :: t => Cat r (seq t)
  end.

Fixpoint last_opt (w : str) (d : option ascii) : option ascii :=
  match w with
  | [] => d
  | x :: t => last_opt t (Some x)
  end.

(** The cursor once [w] has been consumed and [r'] is left. *)
Definition after (c : cursor) (w r' : str) : cursor :=
  mkCur (last_opt w (prev c)) r' (groups c).

(** [^] under MULTILINE: at the start of the text or just after a newline. *)
Definition bol (pv : option ascii) : bool :=
  match pv with None => true | Some x => Chars.is_nl x end.

(** [$] under MULTILINE: at the end of the text or just before a newline. *)
Definition eol (r : str) : bool :=
  match r with [] => true | x :: _ => Chars.is_nl x end.

Definition at_bol (c : cursor) : bool := bol (prev c).

Definition at_eol (c : cursor) : bool := eol (rest c).

Definition at_word_boundary (c : cursor) : bool :=
  xorb (match prev c with Some x => Chars.is_word x | None => false end)
       (match rest c with x :: _ => Chars.is_word x | [] => false end).

(** Greedy repetition: the longest run first, then shorter ones. *)
Fixpoint star_greedy (p : ascii -> bool) (k : cursor -> option cursor)
  (pv : option ascii) (g : list (nat * str)) (s : str) : option cursor :=
  match s with
  | x :: t =>
      if p x then
        match star_greedy p k (Some x) g t with
        | Some a => Some a
        | None => k (mkCur pv s g)
        end
      else k (mkCur pv s g)
  | [] => k (mkCur pv [] g)
  end.

(** Lazy repetition: the empty run first, then longer ones. *)
Fixpoint star_lazy (p : ascii -> bool) (k : cursor -> option cursor)
  (pv : option ascii) (g : list (nat * str)) (s : str) : option cursor :=
  match k (mkCur pv s g) with
  | Some a => Some a
  | None =>
      match s with
      | x :: t => if p x then star_lazy p k (Some x) g t else None
      | [] => None
      end
  end.

Definition set_group (n : nat) (start c' : cursor) : cursor :=
  mkCur (prev c') (rest c')
        ((n, firstn (length (rest start) - length (rest c')) (rest start))
           :: groups c').

(** [m r k c]: match [r] at [c] and go on with [k]; the first success in
    the order of the backtracking search. *)
Fixpoint m (r : regex) (k : cursor -> option cursor) (c : cursor)
  : option cursor :=
  match r with
  | Lit s =>
      match Py.strip_prefix s (rest c) with
      | Some r' => k (after c s r')
      | None => None
      end
  | Cls p =>
      match rest c with
      | x :: t => if p x then k (after c [x] t) else None
      | [] => None
      end
  | StarG p => star_greedy p k (prev c) (groups c) (rest c)
  | StarL p => star_lazy p k (prev c) (groups c) (rest c)
  | Bol => if at_bol c then k c else None
  | Eol => if at_eol c then k c else None
  | WordB => if at_word_boundary c then k c else None
  | Cat r1 r2 => m r1 (m r2 k) c
  | Alt r1 r2 =>
      match m r1 k c with
      | Some a => Some a
      | None => m r2 k c
      end
  | Grp n r1 => m r1 (fun c' => k (set_group n c c')) c
  end.

(** A match starting exactly at [c]; the result is the cursor at its end. *)
Definition match_at (r : regex) (c : cursor) : option cursor := m r Some c.

(** [m.group(n)] *)
Fixpoint group (n : nat) (g : list (nat * str)) : str :=
  match g with
  | [] => []
  | (i, s) :: t => if i =? n then s else group n t
  end.

(** The leftmost match at or after the cursor [(pv, s)]: the text skipped
    before it and the cursor at its end. *)
Fixpoint search_from (r : regex) (pv : option ascii) (s : str)
  : option (str * cursor) :=
  match match_at r (mkCur pv s []) with
  | Some c' => Some ([], c')
  | None =>
      match s with
      | [] => None
      | x :: t =>
          match search_from r (Some x) t with
          | Some (skipped, c') => Some (x :: skipped, c')
          | None => None
          end
      end
  end.

(** [re.search(r, s)] *)
Definition search (r : regex) (s : str) : option (str * cursor) :=
  search_from r None s.

(** [re.fullmatch(r, s)] *)
Definition fullmatch (r : regex) (s : str) : bool :=
  match m r (fun c => match rest c with [] => Some c | _ => None end)
          (mkCur None s []) with
  | Some _ => true
  | None => false
  end.

(** [r.finditer(s)]: the non-overlapping matches from left to right, each
    given by the cursor at its end.  Every pattern of the scripts holds
    literal text or a mandatory character and so matches no empty string;
    after an empty match the scan would move on by one character. *)
Fixpoint finditer_from (fuel : nat) (r : regex) (pv : option ascii) (s : str)
  : list cursor :=
  match fuel with
  | O => []
  | S fuel' =>
      match search_from r pv s with
      | None => []
      | Some (skipped, c') =>
          c' ::
          (if length (rest c') + length skipped <? length s
           then finditer_from fuel' r (prev c') (rest c')
           else match rest c' with
                | [] => []
                | x :: t => finditer_from fuel' r (Some x) t
                end)
      end
  end.

Definition finditer (r : regex) (s : str) : list cursor :=
  finditer_from (S (length s)) r None s.

(** [re.findall(r, s)] for a pattern with one group. *)
Definition findall (r : regex) (s : str) : list str :=
  map (fun c => group 1 (groups c)) (finditer r s).

(** [r.subn(repl, s, count)] for [count >= 1] and a pattern that matches no
    empty string: the new text and the number of replacements made. *)
Fixpoint subn_from (count : nat) (r : regex) (repl : str)
  (pv : option ascii) (s : str) : str * nat :=
  match count with
  | O => (s, 0)
  | S count' =>
      match search_from r pv s with
      | None => (s, 0)
      | Some (skipped, c') =>
          let '(t, n) := subn_from count' r repl (prev c') (rest c') in
          (skipped ++ repl ++ t, S n)
      end
  end.

Definition subn (r : regex) (repl : str) (s : str) (count : nat) : str * nat :=
  subn_from count r repl None s.

End Re.

(** ** scripts/refresh_hex_arch_inventories.py *)

Module Inventory.
Import Py Re.

Record PubItem : Type := mkPubItem {
  name : str;
  kind : str;  (* trait|struct|enum|type *)
  rel_path : str
}.

(** A regular file as a directory walk below the workspace root yields it:
    the path it is found under, relative to the root; what [rel] gives for
    it, the path with every symbolic link resolved, relative to the root,
    or the ValueError of [relative_to] when that lies outside the root; and
    what [read_text] gives for it, the text or the exception raised for
    bytes that are no UTF-8. *)
Record file : Type := mkFile {
  f_path : str;
  f_rel : result str;
  f_text : result str
}.

(** A file that is no link and holds text. *)
Definition plain (path text : str) : file := mkFile path (Ok path) (Ok text).

(** The files below the workspace root, in the order of the walk. *)
Definition tree : Type := list file.

(** The pattern "(?m)^\s*pub\s+(trait|struct|enum|type)\s+(NAME)\b", where
    NAME stands for "[A-Za-z_][A-Za-z0-9_]*". *)
Definition PUB_DECL_RE : regex :=
  seq [ Bol; StarG Chars.is_space; Lit (L "pub"); Plus Chars.is_space;
        Grp 1 (Alt (Lit (L "trait"))
              (Alt (Lit (L "struct"))
              (Alt (Lit (L "enum")) (Lit (L "type")))));
        Plus Chars.is_space;
        Grp 2 (Cat (Cls Chars.ident_start) (StarG Chars.ident_char));
        WordB ].

(** [root.rglob("*.rs")], files only; a root that does not exist has no
    file below it. *)
Definition iter_rs_files (fs : tree) (root : str) : list file :=
  filter (fun f => startswith (f_path f) (root ++ L "/")
                   && endswith (f_path f) (L ".rs")) fs.

Definition collect_public_items (fs : tree) (dir_path : str)
  : result (list PubItem) :=
  for_each (iter_rs_files fs dir_path)
    (fun items file_path =>
       contents <- f_text file_path ;;
       for_each (finditer PUB_DECL_RE contents)
         (fun items m =>
            let kind := group 1 (groups m) in
            let name := group 2 (groups m) in
            p <- f_rel file_path ;;
            Ok (items ++ [mkPubItem name kind p]))
         items)
    [].

(** The pattern "wrldbldr_(engine|player)_ports::inbound::([A-Za-z0-9_:{}\s,]+)". *)
Definition INBOUND_PATH_USE_RE : regex :=
  seq [ Lit (L "wrldbldr_");
        Grp 1 (Alt (Lit (L "engine")) (Lit (L "player")));
        Lit (L "_ports::inbound::");
        Grp 2 (Plus Chars.inbound_tail_char) ].

(** The pattern "[A-Za-z_][A-Za-z0-9_]*". *)
Definition IDENT_RE : regex := Cat (Cls Chars.ident_start) (StarG Chars.ident_char).

Definition _extract_last_ident (segment : str) : option str :=
  let segment := strip segment in
  match segment with
  | [] => None
  | _ =>
      if startswith segment (L "{") && endswith segment (L "}") then None
      else
        let parts := filter (fun p => negb (str_eqb p [])) (split (L "::") segment) in
        match rev parts with
        | [] => None
        | last :: _ => if fullmatch IDENT_RE last then Some last else None
        end
  end.

(** A [Dict[str, V]], in insertion order. *)
Definition dict (V : Type) : Type := list (str * V).

Fixpoint lookup {V : Type} (d : dict V) (k : str) : option V :=
  match d with
  | [] => None
  | (k', v) :: t => if str_eqb k k' then Some v else lookup t k
  end.

Definition keys {V : Type} (d : dict V) : list str := map fst d.

(** [d.setdefault(k, v)] *)
Fixpoint setdefault {V : Type} (d : dict V) (k : str) (v : V) : dict V :=
  match d with
  | [] => [(k, v)]
  | (k', v') :: t =>
      if str_eqb k k' then d else (k', v') :: setdefault t k v
  end.

(** [d.setdefault(k, []).append(v)] *)
Fixpoint setdefault_append (d : dict (list str)) (k v : str) : dict (list str) :=
  match d with
  | [] => [(k, [v])]
  | (k', vs) :: t =>
      if str_eqb k k' then (k', vs ++ [v]) :: t
      else (k', vs) :: setdefault_append t k v
  end.

(** [d.get(k, [])] *)
Definition get (d : dict (list str)) (k : str) : list str :=
  match lookup d k with Some v => v | None => [] end.

(** The body of the loop over the matches of one file; [rel_file] is what
    [rel(file_path)] gives, which is asked for only where a name is
    recorded. *)
Definition scan_match (rel_file : result str) (out : dict (list str)) (c : cursor)
  : result (dict (list str)) :=
  let tail := group 2 (groups c) in
  if startswith (strip tail) (L "{") then
    let brace := strip tail in
    let brace := lstrip_char "{"%char (split1_head "}"%char brace) in
    for_each (map strip (split (L ",") brace))
      (fun out name =>
         if fullmatch IDENT_RE name then
           p <- rel_file ;; Ok (setdefault_append out name p)
         else Ok out)
      out
  else
    match _extract_last_ident tail with
    | Some last => p <- rel_file ;; Ok (setdefault_append out last p)
    | None => Ok out
    end.

Definition scan_inbound_usages (fs : tree) (search_roots : list str)
  : result (dict (list str)) :=
  out <-
    for_each search_roots
      (fun out root =>
         for_each (iter_rs_files fs root)
           (fun out file_path =>
              contents <- f_text file_path ;;
              for_each (finditer INBOUND_PATH_USE_RE contents)
                       (fun out m => scan_match (f_rel file_path) out m) out)
           out)
      [] ;;
  Ok (map (fun kv => (fst kv, sorted_set (snd kv))) out).

Definition boundary_tokens : list str :=
  [ L "/application/handlers/";
    L "/application/request_handlers/";
    L "/application/requests/";
    L "/presentation/";
    L "/routes/" ].

Definition is_boundary_path (path_str : str) : bool :=
  existsb (fun token => contains token path_str) boundary_tokens.

Definition suggest_port_target (item_name : str) (usage_paths : list str) : str :=
  if mem item_name [L "RequestContext"; L "UseCaseContext"] then
    L "inbound (boundary DTO)"
  else if mem item_name [L "RequestHandler"] then
    L "inbound (boundary trait)"
  else if endswith item_name (L "UseCasePort") then
    L "inbound"
  else
    match usage_paths with
    | _ :: _ =>
        let boundary_only := forallb is_boundary_path usage_paths in
        if negb boundary_only then L "outbound (misplaced today)"
        else L "inbound"
    | [] => L "inbound"
    end.

Definition index_defs (items : list PubItem) : dict PubItem :=
  fold_left
    (fun indexed it => setdefault indexed (name it) it)
    (sorted (fun x y => pair_leb (name x, rel_path x) (name y, rel_path y)) items)
    [].

(** The cell of the column of usage examples. *)
Definition used_disp (used : list str) : str :=
  match used with
  | [] => []
  | _ :: _ =>
      let sample := join (L ", ") (firstn 3 used) in
      let extra :=
        if 3 <? length used
        then L " (+" ++ str_of_nat (length used - 3) ++ L " more)"
        else [] in
      sample ++ extra
  end.

Definition notes_for (suggested : str) : str :=
  if startswith suggested (L "outbound") then
    L "Move to outbound; update app deps; remove inbound re-export"
  else if contains (L "boundary") suggested then
    L "Keep in inbound; ensure it does not leak into services"
  else
    L "Keep in inbound; ensure only adapters/UI import".

(** A row of the port table: item, kind, defining file, usage examples,
    suggested target, notes. *)
Record row : Type := mkRow {
  r_item : str;
  r_kind : str;
  r_defined : str;
  r_used : str;
  r_suggested : str;
  r_notes : str
}.

Definition table_rows (defs : dict PubItem) (usage : dict (list str)) : list row :=
  flat_map
    (fun name =>
       match lookup defs name with
       | None => []
       | Some it =>
           let used := get usage name in
           let suggested := suggest_port_target name used in
           [ mkRow name (kind it) (rel_path it) (used_disp used) suggested
                   (notes_for suggested) ]
       end)
    (sorted str_leb (keys defs)).

Definition format_row (r : row) : str :=
  L "| `" ++ r_item r ++ L "` | " ++ r_kind r ++ L " | " ++ r_defined r
  ++ L " | " ++ r_used r ++ L " | " ++ r_suggested r ++ L " | " ++ r_notes r
  ++ L " |" ++ [nl].

Definition table_header : str :=
  L "| Item | Kind | Defined in | Used in app/UI (examples) | Suggested target | Notes |"
  ++ [nl] ++ L "|---|---|---|---|---|---|" ++ [nl].

Definition render_table (defs : dict PubItem) (usage : dict (list str)) : str :=
  table_header ++ concat (map format_row (table_rows defs usage)).

Definition regenerate_note : str := L "_Regenerate with `task arch:inventories`._".

(** The lines of the port block before they are joined. *)
Definition port_taxonomy_lines (engine_defs player_defs : dict PubItem)
  (engine_usage player_usage : dict (list str)) : list str :=
  [ L "#### Engine inbound taxonomy"; [] ]
  ++ [ match engine_defs with
       | _ :: _ => rstrip (render_table engine_defs engine_usage)
       | [] => L "_No engine inbound items found (unexpected)._ "
       end ]
  ++ [ []; L "#### Player inbound taxonomy"; [] ]
  ++ [ match player_defs with
       | _ :: _ => rstrip (render_table player_defs player_usage)
       | [] => L "_No player inbound items found (unexpected)._ "
       end ]
  ++ [ []; regenerate_note ].

Definition render_port_taxonomy_block (fs : tree) : result str :=
  engine_items <- collect_public_items fs (L "crates/engine-ports/src/inbound") ;;
  player_items <- collect_public_items fs (L "crates/player-ports/src/inbound") ;;
  engine_usage <- scan_inbound_usages fs [L "crates/engine-app/src"] ;;
  player_usage <-
    scan_inbound_usages fs [L "crates/player-app/src"; L "crates/player-ui/src"] ;;
  let engine_defs := index_defs engine_items in
  let player_defs := index_defs player_items in
  Ok (strip (join [nl] (port_taxonomy_lines engine_defs player_defs
                                            engine_usage player_usage))
      ++ [nl]).

(** The pattern "(?m)^\s*pub\s+(?:struct|enum|type)\s+(NAME)\b", where NAME
    stands for "[A-Za-z_][A-Za-z0-9_]*". *)
Definition PUB_TYPE_RE : regex :=
  seq [ Bol; StarG Chars.is_space; Lit (L "pub"); Plus Chars.is_space;
        Alt (Lit (L "struct")) (Alt (Lit (L "enum")) (Lit (L "type")));
        Plus Chars.is_space;
        Grp 1 (Cat (Cls Chars.ident_start) (StarG Chars.ident_char));
        WordB ].

Definition collect_public_type_names (fs : tree) (dir_path : str)
  : result (dict (list str)) :=
  out <-
    for_each (iter_rs_files fs dir_path)
      (fun out file_path =>
         contents <- f_text file_path ;;
         for_each (finditer PUB_TYPE_RE contents)
           (fun out m =>
              let name := group 1 (groups m) in
              p <- f_rel file_path ;;
              Ok (setdefault_append out name p))
           out)
      [] ;;
  Ok (map (fun kv => (fst kv, sorted_set (snd kv))) out).

Definition suggest_dto_owner (type_name : str) : str :=
  if contains (L "Queue") type_name || mem type_name [L "LlmResponse"] then
    L "engine-dto (likely internal glue)"
  else if contains (L "Proposal") type_name || mem type_name [L "ApprovalItem"] then
    L "engine-ports (likely boundary DTO)"
  else L "TBD".

(** The cell of the example locations of one module of the DTO table. *)
Definition dto_disp (locs : list str) : str :=
  join (L ", ") (firstn 2 locs)
  ++ (if 2 <? length locs
      then L " (+" ++ str_of_nat (length locs - 2) ++ L " more)"
      else []).

(** [sorted(set(dto_types.keys()) & set(port_types.keys()))] *)
Definition collisions (dto_types port_types : dict (list str)) : list str :=
  sorted_set (filter (fun k => mem k (keys port_types)) (keys dto_types)).

(** A row of the DTO table: type name, locations in either module,
    suggested owner, notes. *)
Record dto_row : Type := mkDtoRow {
  d_name : str;
  d_dto : str;
  d_port : str;
  d_owner : str;
  d_notes : str
}.

Definition dto_rows (dto_types port_types : dict (list str)) : list dto_row :=
  map (fun name =>
         mkDtoRow name (dto_disp (get dto_types name)) (dto_disp (get port_types name))
                  (suggest_dto_owner name)
                  (L "Pick one canonical definition; delete the shadow copy; migrate imports"))
      (collisions dto_types port_types).

Definition format_dto_row (r : dto_row) : str :=
  L "| `" ++ d_name r ++ L "` | " ++ d_dto r ++ L " | " ++ d_port r ++ L " | "
  ++ d_owner r ++ L " | " ++ d_notes r ++ L " |".

Definition dto_none_row : str := L "| _(none)_ |  |  |  |  |".

(** The lines of the DTO block before they are joined. *)
Definition dto_ownership_lines (dto_types port_types : dict (list str)) : list str :=
  [ L "| Type name | engine-dto (examples) | engine-ports (examples) | Suggested owner | Notes |";
    L "|---|---|---|---|---|" ]
  ++ map format_dto_row (dto_rows dto_types port_types)
  ++ (match collisions dto_types port_types with
      | [] => [ dto_none_row ]
      | _ :: _ => []
      end)
  ++ [ []; regenerate_note ].

Definition render_dto_ownership_block (fs : tree) : result str :=
  dto_types <- collect_public_type_names fs (L "crates/engine-dto/src") ;;
  port_types <- collect_public_type_names fs (L "crates/engine-ports/src") ;;
  Ok (strip (join [nl] (dto_ownership_lines dto_types port_types)) ++ [nl]).

Definition start_line (start_marker : str) : str :=
  L "%% " ++ start_marker ++ L " %%".

Definition end_line (end_marker : str) : str :=
  L "%% /" ++ end_marker ++ L " %%".

(** The pattern "(?ms)^{start}\s*\n.*?^\s*{end}\s*$", the markers escaped;
    [block_tail] is its part from the second "^" on. *)
Definition block_tail (end_ : str) : regex :=
  seq [ Bol; StarG Chars.is_space; Lit end_; StarG Chars.is_space; Eol ].

Definition block_pattern (start end_ : str) : regex :=
  seq [ Bol; Lit start; StarG Chars.is_space; Cls Chars.is_nl;
        StarL Chars.any; block_tail end_ ].

Definition replace_block (text start_marker end_marker replacement : str)
  : result str :=
  let start := start_line start_marker in
  let end_ := end_line end_marker in
  let pattern := block_pattern start end_ in
  let repl := start ++ [nl; nl] ++ rstrip replacement ++ [nl; nl] ++ end_ in
  let '(new_text, n) := subn pattern repl text 1 in
  if negb (n =? 1) then
    Raise (RuntimeError
             (L "Expected exactly 1 replace for markers " ++ start ++ L ".."
              ++ end_ ++ L ", got " ++ str_of_nat n))
  else Ok new_text.

(** The workspace as the program sees and changes it: the source files;
    what [read_text(MASTER_PLAN)] gives, the text of the master plan or the
    exception raised when it is missing or cannot be decoded; what
    [rel(MASTER_PLAN)] gives; and the calls of [write_text] made. *)
Record world : Type := mkWorld {
  files : tree;
  master_plan : result str;
  master_plan_rel : result str;
  writes : list str
}.

Definition MASTER_PLAN : str :=
  L "docs/plans/HEXAGONAL_ARCHITECTURE_REFACTOR_MASTER_PLAN.md".

(** A workspace whose master plan is a plain file with the text [plan]. *)
Definition workspace (fs : tree) (plan : str) (log : list str) : world :=
  mkWorld fs (Ok plan) (Ok MASTER_PLAN) log.

Definition write_text (w : world) (content : str) : world :=
  mkWorld (files w) (Ok content) (master_plan_rel w) (writes w ++ [content]).

(** How a run ends: the value [main] returns, which is the exit status, with
    the line it printed; or an exception that nothing catches. *)
Inductive outcome : Type :=
| Returned (status : nat) (printed : str)
| Uncaught (e : exn).


(** The two renderings and the two splices of [main], the port block
    first. *)
Definition spliced (fs : tree) (original : str) : result str :=
  port_block <- render_port_taxonomy_block fs ;;
  dto_block <- render_dto_ownership_block fs ;;
  updated <- replace_block original (L "PORT TAXONOMY") (L "PORT TAXONOMY") port_block ;;
  replace_block updated (L "DTO OWNERSHIP") (L "DTO OWNERSHIP") dto_block.

(** [main(argv)], [check] telling whether [--check] was given. *)
Definition main (check : bool) (w : world) : outcome * world :=
  match master_plan w with
  | Raise e => (Uncaught e, w)
  | Ok original =>
      match spliced (files w) original with
      | Raise e => (Uncaught e, w)
      | Ok updated =>
          if str_eqb updated original then
            (Returned 0 (L "Inventories already up to date"), w)
          else if check then
            (Returned 1 (L "Inventories out of date (run `task arch:inventories`)"), w)
          else
            let w' := write_text w updated in
            match master_plan_rel w with
            | Raise e => (Uncaught e, w')
            | Ok p => (Returned 0 (L "Updated inventories in: " ++ p), w')
            end
      end
  end.

End Inventory.

(** ** scripts/inventory_unhandled_request_payloads.py *)

Module Payloads.
Import Py Re.

(** The pattern "\n}\s*\n". *)
Definition END_RE : regex :=
  seq [ Lit [nl]; Lit (L "}"); StarG Chars.is_space; Lit [nl] ].

(** The pattern "^\s{4}(NAME)\b" under MULTILINE, where NAME stands for
    "[A-Za-z][A-Za-z0-9_]*" with an upper-case first letter, "[A-Z]". *)
Definition VARIANT_RE : regex :=
  seq [ Bol; Rep 4 Chars.is_space;
        Grp 1 (Cat (Cls Chars.is_upper) (StarG Chars.ident_char));
        WordB ].

(** The loop that keeps the first occurrence of each variant. *)
Fixpoint dedup (variants : list str) (seen : list str) (ordered : list str)
  : list str :=
  match variants with
  | [] => ordered
  | v :: t =>
      if negb (mem v seen) then dedup t (v :: seen) (ordered ++ [v])
      else dedup t seen ordered
  end.

Definition parse_request_payload_variants (text : str) : result (list str) :=
  let start := find (L "pub enum RequestPayload") text in
  if (start =? -1)%Z then
    Raise (SystemExit (L "Could not find RequestPayload enum"))
  else
    let body := slice_from start text in
    let body := slice_from (find (L "{") body + 1) body in
    match search END_RE body with
    | None => Raise (SystemExit (L "Could not find end of RequestPayload enum"))
    | Some (before, _) =>
        let body := before in
        let variants := findall VARIANT_RE body in
        Ok (dedup variants [] [])
    end.

End Payloads.

(** ** Vocabulary of the statements, and example inputs *)

(** A text given by its lines. *)
Definition lines (l : list string) : str := Py.join [nl] (map L l).

Module Terms.
Import Py Re Inventory Payloads.

(** A name is declared as a public struct, enum or type alias somewhere
    below [root]: the scanner's pattern matches with that name in the text
    of a Rust file there, in the scan from left to right. *)
Definition declared_type (fs : tree) (root name : str) : Prop :=
  exists f contents c,
    In f (iter_rs_files fs root)
    /\ f_text f = Ok contents
    /\ In c (finditer PUB_TYPE_RE contents)
    /\ group 1 (groups c) = name.


(** A line is a table row when it begins with a vertical bar. *)
Definition is_table_row (line : str) : bool := startswith line (L "|").

(** A cell of example paths as the specification words it: the first
    [limit] paths, separated by a comma and a space, then the number of
    the paths left out, when some are. *)
Definition example_cell (limit : nat) (paths : list str) : str :=
  join (L ", ") (firstn limit paths)
  ++ (if limit <? length paths
      then L " (+" ++ str_of_nat (length paths - limit) ++ L " more)"
      else []).

(** The text of the row of the port table for the item [it] indexed under
    [name], used in the files [used]; without the line break. *)
Definition port_row_text (name : str) (it : PubItem) (used : list str) : str :=
  L "| `" ++ name ++ L "` | " ++ kind it ++ L " | " ++ rel_path it ++ L " | "
  ++ example_cell 3 used ++ L " | " ++ suggest_port_target name used ++ L " | "
  ++ notes_for (suggest_port_target name used) ++ L " |".

(** The lines of the port table of the indexed items [defs] with the usage
    lists [usage]: the two header lines and one row for each indexed name,
    the names in code-point order. *)
Definition port_table_lines (defs : dict PubItem) (usage : dict (list str))
  : list str :=
  [ L "| Item | Kind | Defined in | Used in app/UI (examples) | Suggested target | Notes |";
    L "|---|---|---|---|---|---|" ]
  ++ flat_map
       (fun name =>
          match lookup defs name with
          | Some it => [ port_row_text name it (get usage name) ]
          | None => []
          end)
       (sorted str_leb (keys defs)).

(** The lines of one side of the port block: the placeholder line when
    nothing is indexed, the table otherwise. *)
Definition port_side_lines (placeholder : str) (defs : dict PubItem)
  (usage : dict (list str)) : list str :=
  match defs with
  | [] => [ placeholder ]
  | _ :: _ => port_table_lines defs usage
  end.

(** The text of the port block with the given lines for the two sides. *)
Definition port_block_text (engine_lines player_lines : list str) : str :=
  join [nl]
    ([ L "#### Engine inbound taxonomy"; [] ] ++ engine_lines
     ++ [ []; L "#### Player inbound taxonomy"; [] ] ++ player_lines
     ++ [ []; L "_Regenerate with `task arch:inventories`._" ])
  ++ [nl].

(** The text of the row of the DTO table for a type name with its
    locations in the two modules. *)
Definition dto_row_text (dto_locs port_locs : list str) (name : str) : str :=
  L "| `" ++ name ++ L "` | " ++ example_cell 2 dto_locs ++ L " | "
  ++ example_cell 2 port_locs ++ L " | " ++ suggest_dto_owner name
  ++ L " | Pick one canonical definition; delete the shadow copy; migrate imports |".

(** The body lines of the DTO table for the colliding names [names]: the
    placeholder row when there is none, a row for each name otherwise. *)
Definition dto_body_lines (dto_types port_types : dict (list str))
  (names : list str) : list str :=
  match names with
  | [] => [ L "| _(none)_ |  |  |  |  |" ]
  | _ :: _ =>
      map (fun name => dto_row_text (get dto_types name) (get port_types name) name)
          names
  end.

(** The text of the DTO block whose table has the body lines [body]. *)
Definition dto_block_text (body : list str) : str :=
  L "| Type name | engine-dto (examples) | engine-ports (examples) | Suggested owner | Notes |"
  ++ [nl] ++ L "|---|---|---|---|---|" ++ [nl]
  ++ join [nl] body ++ [nl; nl]
  ++ L "_Regenerate with `task arch:inventories`._" ++ [nl].

(** [R], standing between two line breaks, holds a line that is [E]
    between white space. *)
Definition holds_end_line (E R : str) : Prop :=
  exists a u2 u3 b,
    R = a ++ u2 ++ E ++ u3 ++ b
    /\ bol (last_opt a (Some nl)) = true
    /\ Chars.ws u2 = true /\ Chars.ws u3 = true /\ eol b = true.

(** No path that [rel] gives for a file of the tree holds a line break. *)
Definition one_line_paths (fs : tree) : Prop :=
  forall f p, In f fs -> f_rel f = Ok p -> ~ In nl p.

(** [pre] is followed in [text] by a block as [replace_block] looks for it:
    at a line start the line [S], white space up to a line break, any
    text, then at a line start white space, [E] and white space up to a
    line end. *)
Definition block_at (S E pre text : str) : Prop :=
  exists w1 mid w2 w3 post,
    text = pre ++ S ++ w1 ++ [nl] ++ mid ++ w2 ++ E ++ w3 ++ post
    /\ bol (last_opt pre None) = true /\ Chars.ws w1 = true
    /\ bol (last_opt mid (Some nl)) = true /\ Chars.ws w2 = true
    /\ Chars.ws w3 = true /\ eol post = true.

Definition has_block (S E text : str) : Prop := exists pre, block_at S E pre text.



Definition header : str := L "pub enum RequestPayload".

(** The text that [parse_request_payload_variants] searches for the end of
    the enum: from the header on, after the first opening brace if any. *)
Definition enum_body (text : str) : str :=
  let body := slice_from (find header text) text in
  slice_from (find (L "{") body + 1) body.


End Terms.

Module Examples.
Import Py Re Inventory.

(** A type declared in three files of engine-dto and one of engine-ports. *)
Definition fs_dto3 : tree :=
  [ plain (L "crates/engine-dto/src/a.rs") (L "pub struct Shared;");
    plain (L "crates/engine-dto/src/b.rs") (L "pub enum Shared {}");
    plain (L "crates/engine-dto/src/c.rs") (L "pub type Shared = u8;");
    plain (L "crates/engine-ports/src/p.rs") (L "pub struct Shared;") ].


(** A struct declared in both modules, and another in one only. *)
Definition fs_shared : tree :=
  [ plain (L "crates/engine-dto/src/a.rs") (L "pub struct TypeX;");
    plain (L "crates/engine-dto/src/b.rs") (L "pub struct OnlyDto;");
    plain (L "crates/engine-ports/src/p.rs") (L "pub struct TypeX;") ].

(** An inbound trait of the engine that five files of the application
    use. *)
Definition fs_five : tree :=
  [ plain (L "crates/engine-ports/src/inbound/p.rs") (L "pub trait Clock {}");
    plain (L "crates/engine-app/src/a.rs") (L "use wrldbldr_engine_ports::inbound::Clock;");
    plain (L "crates/engine-app/src/b.rs") (L "use wrldbldr_engine_ports::inbound::Clock;");
    plain (L "crates/engine-app/src/c.rs") (L "use wrldbldr_engine_ports::inbound::Clock;");
    plain (L "crates/engine-app/src/d.rs") (L "use wrldbldr_engine_ports::inbound::Clock;");
    plain (L "crates/engine-app/src/e.rs") (L "use wrldbldr_engine_ports::inbound::Clock;") ].

(** A declaration in a file that is a link: the walk finds it below the
    inbound directory, and it resolves to a file elsewhere. *)
Definition fs_link : tree :=
  [ mkFile (L "crates/engine-ports/src/inbound/a.rs") (Ok (L "shared/a.rs"))
           (Ok (L "pub trait Foo {}")) ].

(** A master plan with both marker pairs and nothing between them. *)
Definition plan_skeleton : str :=
  lines [ "# Plan"; "%% PORT TAXONOMY %%"; "%% /PORT TAXONOMY %%"; "text";
          "%% DTO OWNERSHIP %%"; "%% /DTO OWNERSHIP %%"; "end" ]%string.

(** The same plan once the inventories of an empty tree are spliced in. *)
Definition plan_current : str :=
  match spliced [] plan_skeleton with
  | Ok updated => updated
  | Raise _ => []
  end.


(** A document with two blocks for the same label. *)
Definition two_blocks : str :=
  lines [ "%% X %%"; "a"; "%% /X %%"; "mid"; "%% X %%"; "b"; "%% /X %%"; "" ]%string.

(** A document whose start marker is written twice before the end marker. *)
Definition two_starts : str :=
  lines [ "%% X %%"; "a"; "%% X %%"; "b"; "%% /X %%"; "" ]%string.

End Examples.

(** ** Shapes of texts and dictionaries

    The vocabulary of the properties of the scanners and the index that go
    beyond single rows: what an identifier is, where a usage is written. *)

Module Shapes.
Import Py Re Inventory.

(** What follows a name lets the name end there (a word boundary). *)
Definition ends_word (post : str) : bool :=
  match post with [] => true | y :: _ => negb (Chars.is_word y) end.

(** A string of the form of [IDENT_RE]. *)
Definition is_ident (s : str) : bool :=
  match s with
  | [] => false
  | x :: w => Chars.ident_start x && forallb Chars.ident_char w
  end.

(** A line of a rendered block: it holds no line break, and it is empty or
    begins with a character that is neither white space nor a percent
    sign. *)
Definition good_line (l : str) : Prop :=
  ~ In nl l
  /\ match l with
     | [] => True
     | x :: _ => Chars.is_space x = false /\ x <> "%"%char
     end.

(** Some line of the text begins, after white space only, with a percent
    sign; [fresh] tells whether only white space has been read since the
    last line start. *)
Fixpoint marked (fresh : bool) (s : str) : bool :=
  match s with
  | [] => false
  | c :: r =>
      (fresh && Ascii.eqb c "%"%char)
      || marked (Chars.is_nl c || (fresh && Chars.is_space c)) r
  end.

(** [contents] holds a path into the inbound module of one of the two
    ports crates, followed by [tail]. *)
Definition inbound_use (contents crate tail : str) : Prop :=
  exists pre post,
    contents = pre ++ L "wrldbldr_" ++ crate ++ L "_ports::inbound::" ++ tail ++ post
    /\ (crate = L "engine" \/ crate = L "player")
    /\ tail <> [] /\ forallb Chars.inbound_tail_char tail = true.


(** The sort key of [index_defs]. *)
Definition item_leb (x y : PubItem) : bool :=
  pair_leb (name x, rel_path x) (name y, rel_path y).

(** A dictionary of lists as [setdefault(k, []).append(v)] builds it: no
    key twice, no empty list. *)
Definition dict_ok (d : dict (list str)) : Prop :=
  NoDup (keys d) /\ Forall (fun kv => snd kv <> []) d.

(** Every recorded pair of a name and a path satisfies [Q]. *)
Definition scan_inv (Q : str -> str -> Prop) (out : dict (list str)) : Prop :=
  dict_ok out /\ forall x p, In p (get out x) -> Q x p.

End Shapes.

(** ** The report of scripts/inventory_unhandled_request_payloads.py

    The paths of the script are relative to the working directory, taken
    to be the workspace root. *)

Module PayloadsReport.
Import Py Re Inventory Payloads.

(** [Path(path).read_text()]: what reading the file gives, or the
    FileNotFoundError when the walk finds no such file. *)
Fixpoint read_text (fs : tree) (path : str) : result str :=
  match fs with
  | [] => Raise (FileNotFoundError path)
  | f :: rest => if str_eqb (f_path f) path then f_text f else read_text rest path
  end.

(** The last component of a path. *)
Definition file_name (path : str) : str := last (split (L "/") path) [].

(** The file names that the glob "websocket*.rs" matches. *)
Definition websocket_glob (file_name : str) : bool :=
  match strip_prefix (L "websocket") file_name with
  | Some r => endswith r (L ".rs")
  | None => false
  end.

(** [Path("crates/engine/src/api").rglob("websocket*.rs")] *)
Definition websocket_files (fs : tree) : list file :=
  filter (fun f => startswith (f_path f) (L "crates/engine/src/api/")
                   && websocket_glob (file_name (f_path f))) fs.

Definition engine_text (fs : tree) : result str :=
  for_each (websocket_files fs)
    (fun engine_text p => t <- f_text p ;; Ok (engine_text ++ t ++ [nl]))
    [].

Definition missing (ordered : list str) (engine_text : str) : list str :=
  filter (fun v => negb (contains (L "RequestPayload::" ++ v) engine_text)) ordered.

(** How a run ends: with the lines it printed, or with the exception that
    reading a file or [parse_request_payload_variants] raised. *)
Inductive outcome : Type :=
| Printed (lines : list str)
| Failed (e : exn).

Definition main (fs : tree) : outcome :=
  match read_text fs (L "crates/protocol/src/requests.rs") with
  | Raise e => Failed e
  | Ok proto =>
      match parse_request_payload_variants proto with
      | Raise e => Failed e
      | Ok ordered =>
          match engine_text fs with
          | Raise e => Failed e
          | Ok engine_text =>
              let missing := missing ordered engine_text in
              Printed
                ([ L "Total variants: " ++ str_of_nat (length ordered);
                   L "Referenced in engine websocket code: "
                     ++ str_of_nat (length ordered - length missing);
                   L "Possibly unimplemented (not referenced): "
                     ++ str_of_nat (length missing);
                   L "---" ]
                 ++ missing)
          end
      end
  end.

End PayloadsReport.

(** * Properties *)

(** ** String operations *)

Module PyFacts.
Import Py.

Lemma str_eqb_eq (a b : str) : str_eqb a b = true <-> a = b.
Proof.
  unfold str_eqb. destruct (list_eq_dec ascii_dec a b); split; congruence.
Qed.

Lemma str_eqb_refl (a : str) : str_eqb a a = true.
Proof. apply str_eqb_eq. reflexivity. Qed.

Lemma str_eqb_neq (a b : str) : str_eqb a b = false <-> a <> b.
Proof.
  unfold str_eqb. destruct (list_eq_dec ascii_dec a b); split; congruence.
Qed.

Lemma mem_In (x : str) (xs : list str) : mem x xs = true <-> In x xs.
Proof.
  unfold mem. rewrite existsb_exists. split.
  - intros [y [Hy E]]. apply str_eqb_eq in E. subst. assumption.
  - intros H. exists x. split; [assumption | apply str_eqb_refl].
Qed.

Lemma strip_prefix_Some (p s r : str) : strip_prefix p s = Some r <-> s = p ++ r.
Proof.
  revert s. induction p as [|a p IH]; intros s; simpl.
  - split; congruence.
  - destruct s as [|b s]; [split; discriminate|].
    destruct (Ascii.eqb a b) eqn:E.
    + apply Ascii.eqb_eq in E. subst b. rewrite IH. split; congruence.
    + apply Ascii.eqb_neq in E. split; [discriminate | congruence].
Qed.

Lemma strip_prefix_app (p r : str) : strip_prefix p (p ++ r) = Some r.
Proof. apply strip_prefix_Some. reflexivity. Qed.

Lemma startswith_spec (s p : str) : startswith s p = true <-> exists r, s = p ++ r.
Proof.
  unfold startswith. destruct (strip_prefix p s) as [r|] eqn:E.
  - apply strip_prefix_Some in E. split; eauto.
  - split; [discriminate|]. intros [r Hr].
    apply strip_prefix_Some in Hr. congruence.
Qed.

Lemma contains_spec (sub s : str) :
  contains sub s = true <-> exists a b, s = a ++ sub ++ b.
Proof.
  induction s as [|x t IH]; simpl.
  - rewrite orb_false_r, startswith_spec. split.
    + intros [r Hr]. exists [], r. assumption.
    + intros [a [b H]]. destruct a; [eauto | discriminate].
  - rewrite orb_true_iff, startswith_spec, IH. split.
    + intros [[r Hr] | [a [b H]]].
      * exists [], r. assumption.
      * exists (x :: a), b. simpl. congruence.
    + intros [a [b H]]. destruct a as [|y a]; simpl in H.
      * left. eauto.
      * right. exists a, b. congruence.
Qed.

Lemma In_insert_sorted (A : Type) (leb : A -> A -> bool) (x y : A) (l : list A) :
  In y (insert_sorted leb x l) <-> y = x \/ In y l.
Proof.
  induction l as [|z t IH]; simpl.
  - intuition.
  - destruct (leb x z); simpl; rewrite ?IH; intuition.
Qed.

Lemma In_sorted (A : Type) (leb : A -> A -> bool) (y : A) (l : list A) :
  In y (sorted leb l) <-> In y l.
Proof.
  induction l as [|x t IH]; simpl; [tauto|].
  rewrite In_insert_sorted, IH. intuition.
Qed.

Lemma NoDup_insert_sorted (A : Type) (leb : A -> A -> bool) (x : A) (l : list A) :
  ~ In x l -> NoDup l -> NoDup (insert_sorted leb x l).
Proof.
  induction l as [|z t IH]; simpl; intros Hx Hl.
  - constructor; [tauto | constructor].
  - destruct (leb x z).
    + constructor; simpl; assumption.
    + inversion Hl; subst. constructor.
      * rewrite In_insert_sorted. intuition.
      * apply IH; tauto.
Qed.

Lemma NoDup_sorted (A : Type) (leb : A -> A -> bool) (l : list A) :
  NoDup l -> NoDup (sorted leb l).
Proof.
  induction l as [|x t IH]; simpl; intros H; [constructor|].
  inversion H; subst. apply NoDup_insert_sorted; [|auto].
  rewrite In_sorted. assumption.
Qed.

Lemma In_distinct (y : str) (l : list str) : In y (distinct l) <-> In y l.
Proof.
  induction l as [|x t IH]; simpl; [tauto|].
  destruct (mem x t) eqn:E; simpl; rewrite IH.
  - apply mem_In in E. intuition. subst; assumption.
  - tauto.
Qed.

Lemma NoDup_distinct (l : list str) : NoDup (distinct l).
Proof.
  induction l as [|x t IH]; simpl; [constructor|].
  destruct (mem x t) eqn:E; [assumption|].
  constructor; [|assumption].
  rewrite In_distinct. intros H. apply mem_In in H. congruence.
Qed.

Lemma In_sorted_set (y : str) (l : list str) : In y (sorted_set l) <-> In y l.
Proof. unfold sorted_set. rewrite In_sorted. apply In_distinct. Qed.

Lemma NoDup_sorted_set (l : list str) : NoDup (sorted_set l).
Proof. apply NoDup_sorted, NoDup_distinct. Qed.

End PyFacts.

(** ** The backtracking matcher *)

Module ReFacts.
Import Py Re PyFacts.

Lemma last_opt_app (a b : str) (d : option ascii) :
  last_opt (a ++ b) d = last_opt b (last_opt a d).
Proof. revert d. induction a as [|x a IH]; intros d; simpl; auto. Qed.

(** A greedy repetition fails exactly when the continuation fails after
    every run of the class. *)
Lemma star_greedy_None p k pv g s :
  star_greedy p k pv g s = None <->
  (forall w r', s = w ++ r' -> forallb p w = true ->
                k (mkCur (last_opt w pv) r' g) = None).
Proof.
  revert pv. induction s as [|x t IH]; intros pv; simpl.
  - split.
    + intros H w r' E _. symmetry in E. apply app_eq_nil in E.
      destruct E; subst. assumption.
    + intros H. apply (H [] []); reflexivity.
  - destruct (p x) eqn:Px.
    + destruct (star_greedy p k (Some x) g t) eqn:Inner.
      * split; [discriminate|]. intros H.
        assert (N : star_greedy p k (Some x) g t = None).
        { apply IH. intros w r' E F. apply (H (x :: w) r'); simpl.
          - congruence.
          - rewrite Px. assumption. }
        congruence.
      * rewrite IH in Inner. split.
        -- intros H w r' E F. destruct w as [|y w]; simpl in *.
           ++ subst r'. assumption.
           ++ injection E as -> ->.
              apply andb_true_iff in F. destruct F as [_ F].
              apply Inner; [reflexivity | assumption].
        -- intros H. apply (H [] (x :: t)); reflexivity.
    + split.
      * intros H w r' E F. destruct w as [|y w]; simpl in *.
        -- subst r'. assumption.
        -- injection E as -> ->. rewrite Px in F. discriminate.
      * intros H. apply (H [] (x :: t)); reflexivity.
Qed.

(** A greedy repetition succeeds with the longest run after which the
    continuation succeeds. *)
Lemma star_greedy_Some p k pv g s a :
  star_greedy p k pv g s = Some a <->
  exists w r',
    s = w ++ r' /\ forallb p w = true /\
    k (mkCur (last_opt w pv) r' g) = Some a /\
    (forall w' r'', s = w' ++ r'' -> forallb p w' = true ->
                    length w < length w' ->
                    k (mkCur (last_opt w' pv) r'' g) = None).
Proof.
  revert pv a. induction s as [|x t IH]; intros pv a; simpl.
  - split.
    + intros H. exists [], []. repeat split; auto.
      intros w' r'' E _ Hl. symmetry in E. apply app_eq_nil in E.
      destruct E; subst. simpl in Hl. lia.
    + intros (w & r' & E & _ & H & _). symmetry in E. apply app_eq_nil in E.
      destruct E; subst. assumption.
  - destruct (p x) eqn:Px.
    + destruct (star_greedy p k (Some x) g t) as [b|] eqn:Inner.
      * split.
        -- intros Hb. injection Hb as <-.
           apply IH in Inner. destruct Inner as (w & r' & E & F & H & Max).
           exists (x :: w), r'. simpl. rewrite Px. repeat split; auto.
           ++ congruence.
           ++ intros w' r'' E' F' Hl. destruct w' as [|y w']; simpl in *; [lia|].
              injection E' as -> E'.
              apply andb_true_iff in F'. destruct F' as [_ F'].
              apply Max; [assumption | assumption | lia].
        -- intros (w0 & r0 & E0 & F0 & H0 & Max0).
           destruct w0 as [|y w0]; simpl in *.
           ++ subst r0.
              apply IH in Inner. destruct Inner as (w & r' & E & F & H & Max).
              specialize (Max0 (x :: w) r'). simpl in Max0.
              rewrite Px in Max0. rewrite Max0 in H; [discriminate| | |]; auto.
              ** congruence.
              ** lia.
           ++ injection E0 as -> E0.
              apply andb_true_iff in F0. destruct F0 as [_ F0].
              assert (G : star_greedy p k (Some y) g t = Some a).
              { apply IH. exists w0, r0. repeat split; auto.
                intros w' r'' E' F' Hl.
                apply (Max0 (y :: w') r''); simpl.
                - congruence.
                - rewrite Px. assumption.
                - lia. }
              congruence.
      * rewrite star_greedy_None in Inner. split.
        -- intros H. exists [], (x :: t). repeat split; auto.
           intros w' r'' E' F' Hl. destruct w' as [|y w']; simpl in *; [lia|].
           injection E' as -> E'.
           apply andb_true_iff in F'. destruct F' as [_ F'].
           apply Inner; assumption.
        -- intros (w0 & r0 & E0 & F0 & H0 & Max0).
           destruct w0 as [|y w0]; simpl in *.
           ++ subst r0. assumption.
           ++ injection E0 as -> E0.
              apply andb_true_iff in F0. destruct F0 as [_ F0].
              rewrite (Inner w0 r0) in H0; auto. discriminate.
    + split.
      * intros H. exists [], (x :: t). repeat split; auto.
        intros w' r'' E' F' Hl. destruct w' as [|y w']; simpl in *; [lia|].
        injection E' as -> E'. rewrite Px in F'. discriminate.
      * intros (w0 & r0 & E0 & F0 & H0 & Max0).
        destruct w0 as [|y w0]; simpl in *.
        -- subst r0. assumption.
        -- injection E0 as -> E0. rewrite Px in F0. discriminate.
Qed.

Lemma star_lazy_None p k pv g s :
  star_lazy p k pv g s = None <->
  (forall w r', s = w ++ r' -> forallb p w = true ->
                k (mkCur (last_opt w pv) r' g) = None).
Proof.
  revert pv. induction s as [|x t IH]; intros pv; simpl.
  - destruct (k (mkCur pv [] g)) eqn:K0.
    + split; [discriminate|]. intros H.
      assert (N := H [] [] eq_refl eq_refl). simpl in N. congruence.
    + split; [|reflexivity]. intros _ w r' E _.
      symmetry in E. apply app_eq_nil in E. destruct E; subst. assumption.
  - destruct (k (mkCur pv (x :: t) g)) eqn:K0.
    + split; [discriminate|]. intros H.
      assert (N := H [] (x :: t) eq_refl eq_refl). simpl in N. congruence.
    + destruct (p x) eqn:Px.
      * rewrite IH. split.
        -- intros H w r' E F. destruct w as [|y w]; simpl in *.
           ++ subst r'. assumption.
           ++ injection E as -> ->.
              apply andb_true_iff in F. destruct F as [_ F].
              apply H; [reflexivity | assumption].
        -- intros H w r' E F. apply (H (x :: w) r'); simpl.
           ++ congruence.
           ++ rewrite Px. assumption.
      * split; [|reflexivity]. intros _ w r' E F.
        destruct w as [|y w]; simpl in *.
        -- subst r'. assumption.
        -- injection E as -> ->. rewrite Px in F. discriminate.
Qed.

(** A lazy repetition succeeds with the shortest run after which the
    continuation succeeds. *)
Lemma star_lazy_Some p k pv g s a :
  star_lazy p k pv g s = Some a ->
  exists w r',
    s = w ++ r' /\ forallb p w = true /\
    k (mkCur (last_opt w pv) r' g) = Some a /\
    (forall w' r'', s = w' ++ r'' -> length w' < length w ->
                    k (mkCur (last_opt w' pv) r'' g) = None).
Proof.
  revert pv. induction s as [|x t IH]; intros pv; simpl.
  - destruct (k (mkCur pv [] g)) eqn:K0; [|discriminate].
    intros H. injection H as ->. exists [], []. repeat split; auto.
    intros w' r'' _ Hl. simpl in Hl. lia.
  - destruct (k (mkCur pv (x :: t) g)) eqn:K0.
    + intros H. injection H as ->. exists [], (x :: t). repeat split; auto.
      intros w' r'' _ Hl. simpl in Hl. lia.
    + destruct (p x) eqn:Px; [|discriminate].
      intros H. apply IH in H. destruct H as (w & r' & E & F & H & Min).
      exists (x :: w), r'. simpl. rewrite Px. repeat split; auto.
      * congruence.
      * intros w' r'' E' Hl. destruct w' as [|y w']; simpl in *.
        -- subst r''. assumption.
        -- injection E' as -> E'. apply Min; [assumption | lia].
Qed.

Lemma is_nl_eq (x : ascii) : Chars.is_nl x = true <-> x = nl.
Proof. unfold Chars.is_nl. apply Ascii.eqb_eq. Qed.

(** The leftmost match: where it starts, and that no earlier start matches. *)
Lemma search_from_Some r pv s sk c' :
  search_from r pv s = Some (sk, c') <->
  exists r0,
    s = sk ++ r0 /\
    match_at r (mkCur (last_opt sk pv) r0 []) = Some c' /\
    (forall sk' r0', s = sk' ++ r0' -> length sk' < length sk ->
                     match_at r (mkCur (last_opt sk' pv) r0' []) = None).
Proof.
  revert pv sk c'. induction s as [|x t IH]; intros pv sk c'; simpl.
  - destruct (match_at r (mkCur pv [] [])) eqn:M0.
    + split.
      * intros H. injection H as <- <-. exists []. repeat split; auto.
        intros sk' r0' _ Hl. simpl in Hl. lia.
      * intros (r0 & E & H & _). symmetry in E. apply app_eq_nil in E.
        destruct E; subst. simpl in H. congruence.
    + split; [discriminate|].
      intros (r0 & E & H & _). symmetry in E. apply app_eq_nil in E.
      destruct E; subst. simpl in H. congruence.
  - destruct (match_at r (mkCur pv (x :: t) [])) eqn:M0.
    + split.
      * intros H. injection H as <- <-. exists (x :: t). repeat split; auto.
        intros sk' r0' _ Hl. simpl in Hl. lia.
      * intros (r0 & E & H & Min). destruct sk as [|y sk]; simpl in *.
        -- subst r0. congruence.
        -- assert (N := Min [] (x :: t) eq_refl). simpl in N.
           rewrite N in M0; [discriminate | lia].
    + destruct (search_from r (Some x) t) as [[sk0 c0]|] eqn:Inner.
      * split.
        -- intros Hs. injection Hs as <- <-.
           apply IH in Inner. destruct Inner as (r0 & E & H & Min).
           exists r0. simpl.
           repeat split; auto; [congruence|].
           intros sk' r0' E' Hl. destruct sk' as [|y sk']; simpl in *.
           ++ subst r0'. assumption.
           ++ injection E' as -> E'. apply Min; [assumption | lia].
        -- intros (r1 & E1 & H1 & Min1). destruct sk as [|y sk]; simpl in *.
           ++ subst r1. congruence.
           ++ injection E1 as -> E1.
              assert (G : search_from r (Some y) t = Some (sk, c')).
              { apply IH. exists r1. repeat split; auto.
                intros sk' r0' E' Hl. apply (Min1 (y :: sk') r0'); simpl.
                - congruence.
                - lia. }
              congruence.
      * split; [discriminate|].
        intros (r1 & E1 & H1 & Min1). destruct sk as [|y sk]; simpl in *.
        -- subst r1. congruence.
        -- injection E1 as -> E1.
           assert (G : search_from r (Some y) t = Some (sk, c')).
           { apply IH. exists r1. repeat split; auto.
             intros sk' r0' E' Hl. apply (Min1 (y :: sk') r0'); simpl.
             - congruence.
             - lia. }
           congruence.
Qed.

Lemma search_from_None r pv s :
  search_from r pv s = None <->
  (forall sk r0, s = sk ++ r0 -> match_at r (mkCur (last_opt sk pv) r0 []) = None).
Proof.
  revert pv. induction s as [|x t IH]; intros pv; simpl.
  - destruct (match_at r (mkCur pv [] [])) eqn:M0.
    + split; [discriminate|]. intros H.
      assert (N := H [] [] eq_refl). simpl in N. congruence.
    + split; [|reflexivity]. intros _ sk r0 E.
      symmetry in E. apply app_eq_nil in E. destruct E; subst. assumption.
  - destruct (match_at r (mkCur pv (x :: t) [])) eqn:M0.
    + split; [discriminate|]. intros H.
      assert (N := H [] (x :: t) eq_refl). simpl in N. congruence.
    + destruct (search_from r (Some x) t) as [[sk0 c0]|] eqn:Inner.
      * split; [discriminate|]. intros H.
        apply search_from_Some in Inner. destruct Inner as (r0 & E & M1 & _).
        assert (N := H (x :: sk0) r0). simpl in N.
        rewrite N in M1; [discriminate | congruence].
      * rewrite IH in Inner. split; [|reflexivity]. intros _ sk r0 E.
        destruct sk as [|y sk]; simpl in *.
        -- subst r0. assumption.
        -- injection E as -> E. apply Inner. assumption.
Qed.

End ReFacts.

(** ** The block pattern of the splicer *)

Module BlockFacts.
Import Py Re PyFacts ReFacts Inventory Chars Terms.

Lemma ws_app a b : ws (a ++ b) = ws a && ws b.
Proof. apply forallb_app. Qed.

Lemma ws_In w x : ws w = true -> In x w -> Chars.is_space x = true.
Proof. unfold ws. rewrite forallb_forall. auto. Qed.

Lemma nl_space : Chars.is_space nl = true.
Proof. reflexivity. Qed.

Section Block.
Variables S E : str.

Local Abbreviation tail_k := (m (block_tail E) Some).

Lemma tail_k_Some pv t g a :
  tail_k (mkCur pv t g) = Some a ->
  bol pv = true /\
  exists w2 w3 r',
    t = w2 ++ E ++ w3 ++ r' /\ ws w2 = true /\ ws w3 = true /\
    eol r' = true /\ rest a = r' /\
    (forall w3' r'', w3 ++ r' = w3' ++ r'' -> ws w3' = true ->
                     length w3 < length w3' -> eol r'' = false).
Proof.
  cbn [block_tail seq m]. unfold at_bol. cbn [prev rest groups].
  fold (bol pv). destruct (bol pv); [|discriminate].
  intros H. split; [reflexivity|].
  apply star_greedy_Some in H. destruct H as (w2 & r2 & E2 & F2 & H & _).
  cbn [rest] in H.
  destruct (strip_prefix E r2) as [r3|] eqn:P; [|discriminate].
  apply strip_prefix_Some in P. subst r2.
  unfold after in H. cbn [prev rest groups] in H.
  apply star_greedy_Some in H. destruct H as (w3 & r' & E3 & F3 & H & Max).
  unfold at_eol in H. cbn [rest] in H. fold (eol r') in H.
  destruct (eol r') eqn:Er; [|discriminate]. injection H as <-.
  exists w2, w3, r'. subst r3. repeat split; auto.
  intros w3' r'' E' F' Hl. specialize (Max w3' r'' E' F' Hl).
  unfold at_eol in Max. cbn [rest] in Max. fold (eol r'') in Max.
  destruct (eol r''); [discriminate | reflexivity].
Qed.

Lemma tail_k_intro pv t g w2 w3 r' :
  bol pv = true -> t = w2 ++ E ++ w3 ++ r' -> ws w2 = true -> ws w3 = true ->
  eol r' = true -> tail_k (mkCur pv t g) <> None.
Proof.
  intros B Et W2 W3 Er. cbn [block_tail seq m]. unfold at_bol.
  cbn [prev rest groups]. fold (bol pv). rewrite B.
  intros N. rewrite star_greedy_None in N.
  specialize (N w2 _ Et W2). cbn [rest] in N.
  rewrite strip_prefix_app in N. unfold after in N. cbn [prev rest groups] in N.
  rewrite star_greedy_None in N.
  specialize (N w3 r' eq_refl W3). unfold at_eol in N. cbn [rest] in N.
  fold (eol r') in N. rewrite Er in N. discriminate.
Qed.

Lemma block_Some pv s g a :
  match_at (block_pattern S E) (mkCur pv s g) = Some a ->
  bol pv = true /\
  exists w1 mid t,
    s = S ++ w1 ++ [nl] ++ mid ++ t /\ ws w1 = true /\
    tail_k (mkCur (last_opt mid (Some nl)) t g) = Some a /\
    (forall mid' t', mid ++ t = mid' ++ t' -> length mid' < length mid ->
                     tail_k (mkCur (last_opt mid' (Some nl)) t' g) = None).
Proof.
  unfold match_at, block_pattern. cbn [seq m]. change (m (seq [block_tail E])) with (m (block_tail E)). unfold at_bol at 1.
  cbn [prev rest groups]. fold (bol pv). destruct (bol pv); [|discriminate].
  intros H. split; [reflexivity|].
  destruct (strip_prefix S s) as [r1|] eqn:P; [|discriminate].
  apply strip_prefix_Some in P. subst s.
  unfold after in H. cbn [prev rest groups] in H.
  apply star_greedy_Some in H. destruct H as (w1 & r2 & E1 & F1 & H & _).
  cbn [rest] in H. destruct r2 as [|x r2]; [discriminate|].
  destruct (Chars.is_nl x) eqn:Nx; [|discriminate].
  apply is_nl_eq in Nx. subst x.
  unfold after in H. cbn [prev rest groups last_opt] in H.
  apply star_lazy_Some in H. destruct H as (mid & t & Em & _ & H & Min).
  exists w1, mid, t. subst. repeat split; auto.
Qed.

Lemma block_intro pv s g w1 mid t :
  bol pv = true -> s = S ++ w1 ++ [nl] ++ mid ++ t -> ws w1 = true ->
  tail_k (mkCur (last_opt mid (Some nl)) t g) <> None ->
  match_at (block_pattern S E) (mkCur pv s g) <> None.
Proof.
  intros B Es W1 T. unfold match_at, block_pattern. cbn [seq m]. change (m (seq [block_tail E])) with (m (block_tail E)).
  unfold at_bol at 1. cbn [prev rest groups]. fold (bol pv). rewrite B.
  subst s. rewrite strip_prefix_app. unfold after. cbn [prev rest groups].
  intros N. rewrite star_greedy_None in N.
  specialize (N w1 _ eq_refl W1). cbn [rest app] in N.
  assert (Hn : Chars.is_nl nl = true) by reflexivity.
  rewrite Hn in N. cbn [prev rest groups last_opt] in N.
  rewrite star_lazy_None in N.
  apply T. apply (N mid t eq_refl).
  unfold Chars.any. clear. induction mid; simpl; auto.
Qed.
End Block.

Lemma app_eq_len (A : Type) (a b c d : list A) :
  a ++ b = c ++ d -> length a = length c -> a = c /\ b = d.
Proof.
  revert c. induction a as [|x a IH]; intros [|y c] Eq Hl; simpl in *;
    try discriminate; auto.
  injection Eq as -> Eq. injection Hl as Hl.
  destruct (IH c Eq Hl) as [-> ->]. auto.
Qed.

(** A run of white space before a character that is none has one length. *)
Lemma ws_run_unique w w' x r x' r' :
  ws w = true -> ws w' = true ->
  Chars.is_space x = false -> Chars.is_space x' = false ->
  w ++ x :: r = w' ++ x' :: r' -> w = w' /\ x :: r = x' :: r'.
Proof.
  revert w'. induction w as [|y w IH]; intros [|y' w'] W W' Hx Hx' Eq; simpl in *.
  - auto.
  - injection Eq as -> _. apply andb_true_iff in W'. destruct W'. congruence.
  - injection Eq as -> _. apply andb_true_iff in W. destruct W. congruence.
  - injection Eq as -> Eq. apply andb_true_iff in W, W'.
    destruct W as [_ W], W' as [_ W'].
    destruct (IH w' W W' Hx Hx' Eq) as [-> E2]. auto.
Qed.

Lemma ws_suffix a b : ws (a ++ b) = true -> ws b = true.
Proof. rewrite ws_app. intros H. apply andb_true_iff in H. tauto. Qed.

Lemma ws_prefix a b : ws (a ++ b) = true -> ws a = true.
Proof. rewrite ws_app. intros H. apply andb_true_iff in H. tauto. Qed.

Section EndLine.
(** Of the end marker [E] only its first character matters here: it is no
    white space. *)
Variables (E : str) (xe : ascii) (E' : str).
Hypothesis HE : E = xe :: E'.
Hypothesis Hxe : Chars.is_space xe = false.

(** White space does not reach into the end marker. *)
Lemma ws_before_E w r w' r' :
  ws w = true -> ws w' = true -> w ++ E ++ r = w' ++ E ++ r' -> w = w'.
Proof.
  intros W W' Eq. rewrite HE in Eq. simpl in Eq.
  apply (@ws_run_unique _ _ _ _ _ _ W W' Hxe Hxe Eq).
Qed.

Lemma ws_short_before_E w l r r' :
  ws w = true -> w ++ E ++ r = l ++ E ++ r' -> length l < length w -> False.
Proof.
  intros W Eq Hl. apply app_eq_app in Eq. destruct Eq as [l4 [[E1 E2]|[E1 E2]]].
  - destruct l4 as [|y l4].
    + rewrite app_nil_r in E1. subst. lia.
    + assert (y = xe) by (rewrite HE in E2; simpl in E2; congruence). subst y.
      assert (I : In xe w) by (rewrite E1; apply in_or_app; right; left; reflexivity).
      apply (@ws_In _ _ W) in I. congruence.
  - rewrite E1, length_app in Hl. lia.
Qed.

(** The match chosen ends at the first end line after the start line. *)
Lemma first_end_line w1 mid w2 w3 r' g a u2 u3 b :
  ws w1 = true -> ws w2 = true ->
  (forall mid' t', mid ++ (w2 ++ E ++ w3 ++ r') = mid' ++ t' ->
                   length mid' < length mid ->
                   m (block_tail E) Some (mkCur (last_opt mid' (Some nl)) t' g) = None) ->
  w1 ++ [nl] ++ mid ++ w2 ++ E ++ w3 ++ r' = a ++ u2 ++ E ++ u3 ++ b ->
  last_opt a None = Some nl ->
  ws u2 = true -> ws u3 = true -> eol b = true ->
  length (w1 ++ [nl] ++ mid ++ w2) <= length (a ++ u2).
Proof.
  intros W1 W2 Min Eq La Wu2 Wu3 Eb.
  destruct (le_lt_dec (length (w1 ++ [nl] ++ mid ++ w2)) (length (a ++ u2)))
    as [Hle|Hlt]; [assumption|]. exfalso.
  assert (Eq' : (w1 ++ [nl]) ++ (mid ++ w2 ++ E ++ w3 ++ r') = a ++ (u2 ++ E ++ u3 ++ b)).
  { rewrite <- Eq, <- !app_assoc. reflexivity. }
  apply app_eq_app in Eq'. destruct Eq' as [l [[E1 E2]|[E1 E2]]].
  - (* the line start lies in the white space after the start line *)
    assert (Wl : ws l = true).
    { assert (W : ws (w1 ++ [nl]) = true) by (rewrite ws_app, W1; reflexivity).
      rewrite E1 in W. apply (@ws_suffix _ _ W). }
    assert (E2' : u2 ++ (E ++ u3 ++ b) = l ++ (mid ++ w2 ++ E ++ w3 ++ r'))
      by exact E2.
    apply app_eq_app in E2'. destruct E2' as [l2 [[F1 F2]|[F1 F2]]].
    + assert (Wl2 : ws l2 = true) by (rewrite F1 in Wu2; apply (@ws_suffix _ _ Wu2)).
      destruct mid as [|y mid].
      * simpl in F2. apply (@ws_before_E _ _ _ _ W2 Wl2) in F2. subst l2.
        rewrite !length_app in Hlt. rewrite F1, length_app in Hlt.
        apply (f_equal (@length _)) in E1. rewrite !length_app in E1.
        simpl in *. lia.
      * apply (@tail_k_intro E (Some nl) ((y :: mid) ++ w2 ++ E ++ w3 ++ r') g
                             l2 u3 b); auto.
        apply (Min [] _ eq_refl). simpl. lia.
    + destruct l2 as [|y l2].
      * rewrite app_nil_r in F1. subst l. simpl in F2.
        destruct mid as [|y mid].
        -- simpl in F2. symmetry in F2.
           assert (W0 : ws [] = true) by reflexivity.
           apply (@ws_before_E _ _ _ _ W2 W0) in F2. subst w2.
           rewrite !length_app in Hlt.
           apply (f_equal (@length _)) in E1. rewrite !length_app in E1.
           simpl in *. lia.
        -- apply (@tail_k_intro E (Some nl) ((y :: mid) ++ w2 ++ E ++ w3 ++ r') g
                               [] u3 b); auto.
           apply (Min [] _ eq_refl). simpl. lia.
      * assert (y = xe) by (rewrite HE in F2; simpl in F2; congruence). subst y.
        assert (I : In xe l) by (rewrite F1; apply in_or_app; right; left; reflexivity).
        apply (@ws_In _ _ Wl) in I. congruence.
  - (* the line start lies after the line break of the start line *)
    assert (Bl : bol (last_opt l (Some nl)) = true).
    { rewrite E1, !last_opt_app in La. simpl in La. rewrite La. reflexivity. }
    destruct (le_lt_dec (length mid) (length l)) as [Hge|Hlt2].
    + assert (E2' : mid ++ (w2 ++ E ++ w3 ++ r') = l ++ (u2 ++ E ++ u3 ++ b))
        by exact E2.
      apply app_eq_app in E2'. destruct E2' as [l3 [[F1 F2]|[F1 F2]]].
      * rewrite F1, length_app in Hge.
        assert (l3 = []) by (destruct l3; [reflexivity | simpl in Hge; lia]).
        subst l3. rewrite app_nil_r in F1. simpl in F2. subst mid.
        apply (@ws_before_E _ _ _ _ Wu2 W2) in F2. subst u2.
        rewrite E1, !length_app in Hlt. simpl in Hlt. lia.
      * assert (F2' : w2 ++ E ++ (w3 ++ r') = (l3 ++ u2) ++ E ++ (u3 ++ b)).
        { rewrite F2, <- !app_assoc. reflexivity. }
        apply (@ws_short_before_E _ _ _ _ W2 F2').
        rewrite E1, F1, !length_app in Hlt. rewrite !length_app. simpl in Hlt. lia.
    + apply (@tail_k_intro E (last_opt l (Some nl)) (u2 ++ E ++ u3 ++ b) g
                           u2 u3 b); auto.
Qed.
End EndLine.

Section Idem.
(** [S] and [E] are the marker lines, [R] the new interior.  Of the start
    marker only its last character matters, of the end marker its first
    and its last one: none of them is white space. *)
Variables S E R : str.
Variables (xs xe ye : ascii) (S0 E' E0 : str).
Hypothesis HS : S = S0 ++ [xs].
Hypothesis HE : E = xe :: E'.
Hypothesis HE0 : E = E0 ++ [ye].
Hypothesis Hxs : Chars.is_space xs = false.
Hypothesis Hxe : Chars.is_space xe = false.
Hypothesis Hye : Chars.is_space ye = false.
Hypothesis HEnl : ~ In nl E.

Let A0 : str := [nl; nl] ++ R ++ [nl; nl].

Lemma xe_not_nl : xe <> nl.
Proof. intros ->. rewrite nl_space in Hxe. discriminate. Qed.

(** A copy of the end marker that starts inside the new interior lies
    inside [R]. *)
Lemma inner_occurrence X Y Suf :
  A0 ++ E ++ Suf = X ++ E ++ Y -> length X < length A0 ->
  exists A' B', R = A' ++ E ++ B' /\ X = [nl; nl] ++ A'
                /\ Y = B' ++ [nl; nl] ++ E ++ Suf.
Proof.
  intros Eq Hl. apply app_eq_app in Eq. destruct Eq as [l [[Ea Eb]|[Ea Eb]]].
  2:{ rewrite Ea, length_app in Hl. lia. }
  destruct l as [|y l].
  { rewrite Ea, app_nil_r in Hl. lia. }
  assert (y = xe) by (rewrite HE in Eb; simpl in Eb; congruence). subst y.
  unfold A0 in Ea.
  assert (HX : exists A', X = [nl; nl] ++ A' /\ R ++ [nl; nl] = A' ++ xe :: l).
  { apply app_eq_app in Ea. destruct Ea as [l3 [[F1 F2]|[F1 F2]]].
    - destruct l3 as [|z l3].
      + exists []. rewrite app_nil_r in F1. simpl in F2. split; [auto | symmetry; exact F2].
      + simpl in F2. injection F2 as <- F2.
        assert (I : In xe [nl; nl])
          by (rewrite F1; apply in_or_app; right; left; reflexivity).
        simpl in I. destruct I as [I|[I|[]]]; symmetry in I; destruct (xe_not_nl I).
    - exists l3. auto. }
  destruct HX as (A' & -> & ER).
  assert (Eb' : E ++ Y = (xe :: l) ++ (E ++ Suf)).
  { rewrite Eb. reflexivity. }
  apply app_eq_app in Eb'. destruct Eb' as [l4 [[G1 G2]|[G1 G2]]].
  - exfalso.
    assert (Hne : xe :: l <> []) by discriminate.
    destruct (exists_last Hne) as (l0 & z & Hz). rewrite Hz in ER, G1.
    rewrite app_assoc in ER.
    change [nl; nl] with ([nl] ++ [nl]) in ER. rewrite app_assoc in ER.
    apply app_inj_tail in ER. destruct ER as [_ <-].
    apply HEnl. rewrite G1. apply in_or_app. left. apply in_or_app. right.
    left. reflexivity.
  - assert (ER' : R ++ [nl; nl] = (A' ++ E) ++ l4).
    { rewrite ER, G1, <- app_assoc. reflexivity. }
    apply app_eq_app in ER'. destruct ER' as [l5 [[H1 H2]|[H1 H2]]].
    + exists A', l5. split; [rewrite H1, <- app_assoc; reflexivity|].
      split; [reflexivity|]. rewrite G2, H2, <- app_assoc. reflexivity.
    + destruct l5 as [|z l5].
      * exists A', []. rewrite app_nil_r in H1. simpl in H2.
        split; [rewrite <- H1, app_nil_r; reflexivity|].
        split; [reflexivity|]. rewrite G2, <- H2. reflexivity.
      * exfalso. simpl in H2. injection H2 as <- H2.
        assert (Hl5 : l5 = [] \/ exists l6, l5 = l6 ++ [nl]).
        { destruct l5 as [|z l5]; [left; reflexivity|].
          simpl in H2. injection H2 as <- H2. right.
          destruct l5; [exists []; reflexivity | discriminate]. }
        assert (Hend : exists q, A' ++ E = q ++ [nl]).
        { rewrite H1. destruct Hl5 as [->|(l6 & ->)].
          - exists R. reflexivity.
          - exists (R ++ nl :: l6). rewrite <- app_assoc. reflexivity. }
        destruct Hend as (q & Hq). rewrite HE0, app_assoc in Hq.
        apply app_inj_tail in Hq. destruct Hq as [_ Hq]. subst ye.
        rewrite nl_space in Hye. discriminate.
Qed.

(** A match of the tail of the pattern that ends inside the new interior
    shows an end line in [R]. *)
Lemma tail_inside v1 vmid v2 v3 r2 Suf :
  bol (last_opt vmid (Some nl)) = true ->
  ws v2 = true -> ws v3 = true -> eol r2 = true ->
  A0 ++ E ++ Suf = (v1 ++ [nl] ++ vmid ++ v2) ++ E ++ v3 ++ r2 ->
  length (v1 ++ [nl] ++ vmid ++ v2) < length A0 ->
  holds_end_line E R.
Proof.
  intros Bm W2 W3 Er Eq Hl.
  destruct (@inner_occurrence _ _ _ Eq Hl) as (A' & B' & ER & EX & EY).
  assert (Ha : exists a u2, A' = a ++ u2 /\ bol (last_opt a (Some nl)) = true
                            /\ ws u2 = true).
  { assert (EX' : (v1 ++ [nl] ++ vmid) ++ v2 = [nl; nl] ++ A').
    { rewrite <- EX, <- !app_assoc. reflexivity. }
    apply app_eq_app in EX'. destruct EX' as [l [[E1 E2]|[E1 E2]]].
    - exists l, v2. split; [assumption|]. split; [|assumption].
      assert (Q : last_opt ([nl; nl] ++ l) None = last_opt (v1 ++ [nl] ++ vmid) None)
        by (rewrite E1; reflexivity).
      rewrite !last_opt_app in Q. simpl in Q. rewrite Q. assumption.
    - exists [], A'. split; [reflexivity|]. split; [reflexivity|].
      rewrite E2 in W2. apply (@ws_suffix _ _ W2). }
  destruct Ha as (a & u2 & EA & Ba & Wu2).
  assert (Hb : exists u3 b, B' = u3 ++ b /\ ws u3 = true /\ eol b = true).
  { apply app_eq_app in EY. destruct EY as [l [[E1 E2]|[E1 E2]]].
    - exists B', []. rewrite app_nil_r. split; [reflexivity|].
      split; [|reflexivity]. rewrite E1 in W3. apply (@ws_prefix _ _ W3).
    - exists v3, l. split; [assumption|]. split; [assumption|].
      destruct l as [|y l]; [reflexivity|]. rewrite E2 in Er. exact Er. }
  destruct Hb as (u3 & b & EB & Wu3 & Eb).
  exists a, u2, u3, b. split; [|auto].
  rewrite ER, EA, EB, <- !app_assoc. reflexivity.
Qed.

Lemma last_A0 d : last_opt A0 d = Some nl.
Proof.
  unfold A0. rewrite !last_opt_app. reflexivity.
Qed.

(** On the spliced text the match that starts at the start marker ends
    right after the end marker that the splice wrote. *)
Lemma second_end pv Suf w3 c2 :
  ~ holds_end_line E R ->
  eol Suf = true -> ws w3 = true ->
  (forall w3' r'', w3 ++ Suf = w3' ++ r'' -> ws w3' = true ->
                   length w3 < length w3' -> eol r'' = false) ->
  match_at (block_pattern S E) (mkCur pv (S ++ A0 ++ E ++ Suf) []) = Some c2 ->
  rest c2 = Suf.
Proof.
  intros HR ESuf W3o Max3 H.
  apply block_Some in H. destruct H as (B & v1 & vmid & vt & Es & W1 & T & MinMid).
  apply app_inv_head in Es.
  apply tail_k_Some in T.
  destruct T as (Bm & v2 & v3 & r2 & Et & W2 & W3 & Er & Rc & _).
  rewrite Rc.
  destruct (lt_eq_lt_dec (length (v1 ++ [nl] ++ vmid ++ v2)) (length A0)) as [[Lt|Eq]|Gt].
  - exfalso. apply HR.
    apply (@tail_inside v1 vmid v2 v3 r2 Suf); auto.
    rewrite Es, Et. rewrite <- !app_assoc. reflexivity.
  - assert (Es' : A0 ++ E ++ Suf = (v1 ++ [nl] ++ vmid ++ v2) ++ E ++ v3 ++ r2).
    { rewrite Es, Et. rewrite <- !app_assoc. reflexivity. }
    apply app_eq_len in Es'; [|auto].
    destruct Es' as [_ Es']. apply app_inv_head in Es'.
    destruct v3 as [|y v3]; [simpl in Es'; congruence|].
    exfalso.
    assert (N : eol r2 = false).
    { apply (Max3 (w3 ++ y :: v3) r2).
      - rewrite Es', <- app_assoc. reflexivity.
      - rewrite ws_app, W3o, W3. reflexivity.
      - rewrite length_app. simpl. lia. }
    congruence.
  - exfalso.
    assert (Hcut : exists l, A0 = (v1 ++ [nl]) ++ l /\ vmid ++ vt = l ++ E ++ Suf).
    { assert (Es2 : A0 ++ (E ++ Suf) = (v1 ++ [nl]) ++ (vmid ++ vt)).
      { rewrite Es, <- app_assoc. reflexivity. }
      apply app_eq_app in Es2. destruct Es2 as [l [[E1 E2]|[E1 E2]]].
      - exists l. auto.
      - destruct l as [|y l].
        + exists []. rewrite app_nil_r in E1. rewrite app_nil_r. simpl in *. auto.
        + assert (y = xe) by (rewrite HE in E2; simpl in E2; congruence). subst y.
          assert (I : In xe (v1 ++ [nl])) by (rewrite E1; apply in_or_app; right; left; reflexivity).
          apply in_app_or in I. destruct I as [I|[I|[]]].
          * apply (@ws_In _ _ W1) in I. congruence.
          * symmetry in I. destruct (xe_not_nl I). }
    destruct Hcut as (l & EA & Em).
    assert (Bl : bol (last_opt l (Some nl)) = true).
    { assert (Q := last_A0 None). rewrite EA, !last_opt_app in Q. simpl in Q.
      rewrite Q. reflexivity. }
    assert (Hlen : length l < length vmid + length v2).
    { rewrite EA in Gt. rewrite !length_app in Gt. simpl in Gt. lia. }
    apply app_eq_app in Em. destruct Em as [l5 [[E1 E2]|[E1 E2]]].
    + destruct l5 as [|z l5].
      * rewrite app_nil_r in E1. subst l. simpl in E2.
        destruct v2 as [|y v2]; [simpl in Hlen; lia|].
        rewrite Et, HE in E2. simpl in E2. injection E2 as E2 _.
        assert (I : Chars.is_space y = true) by (apply (@ws_In _ _ W2); left; reflexivity).
        congruence.
      * apply (@tail_k_intro E (last_opt l (Some nl)) (E ++ Suf) [] [] [] Suf); auto.
        rewrite E2. apply MinMid.
        -- rewrite E1, <- app_assoc. reflexivity.
        -- rewrite E1, length_app. simpl. lia.
    + rewrite Et in E2. rewrite E1, length_app in Hlen.
      apply app_eq_app in E2. destruct E2 as [l6 [[F1 F2]|[F1 F2]]].
      * destruct l6 as [|y l6].
        -- rewrite app_nil_r in F1. subst. lia.
        -- assert (y = xe) by (rewrite HE in F2; simpl in F2; congruence). subst y.
           assert (I : In xe v2) by (rewrite F1; apply in_or_app; right; left; reflexivity).
           apply (@ws_In _ _ W2) in I. congruence.
      * rewrite F1, length_app in Hlen. lia.
Qed.

(** If the spliced text has a match that starts before the block, so has
    the text before the splice. *)
Lemma no_earlier_match pv p2 w1 mid t Suf :
  p2 <> [] ->
  ws w1 = true ->
  m (block_tail E) Some (mkCur (last_opt mid (Some nl)) t []) <> None ->
  match_at (block_pattern S E)
           (mkCur pv (p2 ++ S ++ w1 ++ [nl] ++ mid ++ t) []) = None ->
  match_at (block_pattern S E)
           (mkCur pv (p2 ++ S ++ A0 ++ E ++ Suf) []) = None.
Proof.
  intros Hp2 W1 T Orig.
  destruct (match_at (block_pattern S E)
              (mkCur pv (p2 ++ S ++ A0 ++ E ++ Suf) [])) as [c|] eqn:M;
    [|reflexivity].
  exfalso.
  apply block_Some in M. destruct M as (B & v1 & vmid & vt & Es & V1 & _ & _).
  (* the start marker found early lies inside [p2 ++ S] *)
  assert (HD : exists D, p2 ++ S = S ++ D
                         /\ v1 ++ [nl] ++ vmid ++ vt = D ++ A0 ++ E ++ Suf).
  { rewrite app_assoc in Es.
    apply app_eq_app in Es. destruct Es as [l [[E1 E2]|[E1 E2]]].
    - exists l. auto.
    - exfalso. apply (f_equal (@length ascii)) in E1.
      rewrite !length_app in E1. destruct p2; [congruence | simpl in E1; lia]. }
  destruct HD as (D & ED & Ev).
  (* and what follows it there ends with the last character of [S] *)
  assert (HD0 : exists D0, D = D0 ++ [xs]).
  { destruct D as [|d D].
    - exfalso. apply (f_equal (@length ascii)) in ED.
      rewrite !length_app in ED. destruct p2; [congruence | simpl in ED; lia].
    - assert (Hne : d :: D <> []) by discriminate.
      destruct (exists_last Hne) as (D0 & y & HDy). rewrite HDy in *.
      exists D0. rewrite HS in ED. rewrite !app_assoc in ED.
      apply app_inj_tail in ED. destruct ED as [_ <-]. reflexivity. }
  destruct HD0 as (D0 & ->).
  assert (Hpre : exists l, D0 ++ [xs] = (v1 ++ [nl]) ++ l).
  { assert (Ev' : (v1 ++ [nl]) ++ (vmid ++ vt) = (D0 ++ [xs]) ++ (A0 ++ E ++ Suf)).
    { rewrite <- !app_assoc. rewrite <- !app_assoc in Ev. exact Ev. }
    apply app_eq_app in Ev'. destruct Ev' as [l [[E1 E2]|[E1 E2]]].
    - exfalso.
      assert (I : In xs (v1 ++ [nl])).
      { rewrite E1. apply in_or_app. left. apply in_or_app. right. left. reflexivity. }
      apply in_app_or in I. destruct I as [I|[I|[]]].
      + apply (@ws_In _ _ V1) in I. congruence.
      + subst xs. rewrite nl_space in Hxs. discriminate.
    - exists l. assumption. }
  destruct Hpre as (l & Hpre).
  revert Orig.
  apply (@block_intro S E pv _ [] v1 (l ++ w1 ++ [nl] ++ mid) t); auto.
  - rewrite app_assoc, ED, Hpre, <- !app_assoc. reflexivity.
  - replace (last_opt (l ++ w1 ++ [nl] ++ mid) (Some nl))
      with (last_opt mid (Some nl)); [assumption|].
    rewrite !last_opt_app. reflexivity.
Qed.

Lemma last_opt_bol a : bol (last_opt a (Some nl)) = true -> last_opt a (Some nl) = Some nl.
Proof.
  assert (G : forall x, exists y, last_opt a (Some x) = Some y).
  { induction a as [|z a IH]; intros x; simpl; eauto. }
  destruct (G nl) as (y & Hy). rewrite Hy. simpl. intros H.
  apply is_nl_eq in H. congruence.
Qed.

(** If the match on the spliced text ends right after the end marker that
    the splice wrote, [R] holds no end line. *)
Lemma second_end_inv pv Suf c2 :
  match_at (block_pattern S E) (mkCur pv (S ++ A0 ++ E ++ Suf) []) = Some c2 ->
  rest c2 = Suf -> ~ holds_end_line E R.
Proof.
  intros H Hr (a & u2 & u3 & b & ER & Ba & Wu2 & Wu3 & Eb).
  apply block_Some in H. destruct H as (B & v1 & vmid & vt & Es & W1 & T & MinMid).
  apply app_inv_head in Es.
  apply tail_k_Some in T.
  destruct T as (Bm & v2 & v3 & r2 & Et & W2 & W3 & Er & Rc & _).
  rewrite Rc in Hr. clear Rc. subst vt. rewrite Hr in Es, MinMid, Er. clear Hr.
  assert (Es' : (A0 ++ E) ++ Suf = ((v1 ++ [nl] ++ vmid ++ v2) ++ E ++ v3) ++ Suf).
  { rewrite <- !app_assoc. rewrite Es, <- ?app_assoc. reflexivity. }
  apply app_inv_tail in Es'.
  assert (V3 : v3 = []).
  { destruct v3 as [|y v3]; [reflexivity|]. exfalso.
    assert (Hne : y :: v3 <> []) by discriminate.
    destruct (exists_last Hne) as (v3' & z & Hz). rewrite Hz in Es', W3.
    rewrite HE0 in Es' at 1. rewrite !app_assoc in Es'.
    apply app_inj_tail in Es'. destruct Es' as [_ <-].
    assert (I : Chars.is_space ye = true).
    { apply (@ws_In _ _ W3). apply in_or_app. right. left. reflexivity. }
    congruence. }
  subst v3. rewrite app_nil_r in Es'. apply app_inv_tail in Es'.
  assert (Hle : length (v1 ++ [nl] ++ vmid ++ v2) <= length (([nl; nl] ++ a) ++ u2)).
  { apply (@first_end_line E xe E' HE Hxe v1 vmid v2 [] Suf [] ([nl; nl] ++ a) u2 u3
                           (b ++ [nl; nl] ++ E ++ Suf)); auto.
    - transitivity (A0 ++ E ++ Suf); [symmetry; exact Es|].
      unfold A0. rewrite ER, <- !app_assoc. reflexivity.
    - rewrite last_opt_app. simpl. apply last_opt_bol. assumption.
    - destruct b; [reflexivity | assumption]. }
  rewrite <- Es' in Hle. unfold A0 in Hle. rewrite ER in Hle.
  rewrite !length_app in Hle. simpl in Hle. rewrite HE in Hle. simpl in Hle. lia.
Qed.

(** The splice keeps the place of the leftmost block; it keeps the text
    after it exactly when [R] holds no end line. *)
Lemma search_spliced text P c1 :
  search_from (block_pattern S E) None text = Some (P, c1) ->
  exists c2,
    search_from (block_pattern S E) None (P ++ S ++ A0 ++ E ++ rest c1)
    = Some (P, c2)
    /\ (rest c2 = rest c1 <-> ~ holds_end_line E R).
Proof.
  intros H. apply search_from_Some in H. destruct H as (r0 & Et & M & Min).
  pose proof M as M'. apply block_Some in M'.
  destruct M' as (BP & w1 & mid & t & Er0 & W1 & T & _).
  pose proof T as T'. apply tail_k_Some in T'.
  destruct T' as (Bm & w2 & w3 & Suf & Ett & W2 & W3 & ESuf & Rc & Max3).
  rewrite Rc.
  destruct (match_at (block_pattern S E)
              (mkCur (last_opt P None) (S ++ A0 ++ E ++ Suf) [])) as [c2|] eqn:M2.
  - exists c2. split.
    + apply search_from_Some. exists (S ++ A0 ++ E ++ Suf). repeat split; auto.
      intros sk' r0' Eq Hl.
      apply app_eq_app in Eq. destruct Eq as [p2 [[E1 E2]|[E1 E2]]].
      * subst r0'. destruct p2 as [|y p2].
        { rewrite app_nil_r in E1. subst. lia. }
        apply no_earlier_match with (w1 := w1) (mid := mid) (t := t); auto.
        -- discriminate.
        -- rewrite T. discriminate.
        -- apply Min; [|assumption].
           rewrite Et, E1, Er0. symmetry. apply app_assoc.
      * rewrite E1, length_app in Hl. lia.
    + split.
      * intros Hr. eapply second_end_inv; eauto.
      * intros HR. eapply second_end; eauto.
  - exfalso. revert M2.
    apply block_intro with (w1 := []) (mid := [nl] ++ R ++ [nl; nl]) (t := E ++ Suf).
    + assumption.
    + unfold A0. simpl. rewrite <- !app_assoc. reflexivity.
    + reflexivity.
    + apply tail_k_intro with (w2 := []) (w3 := []) (r' := Suf); auto.
      rewrite !last_opt_app. reflexivity.
Qed.


End Idem.

Lemma subn_once r repl s :
  subn r repl s 1 =
  match search r s with
  | None => (s, 0)
  | Some (sk, c') => (sk ++ repl ++ rest c', 1)
  end.
Proof.
  unfold subn, search. simpl.
  destruct (search_from r None s) as [[sk c']|]; reflexivity.
Qed.

(** [replace_block] succeeds exactly when the pattern is found, and then
    replaces the leftmost match. *)
Lemma replace_block_search text sm em replacement :
  replace_block text sm em replacement =
  match search (block_pattern (start_line sm) (end_line em)) text with
  | None =>
      Raise (RuntimeError
               (L "Expected exactly 1 replace for markers " ++ start_line sm
                ++ L ".." ++ end_line em ++ L ", got " ++ str_of_nat 0))
  | Some (sk, c') =>
      Ok (sk ++ (start_line sm ++ [nl; nl] ++ rstrip replacement ++ [nl; nl]
                 ++ end_line em) ++ rest c')
  end.
Proof.
  unfold replace_block. rewrite subn_once.
  destruct (search _ text) as [[sk c']|]; reflexivity.
Qed.

Lemma no_newline_In (s : str) : contains [nl] s = false -> ~ In nl s.
Proof.
  intros H I. apply in_split in I. destruct I as (a & b & ->).
  assert (C : contains [nl] (a ++ nl :: b) = true).
  { apply contains_spec. exists a, b. reflexivity. }
  congruence.
Qed.

Lemma end_line_no_newline em : ~ In nl em -> ~ In nl (end_line em).
Proof.
  intros H I. unfold end_line in I.
  apply in_app_or in I. destruct I as [I|I].
  - simpl in I. repeat (destruct I as [I|I]; [discriminate|]). assumption.
  - apply in_app_or in I. destruct I as [I|I]; [auto|].
    simpl in I. repeat (destruct I as [I|I]; [discriminate|]). assumption.
Qed.

End BlockFacts.

(** ** What every match of the scanner patterns looks like *)

Module ScannerFacts.
Import Py Re PyFacts ReFacts Inventory Chars.

(** Whatever a pattern matches, the result comes from its continuation. *)
Lemma m_cont r : forall k c a, m r k c = Some a -> exists c', k c' = Some a.
Proof.
  induction r as [s|p|p|p| | | |r1 IH1 r2 IH2|r1 IH1 r2 IH2|n r IH];
    intros k c a H; simpl in H.
  - destruct (strip_prefix s (rest c)); [eauto | discriminate].
  - destruct (rest c) as [|x t]; [discriminate|].
    destruct (p x); [eauto | discriminate].
  - apply star_greedy_Some in H. destruct H as (w & r' & _ & _ & H & _). eauto.
  - apply star_lazy_Some in H. destruct H as (w & r' & _ & _ & H & _). eauto.
  - destruct (at_bol c); [eauto | discriminate].
  - destruct (at_eol c); [eauto | discriminate].
  - destruct (at_word_boundary c); [eauto | discriminate].
  - apply IH1 in H. destruct H as (c1 & H). apply IH2 in H. assumption.
  - destruct (m r1 k c) eqn:M1.
    + injection H as <-. apply IH1 in M1. assumption.
    + apply IH2 in H. assumption.
  - apply IH in H. destruct H as (c' & H). eauto.
Qed.

Lemma firstn_app_exact (A : Type) (a b : list A) :
  firstn (length (a ++ b) - length b) (a ++ b) = a.
Proof.
  rewrite length_app.
  replace (length a + length b - length b) with (length a) by lia.
  rewrite firstn_app, Nat.sub_diag, firstn_all. simpl. apply app_nil_r.
Qed.

(** A group that holds one character of a class and a run of another. *)
Lemma m_ident_group n p1 p2 k c a :
  m (Grp n (Cat (Cls p1) (StarG p2))) k c = Some a ->
  exists x w r',
    rest c = x :: w ++ r' /\ p1 x = true /\ forallb p2 w = true /\
    k (mkCur (last_opt w (Some x)) r' ((n, x :: w) :: groups c)) = Some a.
Proof.
  cbn [m]. destruct (rest c) as [|x t] eqn:Rc; [discriminate|].
  destruct (p1 x) eqn:Px; [|discriminate].
  unfold after. cbn [prev rest groups last_opt].
  intros H. apply star_greedy_Some in H.
  destruct H as (w & r' & Et & Fw & H & _).
  exists x, w, r'. subst t. repeat split; auto.
  unfold set_group in H. cbn [prev rest groups] in H.
  rewrite Rc in H.
  change (x :: w ++ r') with ((x :: w) ++ r') in H.
  rewrite firstn_app_exact in H. assumption.
Qed.

(** Every element of [finditer] is the end of a match somewhere. *)
Lemma finditer_from_match fuel r pv s c :
  In c (finditer_from fuel r pv s) ->
  exists pv' s', match_at r (mkCur pv' s' []) = Some c.
Proof.
  revert pv s. induction fuel as [|fuel IH]; intros pv s H; simpl in H;
    [contradiction|].
  destruct (search_from r pv s) as [[sk c']|] eqn:Sr; [|contradiction].
  destruct H as [<-|H].
  - apply search_from_Some in Sr. destruct Sr as (r0 & _ & M & _). eauto.
  - destruct (length (rest c') + length sk <? length s).
    + eapply IH; eauto.
    + destruct (rest c') as [|x t]; [contradiction|]. eapply IH; eauto.
Qed.

Lemma m_Cat r1 r2 k c : m (Cat r1 r2) k c = m r1 (m r2 k) c.
Proof. reflexivity. Qed.

Ltac skip_prefix H :=
  rewrite m_Cat in H; apply m_cont in H;
  let c' := fresh "c" in destruct H as [c' H].

Lemma PUB_DECL_RE_name c a :
  match_at PUB_DECL_RE c = Some a ->
  exists x w, group 2 (groups a) = x :: w
              /\ ident_start x = true /\ forallb ident_char w = true.
Proof.
  unfold match_at, PUB_DECL_RE. cbn [seq]. intros H.
  do 6 skip_prefix H.
  rewrite m_Cat in H. apply m_ident_group in H.
  destruct H as (x & w & r' & _ & Px & Pw & H).
  cbn [m] in H. destruct (at_word_boundary _); [|discriminate].
  injection H as <-. exists x, w. auto.
Qed.

End ScannerFacts.

(** ** Strings, continued *)

Module TextFacts.
Import Py Re PyFacts Chars Shapes.

Lemma ident_start_char c : ident_start c = true -> ident_char c = true.
Proof.
  unfold ident_start, ident_char. intros H.
  apply orb_true_iff in H. destruct H as [H|H].
  - apply orb_true_iff in H. destruct H as [H|H]; rewrite H;
      rewrite ?orb_true_r; reflexivity.
  - rewrite H. rewrite ?orb_true_r. reflexivity.
Qed.

Lemma ident_char_word c : ident_char c = true -> is_word c = true.
Proof. unfold is_word. intros ->. reflexivity. Qed.

Lemma last_opt_In w : forall x, exists z, last_opt w (Some x) = Some z /\ In z (x :: w).
Proof.
  induction w as [|y w IH]; intros x; simpl.
  - exists x. auto.
  - destruct (IH y) as (z & E & I). exists z. simpl in I. tauto.
Qed.

(** After an identifier the cursor is just behind a word character. *)
Lemma ident_last_word x w :
  ident_start x = true -> forallb ident_char w = true ->
  match last_opt w (Some x) with Some z => is_word z | None => false end = true.
Proof.
  intros Px Pw. destruct (last_opt_In w x) as (z & -> & [<-|I]).
  - apply ident_char_word, ident_start_char. assumption.
  - apply ident_char_word. rewrite forallb_forall in Pw. auto.
Qed.

Lemma is_upper_ident_start c : is_upper c = true -> ident_start c = true.
Proof. unfold ident_start. intros ->. reflexivity. Qed.

Lemma ident_char_not_nl c : ident_char c = true -> c <> nl.
Proof. intros H ->. vm_compute in H. discriminate. Qed.

Lemma is_upper_not_nl c : is_upper c = true -> c <> nl.
Proof. intros H ->. vm_compute in H. discriminate. Qed.

Lemma ident_char_code c : ident_char c = true -> 48 <= code c <= 122.
Proof.
  unfold ident_char, is_upper, is_lower, is_digit, is_underscore, in_range.
  rewrite !orb_true_iff, !andb_true_iff, !Nat.leb_le, Nat.eqb_eq. lia.
Qed.

Lemma ident_char_not_space c : ident_char c = true -> is_space c = false.
Proof.
  intros H. apply ident_char_code in H.
  unfold is_space, in_range. rewrite !orb_false_iff, !andb_false_iff, !Nat.leb_gt, !Nat.eqb_neq.
  lia.
Qed.

Lemma is_ident_cons s :
  is_ident s = true ->
  exists x w, s = x :: w /\ ident_start x = true /\ forallb ident_char w = true.
Proof.
  destruct s as [|x w]; [discriminate|]. simpl. intros H.
  apply andb_true_iff in H. destruct H. eauto.
Qed.

Lemma is_ident_chars s c : is_ident s = true -> In c s -> ident_char c = true.
Proof.
  intros H I. apply is_ident_cons in H. destruct H as (x & w & -> & Px & Pw).
  destruct I as [<-|I]; [apply ident_start_char; assumption|].
  rewrite forallb_forall in Pw. auto.
Qed.

Lemma is_ident_snoc s :
  is_ident s = true -> exists t z, s = t ++ [z] /\ ident_char z = true.
Proof.
  intros H. destruct (exists_last (l := s)) as (t & z & E).
  { destruct s; [discriminate | discriminate]. }
  exists t, z. split; [assumption|]. apply (@is_ident_chars _ _ H).
  rewrite E. apply in_or_app. right. left. reflexivity.
Qed.

Lemma contains_refl s : contains s s = true.
Proof. apply contains_spec. exists [], []. rewrite app_nil_r. reflexivity. Qed.

Lemma contains_trans a b c :
  contains a b = true -> contains b c = true -> contains a c = true.
Proof.
  rewrite !contains_spec. intros (x & y & ->) (u & v & ->).
  exists (u ++ x), (y ++ v). rewrite <- !app_assoc. reflexivity.
Qed.

Lemma lstrip_suffix s : exists w, s = w ++ lstrip s.
Proof.
  induction s as [|x t IH]; simpl.
  - exists []. reflexivity.
  - destruct (is_space x).
    + destruct IH as [w IH]. exists (x :: w). simpl. congruence.
    + exists []. reflexivity.
Qed.

Lemma rstrip_prefix s : exists w, s = rstrip s ++ w.
Proof.
  unfold rstrip. destruct (lstrip_suffix (rev s)) as [w H].
  exists (rev w). rewrite <- rev_app_distr, <- H, rev_involutive. reflexivity.
Qed.

Lemma contains_strip s : contains (strip s) s = true.
Proof.
  unfold strip. destruct (lstrip_suffix s) as [w1 H1].
  destruct (rstrip_prefix (lstrip s)) as [w2 H2].
  apply contains_spec. exists w1, w2. rewrite <- H2. assumption.
Qed.

Lemma lstrip_char_suffix ch s : exists w, s = w ++ lstrip_char ch s.
Proof.
  induction s as [|x t IH]; simpl.
  - exists []. reflexivity.
  - destruct (Ascii.eqb x ch).
    + destruct IH as [w IH]. exists (x :: w). simpl. congruence.
    + exists []. reflexivity.
Qed.

Lemma split1_head_prefix ch s : exists w, s = split1_head ch s ++ w.
Proof.
  induction s as [|x t IH]; simpl.
  - exists []. reflexivity.
  - destruct (Ascii.eqb x ch).
    + exists (x :: t). reflexivity.
    + destruct IH as [w IH]. exists w. simpl. congruence.
Qed.

Lemma split_aux_contains sep e : forall s skip cur,
  (skip = 0 \/ cur = []) ->
  In e (split_aux sep skip cur s) -> contains e (rev cur ++ s) = true.
Proof.
  induction s as [|x t IH]; intros skip cur Hs; simpl.
  - intros [<-|[]]. rewrite app_nil_r. apply contains_refl.
  - destruct skip as [|k].
    + destruct (startswith (x :: t) sep).
      * intros [<-|H].
        -- apply contains_spec. exists [], (x :: t). reflexivity.
        -- apply (IH _ [] (or_intror eq_refl)) in H. simpl in H.
           apply contains_spec in H. destruct H as (a & b & ->).
           apply contains_spec. exists (rev cur ++ x :: a), b.
           rewrite <- app_assoc. reflexivity.
      * intros H. apply (IH _ _ (or_introl eq_refl)) in H. simpl in H.
        rewrite <- app_assoc in H. exact H.
    + destruct Hs as [C| ->]; [discriminate|]. intros H.
      apply (IH _ [] (or_intror eq_refl)) in H. simpl in H.
      change (rev [] ++ x :: t) with (x :: t).
      apply contains_spec in H. destruct H as (a & b & ->).
      apply contains_spec. exists (x :: a), b. reflexivity.
Qed.

Lemma split_contains sep e s : In e (split sep s) -> contains e s = true.
Proof.
  intros H. apply (@split_aux_contains sep e s 0 [] (or_introl eq_refl)) in H. exact H.
Qed.

Lemma lstrip_ws_app w s : ws w = true -> lstrip (w ++ s) = lstrip s.
Proof.
  induction w as [|x w IH]; simpl; [reflexivity|].
  intros H. apply andb_true_iff in H. destruct H as [Hx Hw].
  rewrite Hx. auto.
Qed.

Lemma ws_rev w : ws (rev w) = ws w.
Proof.
  unfold ws. induction w as [|x w IH]; simpl; [reflexivity|].
  rewrite forallb_app, IH. simpl. rewrite andb_true_r. apply andb_comm.
Qed.

Lemma rstrip_app_ws s w : ws w = true -> rstrip (s ++ w) = rstrip s.
Proof.
  intros H. unfold rstrip. rewrite rev_app_distr, lstrip_ws_app; [reflexivity|].
  rewrite ws_rev. assumption.
Qed.

Lemma lstrip_nonspace x t : is_space x = false -> lstrip (x :: t) = x :: t.
Proof. simpl. intros ->. reflexivity. Qed.

Lemma rstrip_nonspace t x : is_space x = false -> rstrip (t ++ [x]) = t ++ [x].
Proof.
  intros H. unfold rstrip. rewrite rev_app_distr. simpl. rewrite H.
  simpl. rewrite rev_involutive. reflexivity.
Qed.

Lemma strip_nonspace x t y :
  is_space x = false -> is_space y = false ->
  strip (x :: t ++ [y]) = x :: t ++ [y].
Proof.
  intros Hx Hy. unfold strip. rewrite lstrip_nonspace by assumption.
  change (x :: t ++ [y]) with ((x :: t) ++ [y]). apply rstrip_nonspace. assumption.
Qed.

Lemma join_app sep (l1 l2 : list str) :
  l1 <> [] -> l2 <> [] -> join sep (l1 ++ l2) = join sep l1 ++ sep ++ join sep l2.
Proof.
  intros H1 H2. induction l1 as [|a l1 IH]; [congruence|].
  destruct l1 as [|b l1].
  - simpl. destruct l2; [congruence | reflexivity].
  - change (join sep ((a :: b :: l1) ++ l2)) with (a ++ sep ++ join sep ((b :: l1) ++ l2)).
    rewrite IH by discriminate.
    change (join sep (a :: b :: l1)) with (a ++ sep ++ join sep (b :: l1)).
    rewrite <- !app_assoc. reflexivity.
Qed.

Lemma strip_ident s : is_ident s = true -> strip s = s.
Proof.
  intros H. destruct (@is_ident_snoc _ H) as (t & z & E & Pz).
  destruct (@is_ident_cons _ H) as (x & w & E' & Px & _).
  unfold strip. rewrite E' at 1.
  rewrite lstrip_nonspace by (apply ident_char_not_space, ident_start_char; assumption).
  rewrite <- E', E. apply rstrip_nonspace, ident_char_not_space. assumption.
Qed.

Lemma split_aux_run sep c0 sep' w :
  sep = c0 :: sep' -> ~ In c0 w ->
  forall cur rest,
    split_aux sep 0 cur (w ++ rest) = split_aux sep 0 (rev w ++ cur) rest.
Proof.
  intros -> . induction w as [|x w IH]; intros Hn cur rest; [reflexivity|].
  cbn [app split_aux]. unfold startswith. cbn [strip_prefix].
  destruct (Ascii.eqb c0 x) eqn:E.
  - apply Ascii.eqb_eq in E. exfalso. apply Hn. left. auto.
  - rewrite IH by (intros I; apply Hn; right; assumption).
    simpl. rewrite <- app_assoc. reflexivity.
Qed.

Lemma split_aux_skip sep u : forall rest,
  split_aux sep (length u) [] (u ++ rest) = split_aux sep 0 [] rest.
Proof.
  induction u as [|x u IH]; intros rest; [reflexivity|].
  cbn [length app split_aux]. apply IH.
Qed.

Lemma split_aux_sep sep c0 sep' cur rest :
  sep = c0 :: sep' ->
  split_aux sep 0 cur (sep ++ rest) = rev cur :: split_aux sep 0 [] rest.
Proof.
  intros ->. cbn [app split_aux].
  assert (P : startswith (c0 :: sep' ++ rest) (c0 :: sep') = true).
  { apply startswith_spec. exists rest. reflexivity. }
  rewrite P. cbn [length].
  replace (S (length sep') - 1) with (length sep') by lia.
  rewrite split_aux_skip. reflexivity.
Qed.

Lemma split_aux_join sep c0 sep' :
  sep = c0 :: sep' ->
  forall ps p cur,
    (forall q, In q (p :: ps) -> ~ In c0 q) ->
    split_aux sep 0 cur (join sep (p :: ps)) = (rev cur ++ p) :: ps.
Proof.
  intros Es. induction ps as [|q ps IH]; intros p cur Hn.
  - cbn [join]. rewrite <- (app_nil_r p) at 1.
    rewrite (@split_aux_run _ _ _ _ Es) by (apply Hn; left; reflexivity).
    simpl. rewrite rev_app_distr, rev_involutive. reflexivity.
  - change (join sep (p :: q :: ps)) with (p ++ sep ++ join sep (q :: ps)).
    rewrite (@split_aux_run _ _ _ _ Es) by (apply Hn; left; reflexivity).
    rewrite (@split_aux_sep _ _ _ _ _ Es).
    rewrite rev_app_distr, rev_involutive.
    rewrite IH by (intros r Hr; apply Hn; right; assumption).
    reflexivity.
Qed.

Lemma split_join sep c0 sep' l :
  sep = c0 :: sep' -> l <> [] -> (forall q, In q l -> ~ In c0 q) ->
  split sep (join sep l) = l.
Proof.
  intros Es Hl Hn. destruct l as [|p ps]; [congruence|].
  unfold split. rewrite (@split_aux_join _ _ _ Es) by assumption. reflexivity.
Qed.

Lemma lstrip_app_nonspace w y r :
  is_space y = false -> lstrip (w ++ y :: r) = lstrip w ++ y :: r.
Proof.
  intros Hy. induction w as [|x w IH]; simpl.
  - rewrite Hy. reflexivity.
  - destruct (is_space x); [assumption | reflexivity].
Qed.

Lemma lstrip_In w c : In c (lstrip w) -> In c w.
Proof.
  destruct (lstrip_suffix w) as [u E]. intros H. rewrite E.
  apply in_or_app. right. assumption.
Qed.

Lemma In_join sep (l : list str) c :
  In c (join sep l) -> In c sep \/ exists p, In p l /\ In c p.
Proof.
  induction l as [|p l IH]; [intros []|].
  destruct l as [|q l].
  - simpl. intros H. right. exists p. auto.
  - change (join sep (p :: q :: l)) with (p ++ sep ++ join sep (q :: l)).
    intros H. apply in_app_or in H. destruct H as [H|H].
    + right. exists p. split; [left; reflexivity | assumption].
    + apply in_app_or in H. destruct H as [H|H]; [left; assumption|].
      destruct (IH H) as [H'|(r & H1 & H2)]; [left; assumption|].
      right. exists r. split; [right; assumption | assumption].
Qed.

Lemma join_sep_app a b p (ps : list str) :
  join (a ++ b) (p :: ps) = join a (p :: map (fun q => b ++ q) ps).
Proof.
  revert p. induction ps as [|q ps IH]; intros p; [reflexivity|].
  change (join (a ++ b) (p :: q :: ps)) with (p ++ (a ++ b) ++ join (a ++ b) (q :: ps)).
  rewrite IH. cbn [map].
  change (join a (p :: (b ++ q) :: map (fun q => b ++ q) ps))
    with (p ++ a ++ join a ((b ++ q) :: map (fun q => b ++ q) ps)).
  destruct ps as [|r ps]; cbn [map join]; rewrite <- ?app_assoc; reflexivity.
Qed.

Lemma split1_head_app ch a b :
  ~ In ch a -> split1_head ch (a ++ ch :: b) = a.
Proof.
  induction a as [|x a IH]; intros Hn; simpl.
  - rewrite Ascii.eqb_refl. reflexivity.
  - destruct (Ascii.eqb x ch) eqn:E.
    + apply Ascii.eqb_eq in E. exfalso. apply Hn. left. assumption.
    + rewrite IH; [reflexivity|]. intros I. apply Hn. right. assumption.
Qed.

Lemma rstrip_app_nonspace a y b :
  is_space y = false -> rstrip (a ++ y :: b) = a ++ y :: rstrip b.
Proof.
  intros Hy. unfold rstrip. rewrite rev_app_distr. cbn [rev].
  rewrite <- app_assoc. cbn [app]. rewrite lstrip_app_nonspace by assumption.
  rewrite rev_app_distr. cbn [rev]. rewrite rev_involutive, <- app_assoc. reflexivity.
Qed.

Lemma strip_keeps_prefix x a y b :
  is_space x = false -> is_space y = false ->
  strip (x :: a ++ y :: b) = x :: a ++ y :: rstrip b.
Proof.
  intros Hx Hy. unfold strip. rewrite lstrip_nonspace by assumption.
  change (x :: a ++ y :: b) with ((x :: a) ++ y :: b).
  apply rstrip_app_nonspace. assumption.
Qed.

Lemma strip_space_ident n : is_ident n = true -> strip (L " " ++ n) = n.
Proof.
  intros H. unfold strip. rewrite lstrip_ws_app by reflexivity.
  apply (@strip_ident _ H).
Qed.

Lemma contains_across_newline n a b :
  ~ In nl n -> n <> [] ->
  contains n (a ++ nl :: b) = true <-> contains n a = true \/ contains n b = true.
Proof.
  intros Hn Hne. rewrite !contains_spec. split.
  - intros (x & y & E). apply app_eq_app in E. destruct E as (l & [[E1 E2]|[E1 E2]]).
    + symmetry in E2. apply app_eq_app in E2. destruct E2 as (l' & [[E3 E4]|[E3 E4]]).
      * left. exists x, l'. subst. reflexivity.
      * destruct l' as [|c l'].
        -- left. exists x, []. subst. rewrite !app_nil_r. reflexivity.
        -- injection E4 as <- _. exfalso. apply Hn. rewrite E3.
           apply in_or_app. right. left. reflexivity.
    + destruct l as [|c l].
      * simpl in E2. destruct n as [|c n]; [congruence|].
        injection E2 as <- _. exfalso. apply Hn. left. reflexivity.
      * injection E2 as _ E2. right. exists l, y. assumption.
  - intros [(x & y & ->)|(x & y & ->)].
    + exists x, (y ++ nl :: b). rewrite <- !app_assoc. reflexivity.
    + exists (a ++ nl :: x), y. rewrite <- app_assoc. reflexivity.
Qed.

Lemma contains_nil_false n : n <> [] -> contains n [] = false.
Proof.
  intros H. destruct (contains n []) eqn:C; [|reflexivity].
  apply contains_spec in C. destruct C as (a & b & E).
  destruct a; [destruct n; [congruence | discriminate] | discriminate].
Qed.

Lemma filter_length_le (A : Type) (f : A -> bool) l : length (filter f l) <= length l.
Proof. induction l as [|x t IH]; simpl; [lia|]. destruct (f x); simpl; lia. Qed.

End TextFacts.

(** ** The order of [sorted] *)

Module OrderFacts.
Import Py PyFacts Chars.

Lemma code_inj a b : code a = code b -> a = b.
Proof.
  unfold code. intros H.
  rewrite <- (ascii_nat_embedding a), <- (ascii_nat_embedding b), H. reflexivity.
Qed.

Lemma str_leb_refl a : str_leb a a = true.
Proof.
  induction a as [|x a IH]; simpl; [reflexivity|].
  rewrite Nat.ltb_irrefl. assumption.
Qed.

Lemma str_leb_total a b : str_leb a b = true \/ str_leb b a = true.
Proof.
  revert b. induction a as [|x a IH]; intros [|y b]; simpl; auto.
  destruct (code x <? code y) eqn:L1; [auto|].
  destruct (code y <? code x) eqn:L2; [auto|]. apply IH.
Qed.

Lemma str_leb_antisym a b : str_leb a b = true -> str_leb b a = true -> a = b.
Proof.
  revert b. induction a as [|x a IH]; intros [|y b]; simpl; try discriminate; auto.
  destruct (code x <? code y) eqn:L1.
  - apply Nat.ltb_lt in L1.
    assert (L2 : (code y <? code x) = false) by (apply Nat.ltb_ge; lia).
    rewrite L2. discriminate.
  - destruct (code y <? code x) eqn:L2; [discriminate|].
    apply Nat.ltb_ge in L1, L2. intros H1 H2.
    assert (E : code x = code y) by lia. apply code_inj in E. subst.
    f_equal. auto.
Qed.

Lemma str_leb_trans a b c :
  str_leb a b = true -> str_leb b c = true -> str_leb a c = true.
Proof.
  revert b c. induction a as [|x a IH]; intros [|y b] [|z c]; simpl;
    try discriminate; auto.
  destruct (code x <? code y) eqn:L1; destruct (code y <? code z) eqn:L2;
    destruct (code y <? code x) eqn:L3; destruct (code z <? code y) eqn:L4;
    destruct (code x <? code z) eqn:L5; destruct (code z <? code x) eqn:L6;
    try discriminate; auto;
    repeat match goal with
           | H : (_ <? _) = true |- _ => apply Nat.ltb_lt in H
           | H : (_ <? _) = false |- _ => apply Nat.ltb_ge in H
           end; try lia.
  apply IH.
Qed.

Lemma pair_leb_refl x : pair_leb x x = true.
Proof. unfold pair_leb. rewrite str_eqb_refl. apply str_leb_refl. Qed.

Lemma pair_leb_total x y : pair_leb x y = true \/ pair_leb y x = true.
Proof.
  unfold pair_leb. destruct (str_eqb (fst x) (fst y)) eqn:E.
  - apply str_eqb_eq in E. rewrite E, str_eqb_refl. apply str_leb_total.
  - assert (E' : str_eqb (fst y) (fst x) = false).
    { apply str_eqb_neq. apply str_eqb_neq in E. congruence. }
    rewrite E'. apply str_leb_total.
Qed.

Lemma pair_leb_trans x y z :
  pair_leb x y = true -> pair_leb y z = true -> pair_leb x z = true.
Proof.
  unfold pair_leb.
  destruct (str_eqb (fst x) (fst y)) eqn:E1; destruct (str_eqb (fst y) (fst z)) eqn:E2;
    destruct (str_eqb (fst x) (fst z)) eqn:E3;
    repeat match goal with
           | H : str_eqb _ _ = true |- _ => apply str_eqb_eq in H
           | H : str_eqb _ _ = false |- _ => apply str_eqb_neq in H
           end; intros H1 H2.
  - eapply str_leb_trans; eauto.
  - congruence.
  - congruence.
  - rewrite E1. assumption.
  - congruence.
  - rewrite <- E2. assumption.
  - exfalso. apply E1. apply str_leb_antisym; [assumption|]. rewrite E3. assumption.
  - eapply str_leb_trans; eauto.
Qed.

Section SortedFacts.
Variable A : Type.
Variable leb : A -> A -> bool.
Hypothesis leb_total : forall x y, leb x y = true \/ leb y x = true.
Hypothesis leb_trans : forall x y z, leb x y = true -> leb y z = true -> leb x z = true.

Lemma insert_sorted_StronglySorted x l :
  StronglySorted (fun a b => leb a b = true) l ->
  StronglySorted (fun a b => leb a b = true) (insert_sorted leb x l).
Proof.
  induction l as [|y t IH]; intros Hs; simpl.
  - constructor; constructor.
  - inversion Hs as [|? ? Ht Hy]; subst.
    destruct (leb x y) eqn:L.
    + constructor; [assumption|]. constructor; [assumption|].
      rewrite Forall_forall in *. intros z Hz. eapply leb_trans; eauto.
    + constructor; [auto|]. rewrite Forall_forall in *. intros z Hz.
      apply In_insert_sorted in Hz. destruct Hz as [->|Hz]; [|auto].
      destruct (leb_total x y) as [C|C]; [congruence | assumption].
Qed.

Lemma sorted_StronglySorted l :
  StronglySorted (fun a b => leb a b = true) (sorted leb l).
Proof.
  induction l as [|x t IH]; simpl; [constructor|].
  apply insert_sorted_StronglySorted. assumption.
Qed.
End SortedFacts.

Lemma sorted_set_nil_inv l : sorted_set l = [] -> l = [].
Proof.
  intros H. destruct l as [|x t]; [reflexivity|].
  assert (I : In x (sorted_set (x :: t))) by (apply In_sorted_set; left; reflexivity).
  rewrite H in I. destruct I.
Qed.

Lemma sorted_set_StronglySorted l :
  StronglySorted (fun a b => str_leb a b = true) (sorted_set l).
Proof. apply sorted_StronglySorted; [apply str_leb_total | apply str_leb_trans]. Qed.

End OrderFacts.

(** ** Dictionaries *)

Module DictFacts.
Import Py Re PyFacts Inventory Chars Shapes OrderFacts.

Lemma lookup_In_keys (V : Type) (d : dict V) k :
  In k (keys d) <-> exists v, lookup d k = Some v.
Proof.
  induction d as [|[k' v'] t IH]; simpl.
  - split; [contradiction | intros (v & H); discriminate].
  - destruct (str_eqb k k') eqn:E.
    + apply str_eqb_eq in E. subst. split; eauto.
    + apply str_eqb_neq in E. unfold keys in IH. rewrite IH. split.
      * intros [H|H]; [congruence | assumption].
      * auto.
Qed.

Lemma lookup_In (V : Type) (d : dict V) k v :
  lookup d k = Some v -> In (k, v) d.
Proof.
  induction d as [|[k' v'] t IH]; simpl; [discriminate|].
  destruct (str_eqb k k') eqn:E.
  - apply str_eqb_eq in E. subst. intros H. injection H as ->. auto.
  - auto.
Qed.

Lemma lookup_setdefault (V : Type) (d : dict V) k v k0 :
  lookup (setdefault d k v) k0 =
  match lookup d k0 with
  | Some v0 => Some v0
  | None => if str_eqb k0 k then Some v else None
  end.
Proof.
  induction d as [|[k' v'] t IH]; simpl.
  - reflexivity.
  - destruct (str_eqb k k') eqn:E; simpl.
    + destruct (str_eqb k0 k') eqn:E0; [reflexivity|].
      destruct (lookup t k0); [reflexivity|].
      apply str_eqb_eq in E. subst. rewrite E0. reflexivity.
    + destruct (str_eqb k0 k'); [reflexivity | apply IH].
Qed.

Lemma keys_setdefault (V : Type) (d : dict V) k v :
  keys (setdefault d k v) = if mem k (keys d) then keys d else keys d ++ [k].
Proof.
  induction d as [|[k' v'] t IH]; simpl; [reflexivity|].
  destruct (str_eqb k k') eqn:E; simpl; [reflexivity|].
  unfold keys in *. rewrite IH. unfold mem. destruct (existsb _ _); reflexivity.
Qed.

Lemma NoDup_keys_setdefault (V : Type) (d : dict V) k v :
  NoDup (keys d) -> NoDup (keys (setdefault d k v)).
Proof.
  intros H. rewrite keys_setdefault. destruct (mem k (keys d)) eqn:M; [assumption|].
  apply NoDup_app; [assumption | repeat constructor; simpl; tauto |].
  intros x Hx [<-|[]]. apply mem_In in Hx. congruence.
Qed.

Lemma lookup_fold_setdefault (l : list PubItem) : forall d n,
  lookup (fold_left (fun indexed it => setdefault indexed (name it) it) l d) n =
  match lookup d n with
  | Some v => Some v
  | None => List.find (fun it => str_eqb n (name it)) l
  end.
Proof.
  induction l as [|x l IH]; intros d n; simpl.
  - destruct (lookup d n); reflexivity.
  - rewrite IH, lookup_setdefault. destruct (lookup d n); [reflexivity|].
    destruct (str_eqb n (name x)); reflexivity.
Qed.

Lemma NoDup_keys_fold_setdefault (l : list PubItem) : forall d,
  NoDup (keys d) ->
  NoDup (keys (fold_left (fun indexed it => setdefault indexed (name it) it) l d)).
Proof.
  induction l as [|x l IH]; intros d H; simpl; [assumption|].
  apply IH. apply NoDup_keys_setdefault. assumption.
Qed.

(** In a list sorted by name and path, the first item of a name has the
    least path among the items of that name. *)
Lemma find_sorted_least (l : list PubItem) n it :
  StronglySorted (fun a b => item_leb a b = true) l ->
  List.find (fun it => str_eqb n (name it)) l = Some it ->
  In it l /\ name it = n
  /\ forall it', In it' l -> name it' = n ->
                 str_leb (rel_path it) (rel_path it') = true.
Proof.
  induction l as [|x l IH]; intros Hs Hf; simpl in Hf; [discriminate|].
  inversion Hs as [|? ? Hl Hx]; subst.
  destruct (str_eqb n (name x)) eqn:E.
  - injection Hf as <-. apply str_eqb_eq in E. subst n.
    split; [left; reflexivity|]. split; [reflexivity|].
    intros it' [<-|Hi] Hn; [apply str_leb_refl|].
    rewrite Forall_forall in Hx. specialize (Hx it' Hi).
    unfold item_leb, pair_leb in Hx. cbn [fst snd] in Hx.
    rewrite Hn, str_eqb_refl in Hx. assumption.
  - destruct (IH Hl Hf) as (Hi & Hn & Hmin).
    split; [right; assumption|]. split; [assumption|].
    intros it' [<-|Hi'] Hn'; [|auto].
    apply str_eqb_neq in E. congruence.
Qed.

Lemma get_setdefault_append d k v x p :
  In p (get (setdefault_append d k v) x) <-> In p (get d x) \/ (x = k /\ p = v).
Proof.
  unfold get. induction d as [|[k' vs] t IH]; simpl.
  - destruct (str_eqb x k) eqn:E.
    + apply str_eqb_eq in E. subst. simpl. intuition.
    + apply str_eqb_neq in E. simpl. intuition.
  - destruct (str_eqb k k') eqn:E; simpl.
    + apply str_eqb_eq in E. subst k'.
      destruct (str_eqb x k) eqn:E1.
      * apply str_eqb_eq in E1. subst. rewrite in_app_iff. simpl. intuition.
      * apply str_eqb_neq in E1. intuition.
    + destruct (str_eqb x k') eqn:E1.
      * apply str_eqb_eq in E1. subst k'. apply str_eqb_neq in E.
        split; [auto|]. intros [H|[H _]]; [assumption | congruence].
      * exact IH.
Qed.

Lemma In_keys_setdefault_append d k v x :
  In x (keys (setdefault_append d k v)) <-> x = k \/ In x (keys d).
Proof.
  induction d as [|[k' vs] t IH]; simpl.
  - intuition.
  - destruct (str_eqb k k') eqn:E; simpl.
    + apply str_eqb_eq in E. subst. intuition.
    + unfold keys in IH. rewrite IH. intuition.
Qed.

Lemma NoDup_keys_setdefault_append d k v :
  NoDup (keys d) -> NoDup (keys (setdefault_append d k v)).
Proof.
  induction d as [|[k' vs] t IH]; simpl; intros H.
  - repeat constructor. simpl. tauto.
  - destruct (str_eqb k k') eqn:E; simpl; [assumption|].
    inversion H as [|? ? Hn Ht]; subst. constructor; [|auto].
    fold (keys (setdefault_append t k v)). rewrite In_keys_setdefault_append.
    apply str_eqb_neq in E. intros [->|C]; [congruence | contradiction].
Qed.

Lemma nonempty_setdefault_append d k v :
  Forall (fun kv => snd kv <> []) d ->
  Forall (fun kv : str * list str => snd kv <> []) (setdefault_append d k v).
Proof.
  induction d as [|[k' vs] t IH]; simpl; intros H.
  - repeat constructor. simpl. discriminate.
  - inversion H as [|? ? H1 H2]; subst.
    destruct (str_eqb k k'); constructor; auto.
    simpl. destruct vs; discriminate.
Qed.

Lemma dict_ok_nil : dict_ok [].
Proof. split; constructor. Qed.

Lemma dict_ok_setdefault_append d k v : dict_ok d -> dict_ok (setdefault_append d k v).
Proof.
  intros [H1 H2]. split;
    [apply NoDup_keys_setdefault_append | apply nonempty_setdefault_append]; assumption.
Qed.

Lemma lookup_map_values (h : list str -> list str) (d : dict (list str)) k :
  lookup (map (fun kv => (fst kv, h (snd kv))) d) k
  = match lookup d k with Some v => Some (h v) | None => None end.
Proof.
  induction d as [|[k' v'] t IH]; simpl; [reflexivity|].
  destruct (str_eqb k k'); [reflexivity | assumption].
Qed.

Lemma fold_matches_get (g : cursor -> str) (path : str) cs : forall out x p,
  In p (get (fold_left (fun out c => setdefault_append out (g c) path) cs out) x)
  <-> In p (get out x) \/ (p = path /\ exists c, In c cs /\ g c = x).
Proof.
  induction cs as [|c cs IH]; intros out x p; simpl.
  - split; [auto|]. intros [H|(_ & c & [] & _)]. assumption.
  - rewrite IH, get_setdefault_append. split.
    + intros [[H|[-> ->]]|(-> & c' & H1 & H2)]; eauto 8.
    + intros [H|(-> & c' & [->|H1] & H2)]; eauto 8.
Qed.

Lemma dict_ok_fold_append (g : cursor -> str) (path : str) cs : forall out,
  dict_ok out ->
  dict_ok (fold_left (fun out c => setdefault_append out (g c) path) cs out).
Proof.
  induction cs as [|c cs IH]; intros out H; simpl; [assumption|].
  apply IH, dict_ok_setdefault_append. assumption.
Qed.

Lemma In_keys_get (d : dict (list str)) x :
  dict_ok d -> (In x (keys d) <-> exists p, In p (get d x)).
Proof.
  intros [_ Hne]. rewrite lookup_In_keys. unfold get. split.
  - intros (v & Hv). rewrite Hv. destruct v as [|p v]; [|exists p; left; reflexivity].
    apply lookup_In in Hv. rewrite Forall_forall in Hne.
    destruct (Hne _ Hv). reflexivity.
  - intros (p & Hp). destruct (lookup d x) as [v|]; [eauto | destruct Hp].
Qed.

End DictFacts.

(** ** What the matches of the patterns consist of *)

Module MatchFacts.
Import Py Re PyFacts ReFacts Inventory Chars ScannerFacts Payloads Shapes TextFacts.

Lemma m_Lit_inv s k c a :
  m (Lit s) k c = Some a ->
  exists r', rest c = s ++ r'
             /\ k (mkCur (last_opt s (prev c)) r' (groups c)) = Some a.
Proof.
  cbn [m]. destruct (strip_prefix s (rest c)) as [r'|] eqn:P; [|discriminate].
  apply strip_prefix_Some in P. intros H. exists r'. auto.
Qed.

Lemma m_Cls_inv p k c a :
  m (Cls p) k c = Some a ->
  exists x r', rest c = x :: r' /\ p x = true
               /\ k (mkCur (Some x) r' (groups c)) = Some a.
Proof.
  cbn [m]. destruct (rest c) as [|x t]; [discriminate|].
  destruct (p x) eqn:Px; [|discriminate]. intros H. exists x, t. auto.
Qed.

Lemma m_StarG_inv p k c a :
  m (StarG p) k c = Some a ->
  exists w r', rest c = w ++ r' /\ forallb p w = true
               /\ k (mkCur (last_opt w (prev c)) r' (groups c)) = Some a
               /\ (forall w' r'', rest c = w' ++ r'' -> forallb p w' = true ->
                                  length w < length w' ->
                                  k (mkCur (last_opt w' (prev c)) r'' (groups c)) = None).
Proof. cbn [m]. intros H. apply star_greedy_Some in H. exact H. Qed.

Lemma m_Plus_inv p k c a :
  m (Plus p) k c = Some a ->
  exists x w r', rest c = x :: w ++ r' /\ p x = true /\ forallb p w = true
                 /\ k (mkCur (last_opt w (Some x)) r' (groups c)) = Some a.
Proof.
  unfold Plus. rewrite m_Cat. intros H. apply m_Cls_inv in H.
  destruct H as (x & r1 & E1 & Px & H). apply m_StarG_inv in H.
  cbn [prev rest groups] in H. destruct H as (w & r' & E2 & Pw & H & _).
  exists x, w, r'. subst r1. auto.
Qed.

Lemma m_Bol_inv k c a : m Bol k c = Some a -> bol (prev c) = true /\ k c = Some a.
Proof. cbn [m]. unfold at_bol. destruct (bol (prev c)); [auto | discriminate]. Qed.

Lemma m_WordB_inv k c a :
  m WordB k c = Some a -> at_word_boundary c = true /\ k c = Some a.
Proof. cbn [m]. destruct (at_word_boundary c); [auto | discriminate]. Qed.

(** A group around a literal captures the literal. *)
Lemma m_Grp_Lit_inv n s k c a :
  m (Grp n (Lit s)) k c = Some a ->
  exists r', rest c = s ++ r'
             /\ k (mkCur (last_opt s (prev c)) r' ((n, s) :: groups c)) = Some a.
Proof.
  cbn [m]. destruct (strip_prefix s (rest c)) as [r'|] eqn:P; [|discriminate].
  apply strip_prefix_Some in P. intros H. exists r'. split; [assumption|].
  unfold set_group, after in H. cbn [prev rest groups] in H.
  rewrite P, firstn_app_exact in H. assumption.
Qed.

Lemma m_Grp_Alt r1 r2 n k c :
  m (Grp n (Alt r1 r2)) k c =
  match m (Grp n r1) k c with
  | Some a => Some a
  | None => m (Grp n r2) k c
  end.
Proof. reflexivity. Qed.

(** The text a pattern consumes lies between the two cursors. *)
Lemma m_consumed r : forall k c a,
  m r k c = Some a ->
  exists w c', rest c = w ++ rest c' /\ prev c' = last_opt w (prev c)
               /\ k c' = Some a.
Proof.
  induction r as [s|p|p|p| | | |r1 IH1 r2 IH2|r1 IH1 r2 IH2|n r IH];
    intros k c a H.
  - apply m_Lit_inv in H. destruct H as (r' & E & H).
    exists s, (mkCur (last_opt s (prev c)) r' (groups c)). auto.
  - apply m_Cls_inv in H. destruct H as (x & r' & E & _ & H).
    exists [x], (mkCur (Some x) r' (groups c)). auto.
  - apply m_StarG_inv in H. destruct H as (w & r' & E & _ & H & _).
    exists w, (mkCur (last_opt w (prev c)) r' (groups c)). auto.
  - cbn [m] in H. apply star_lazy_Some in H. destruct H as (w & r' & E & _ & H & _).
    exists w, (mkCur (last_opt w (prev c)) r' (groups c)). auto.
  - cbn [m] in H. destruct (at_bol c); [|discriminate]. exists [], c. auto.
  - cbn [m] in H. destruct (at_eol c); [|discriminate]. exists [], c. auto.
  - cbn [m] in H. destruct (at_word_boundary c); [|discriminate]. exists [], c. auto.
  - rewrite m_Cat in H. apply IH1 in H. destruct H as (w1 & c1 & E1 & P1 & H).
    apply IH2 in H. destruct H as (w2 & c2 & E2 & P2 & H).
    exists (w1 ++ w2), c2. rewrite E1, E2, P2, P1, last_opt_app, app_assoc. auto.
  - cbn [m] in H. destruct (m r1 k c) eqn:M1.
    + injection H as <-. apply IH1 in M1. assumption.
    + apply IH2 in H. assumption.
  - cbn [m] in H. apply IH in H. destruct H as (w & c' & E & P & H).
    exists w, (set_group n c c'). auto.
Qed.

(** Every element of [finditer] ends a match that starts somewhere in the
    text, at a cursor without groups. *)
Lemma finditer_from_located fuel r whole : forall pre s c,
  whole = pre ++ s ->
  In c (finditer_from fuel r (last_opt pre None) s) ->
  exists pre2 r0, whole = pre2 ++ r0
                  /\ match_at r (mkCur (last_opt pre2 None) r0 []) = Some c.
Proof.
  induction fuel as [|fuel IH]; intros pre s c Ew H; simpl in H; [contradiction|].
  destruct (search_from r (last_opt pre None) s) as [[sk c']|] eqn:Sr; [|contradiction].
  apply search_from_Some in Sr. destruct Sr as (r0 & Es & M & _).
  rewrite <- last_opt_app in M.
  destruct H as [<-|H].
  - exists (pre ++ sk), r0. subst. rewrite <- app_assoc. auto.
  - pose proof M as M'. unfold match_at in M'. apply m_consumed in M'.
    destruct M' as (w & c2 & Ec & Pc & Hc). injection Hc as ->.
    cbn [prev rest] in Ec, Pc. rewrite <- last_opt_app in Pc.
    destruct (length (rest c') + length sk <? length s).
    + rewrite Pc in H. apply (IH ((pre ++ sk) ++ w) (rest c') c); [|assumption].
      subst. rewrite <- !app_assoc. reflexivity.
    + destruct (rest c') as [|x t] eqn:Rc; [contradiction|].
      apply (IH (((pre ++ sk) ++ w) ++ [x]) t c).
      * subst. rewrite <- !app_assoc. reflexivity.
      * rewrite last_opt_app. exact H.
Qed.

Lemma finditer_located r whole c :
  In c (finditer r whole) ->
  exists pre r0, whole = pre ++ r0
                 /\ match_at r (mkCur (last_opt pre None) r0 []) = Some c.
Proof.
  unfold finditer. intros H.
  apply (@finditer_from_located _ r whole [] whole c eq_refl H).
Qed.

(** What a match of the declaration pattern consists of. *)
Lemma PUB_DECL_RE_inv pv s a :
  match_at PUB_DECL_RE (mkCur pv s []) = Some a ->
  bol pv = true /\
  exists w0 w1 kd w2 x w r',
    s = w0 ++ L "pub" ++ w1 ++ kd ++ w2 ++ (x :: w) ++ r'
    /\ ws w0 = true /\ ws w1 = true /\ w1 <> []
    /\ In kd [L "trait"; L "struct"; L "enum"; L "type"]
    /\ ws w2 = true /\ w2 <> []
    /\ ident_start x = true /\ forallb ident_char w = true
    /\ match r' with [] => true | y :: _ => negb (is_word y) end = true
    /\ groups a = [(2, x :: w); (1, kd)] /\ rest a = r'.
Proof.
  unfold match_at, PUB_DECL_RE. cbn [seq]. intros H.
  rewrite m_Cat in H. apply m_Bol_inv in H. destruct H as (B & H).
  split; [exact B|].
  rewrite m_Cat in H. apply m_StarG_inv in H. cbn [prev rest groups] in H.
  destruct H as (w0 & r0 & E0 & W0 & H & _).
  rewrite m_Cat in H. apply m_Lit_inv in H. cbn [prev rest groups] in H.
  destruct H as (r1 & E1 & H).
  rewrite m_Cat in H. apply m_Plus_inv in H. cbn [prev rest groups] in H.
  destruct H as (x1 & w1 & r2 & E2 & Px1 & Pw1 & H).
  rewrite m_Cat in H.
  assert (Hk : exists kd r3,
             In kd [L "trait"; L "struct"; L "enum"; L "type"]
             /\ r2 = kd ++ r3
             /\ m (Cat (Plus is_space)
                       (Cat (Grp 2 (Cat (Cls ident_start) (StarG ident_char))) WordB))
                  Some (mkCur (last_opt kd (last_opt w1 (Some x1))) r3 [(1, kd)])
                = Some a).
  { rewrite !m_Grp_Alt in H.
    destruct (m (Grp 1 (Lit (L "trait"))) _ _) eqn:A1.
    { injection H as ->. apply m_Grp_Lit_inv in A1. destruct A1 as (r3 & E3 & A1).
      exists (L "trait"), r3. simpl In. auto. }
    destruct (m (Grp 1 (Lit (L "struct"))) _ _) eqn:A2.
    { injection H as ->. apply m_Grp_Lit_inv in A2. destruct A2 as (r3 & E3 & A2).
      exists (L "struct"), r3. simpl In. auto. }
    destruct (m (Grp 1 (Lit (L "enum"))) _ _) eqn:A3.
    { injection H as ->. apply m_Grp_Lit_inv in A3. destruct A3 as (r3 & E3 & A3).
      exists (L "enum"), r3. simpl In. auto. }
    apply m_Grp_Lit_inv in H. destruct H as (r3 & E3 & H).
    exists (L "type"), r3. simpl In. auto 6. }
  clear H. destruct Hk as (kd & r3 & Hkd & E3 & H).
  rewrite m_Cat in H. apply m_Plus_inv in H. cbn [prev rest groups] in H.
  destruct H as (x2 & w2 & r4 & E4 & Px2 & Pw2 & H).
  rewrite m_Cat in H. apply m_ident_group in H. cbn [prev rest groups] in H.
  destruct H as (x & w & r' & E5 & Px & Pw & H).
  apply m_WordB_inv in H. destruct H as (X & H).
  unfold at_word_boundary in X. cbn [prev rest] in X.
  rewrite (ident_last_word x w Px Pw) in X.
  injection H as <-.
  exists w0, (x1 :: w1), kd, (x2 :: w2), x, w, r'.
  subst. cbn [groups rest]. repeat split; auto.
  - simpl. rewrite Px1. assumption.
  - discriminate.
  - simpl. rewrite Px2. assumption.
  - discriminate.
  - destruct r' as [|y r']; [reflexivity|]. simpl in X. assumption.
Qed.

Lemma VARIANT_RE_inv pv s a :
  match_at VARIANT_RE (mkCur pv s []) = Some a ->
  bol pv = true /\
  exists w4 x w r',
    s = w4 ++ (x :: w) ++ r'
    /\ length w4 = 4 /\ ws w4 = true
    /\ is_upper x = true /\ forallb ident_char w = true
    /\ ends_word r' = true
    /\ groups a = [(1, x :: w)].
Proof.
  unfold match_at, VARIANT_RE. cbn [seq Rep]. intros H.
  rewrite m_Cat in H. apply m_Bol_inv in H. destruct H as (B & H).
  split; [exact B|].
  rewrite !m_Cat in H.
  apply m_Cls_inv in H. cbn [prev rest groups] in H. destruct H as (a1 & r1 & E1 & P1 & H).
  rewrite m_Cat in H.
  apply m_Cls_inv in H. cbn [prev rest groups] in H. destruct H as (a2 & r2 & E2 & P2 & H).
  rewrite m_Cat in H.
  apply m_Cls_inv in H. cbn [prev rest groups] in H. destruct H as (a3 & r3 & E3 & P3 & H).
  apply m_Cls_inv in H. cbn [prev rest groups] in H. destruct H as (a4 & r4 & E4 & P4 & H).
  rewrite m_Cat in H.
  apply m_ident_group in H. cbn [prev rest groups] in H.
  destruct H as (x & w & r' & E5 & Px & Pw & H).
  apply m_WordB_inv in H. destruct H as (X & H).
  unfold at_word_boundary in X. cbn [prev rest] in X.
  rewrite (ident_last_word x w (is_upper_ident_start x Px) Pw) in X.
  injection H as <-.
  exists [a1; a2; a3; a4], x, w, r'. subst. cbn [groups].
  repeat split; auto.
  - simpl. rewrite P1, P2, P3, P4. reflexivity.
  - destruct r' as [|y r']; [reflexivity|]. simpl in X. assumption.
Qed.

Lemma INBOUND_PATH_USE_RE_inv pv s a :
  match_at INBOUND_PATH_USE_RE (mkCur pv s []) = Some a ->
  exists crate tail r',
    s = L "wrldbldr_" ++ crate ++ L "_ports::inbound::" ++ tail ++ r'
    /\ (crate = L "engine" \/ crate = L "player")
    /\ tail <> [] /\ forallb inbound_tail_char tail = true
    /\ group 2 (groups a) = tail.
Proof.
  unfold match_at, INBOUND_PATH_USE_RE. cbn [seq]. intros H.
  rewrite m_Cat in H. apply m_Lit_inv in H. cbn [prev rest groups] in H.
  destruct H as (r1 & E1 & H).
  rewrite m_Cat in H.
  assert (Hk : exists crate r2,
             (crate = L "engine" \/ crate = L "player")
             /\ r1 = crate ++ r2
             /\ m (Cat (Lit (L "_ports::inbound::")) (Grp 2 (Plus inbound_tail_char)))
                  Some (mkCur (last_opt crate (last_opt (L "wrldbldr_") pv)) r2
                              [(1, crate)])
                = Some a).
  { rewrite m_Grp_Alt in H.
    destruct (m (Grp 1 (Lit (L "engine"))) _ _) eqn:A1.
    { injection H as ->. apply m_Grp_Lit_inv in A1. destruct A1 as (r2 & E2 & A1).
      exists (L "engine"), r2. auto. }
    apply m_Grp_Lit_inv in H. destruct H as (r2 & E2 & H).
    exists (L "player"), r2. auto. }
  destruct Hk as (crate & r2 & Hc & E2 & K).
  rewrite m_Cat in K. apply m_Lit_inv in K. cbn [prev rest groups] in K.
  destruct K as (r3 & E3 & K).
  unfold Plus in K. apply m_ident_group in K. cbn [prev rest groups] in K.
  destruct K as (x & w & r' & E4 & Px & Pw & K). injection K as <-.
  exists crate, (x :: w), r'. cbn [groups group Nat.eqb].
  subst. repeat split; auto.
  - discriminate.
  - simpl. rewrite Px, Pw. reflexivity.
Qed.

Lemma fullmatch_IDENT_RE s : fullmatch IDENT_RE s = true -> is_ident s = true.
Proof.
  unfold fullmatch, IDENT_RE.
  destruct (m _ _ _) as [a|] eqn:M; [|discriminate]. intros _.
  rewrite m_Cat in M. apply m_Cls_inv in M. cbn [prev rest groups] in M.
  destruct M as (x & r & -> & Px & M). apply m_StarG_inv in M.
  cbn [prev rest groups] in M. destruct M as (w & r' & -> & Pw & M & _).
  destruct r' as [|y r']; [|discriminate]. rewrite app_nil_r.
  simpl. rewrite Px, Pw. reflexivity.
Qed.

Lemma m_IDENT_RE_full s :
  is_ident s = true -> fullmatch IDENT_RE s = true.
Proof.
  intros H. apply is_ident_cons in H. destruct H as (x & w & -> & Px & Pw).
  unfold fullmatch, IDENT_RE. rewrite m_Cat. cbn [m rest]. rewrite Px.
  unfold after. cbn [prev rest groups last_opt].
  match goal with |- match ?e with _ => _ end = true =>
    assert (E : e = Some (mkCur (last_opt w (Some x)) [] [])) end.
  { apply star_greedy_Some. exists w, []. rewrite app_nil_r.
    repeat split; auto.
    intros w' r'' E _ Hl. apply (f_equal (@length _)) in E.
    rewrite length_app in E. lia. }
  rewrite E. reflexivity.
Qed.

End MatchFacts.

(** ** Loops that can raise *)

Module LoopFacts.
Import Py PyFacts.

Lemma bind_Ok (A B : Type) (r : result A) (k : A -> result B) (b : B) :
  bind r k = Ok b <-> exists a, r = Ok a /\ k a = Ok b.
Proof.
  destruct r as [a|e]; simpl.
  - split; [eauto|]. intros (a' & H & K). congruence.
  - split; [discriminate|]. intros (a' & H & _). discriminate.
Qed.


(** What holds before a loop and is kept by every step that returns holds
    after a loop that returns. *)
Lemma for_each_inv (A S : Type) (P : S -> Prop) (body : S -> A -> result S)
  (l : list A) : forall s s',
  P s ->
  (forall s x s1, In x l -> P s -> body s x = Ok s1 -> P s1) ->
  for_each l body s = Ok s' -> P s'.
Proof.
  induction l as [|x t IH]; intros s s' Hs Hstep H; simpl in H.
  - congruence.
  - apply bind_Ok in H. destruct H as (s1 & H1 & H2).
    apply (IH s1 s'); auto.
    + apply (Hstep s x s1); simpl; auto.
    + intros s0 y s2 Hy. apply Hstep. simpl. auto.
Qed.


(** A loop whose steps all return is a fold. *)
Lemma for_each_pure (A S : Type) (step : S -> A -> S) (l : list A) : forall s,
  for_each l (fun s x => Ok (step s x)) s = Ok (fold_left step l s).
Proof. induction l as [|x t IH]; intros s; simpl; auto. Qed.

Lemma for_each_ext (A S : Type) (body body' : S -> A -> result S) (l : list A) :
  (forall s x, In x l -> body s x = body' s x) ->
  forall s, for_each l body s = for_each l body' s.
Proof.
  induction l as [|x t IH]; intros H s; simpl; [reflexivity|].
  rewrite (H s x) by (simpl; auto).
  destruct (body' s x) as [s1|e]; simpl; [|reflexivity].
  apply IH. intros s0 y Hy. apply H. simpl. auto.
Qed.

(** A loop that asks for the same value at every step asks for it once,
    if it has a step at all. *)
Lemma for_each_asking (A S V : Type) (r : result V) (step : S -> A -> V -> S)
  (l : list A) (s : S) :
  for_each l (fun s x => v <- r ;; Ok (step s x v)) s
  = match l with
    | [] => Ok s
    | _ :: _ => v <- r ;; Ok (fold_left (fun s x => step s x v) l s)
    end.
Proof.
  destruct l as [|x t]; [reflexivity|].
  destruct r as [v|e]; [|reflexivity].
  change (for_each (x :: t) (fun s x => Ok (step s x v)) s
          = Ok (fold_left (fun s x => step s x v) (x :: t) s)).
  apply for_each_pure.
Qed.

End LoopFacts.

(** ** The splicer on the marker lines *)

Module SplicerFacts.
Import Py Re PyFacts ReFacts Inventory Chars Terms BlockFacts.

Lemma start_line_last sm : start_line sm = (L "%% " ++ sm ++ L " %") ++ ["%"%char].
Proof. unfold start_line. rewrite <- !app_assoc. reflexivity. Qed.

Lemma end_line_first em : end_line em = "%"%char :: (L "% /" ++ em ++ L " %%").
Proof. reflexivity. Qed.

Lemma end_line_last em : end_line em = (L "%% /" ++ em ++ L " %") ++ ["%"%char].
Proof. unfold end_line. rewrite <- !app_assoc. reflexivity. Qed.

Lemma search_block_Some S E text pre c :
  search (block_pattern S E) text = Some (pre, c) ->
  exists w1 mid w2 w3,
    text = pre ++ S ++ w1 ++ [nl] ++ mid ++ w2 ++ E ++ w3 ++ rest c
    /\ bol (last_opt pre None) = true /\ ws w1 = true
    /\ bol (last_opt mid (Some nl)) = true /\ ws w2 = true
    /\ ws w3 = true /\ eol (rest c) = true.
Proof.
  unfold search. intros H. apply search_from_Some in H.
  destruct H as (r0 & Et & M & _).
  apply block_Some in M. destruct M as (B & w1 & mid & t & Er & W1 & T & _).
  apply tail_k_Some in T.
  destruct T as (Bm & w2 & w3 & r' & Ett & W2 & W3 & Eo & Rc & _).
  exists w1, mid, w2, w3. rewrite Rc. subst. repeat split; auto.
Qed.

Lemma block_at_match S E pre text :
  block_at S E pre text ->
  exists r0, text = pre ++ r0
             /\ match_at (block_pattern S E) (mkCur (last_opt pre None) r0 []) <> None.
Proof.
  intros (w1 & mid & w2 & w3 & post & Et & B & W1 & Bm & W2 & W3 & Eo).
  eexists. split; [exact Et|].
  apply block_intro with (w1 := w1) (mid := mid) (t := w2 ++ E ++ w3 ++ post); auto.
  apply tail_k_intro with (w2 := w2) (w3 := w3) (r' := post); auto.
Qed.

Lemma search_block_found S E text :
  has_block S E text -> search (block_pattern S E) text <> None.
Proof.
  intros (pre & H) N. apply block_at_match in H. destruct H as (r0 & Et & M).
  unfold search in N. rewrite search_from_None in N.
  apply M. apply (N pre r0 Et).
Qed.

Lemma search_block_leftmost S E text pre c pre' :
  search (block_pattern S E) text = Some (pre, c) ->
  block_at S E pre' text -> length pre <= length pre'.
Proof.
  unfold search. intros H B. apply search_from_Some in H.
  destruct H as (r0 & _ & _ & Hmin).
  apply block_at_match in B. destruct B as (r0' & Et & M).
  destruct (le_lt_dec (length pre) (length pre')) as [Hle|Hlt]; [assumption|].
  exfalso. apply M. apply (Hmin pre' r0' Et Hlt).
Qed.

Lemma block_at_spliced S E pre R post :
  bol (last_opt pre None) = true -> eol post = true ->
  block_at S E pre (pre ++ (S ++ [nl; nl] ++ R ++ [nl; nl] ++ E) ++ post).
Proof.
  intros B Eo. exists [], ([nl] ++ R ++ [nl; nl]), [], [], post.
  repeat split; auto.
  - rewrite <- !app_assoc. reflexivity.
  - rewrite !last_opt_app. reflexivity.
Qed.

(** The block found has a leftmost start, ends at the first end line after
    its start line, and takes the longest white space after the end marker
    that a line end follows. *)
Lemma search_block_frame sm em text pre c :
  search (block_pattern (start_line sm) (end_line em)) text = Some (pre, c) ->
  exists interior w3,
    text = pre ++ start_line sm ++ interior ++ end_line em ++ w3 ++ rest c
    /\ bol (last_opt pre None) = true
    /\ ws w3 = true /\ eol (rest c) = true
    /\ (forall w3' r'', w3 ++ rest c = w3' ++ r'' -> ws w3' = true ->
                        length w3 < length w3' -> eol r'' = false)
    /\ (forall a u2 u3 b,
           interior ++ end_line em ++ w3 ++ rest c
           = a ++ u2 ++ end_line em ++ u3 ++ b ->
           last_opt a None = Some nl ->
           ws u2 = true -> ws u3 = true -> eol b = true ->
           length interior <= length (a ++ u2))
    /\ (forall pre', block_at (start_line sm) (end_line em) pre' text ->
                     length pre <= length pre')
    /\ (exists w1 mid w2,
           interior = w1 ++ [nl] ++ mid ++ w2
           /\ ws w1 = true /\ bol (last_opt mid (Some nl)) = true /\ ws w2 = true).
Proof.
  intros Sr. pose proof (fun pre' => @search_block_leftmost _ _ _ _ _ pre' Sr) as Hleft.
  unfold search in Sr. apply search_from_Some in Sr.
  destruct Sr as (r0 & Et & M & _).
  apply block_Some in M. destruct M as (B & w1 & mid & t & Er & W1 & T & MinMid).
  apply tail_k_Some in T.
  destruct T as (Bm & w2 & w3 & r' & Ett & W2 & W3 & Eo & Rc & Max3).
  rewrite Rc. subst t.
  exists (w1 ++ [nl] ++ mid ++ w2), w3.
  split; [rewrite Et, Er, <- !app_assoc; reflexivity|].
  split; [assumption|]. split; [assumption|]. split; [assumption|].
  split; [assumption|].
  split; [|split; [assumption | exists w1, mid, w2; auto]].
  intros a u2 u3 b Eq La Wu2 Wu3 Eb.
  apply (@first_end_line (end_line em) "%"%char (L "% /" ++ em ++ L " %%")
                         (end_line_first em) eq_refl
                         w1 mid w2 w3 r' [] a u2 u3 b); auto.
  rewrite <- Eq, <- !app_assoc. reflexivity.
Qed.

(** [replace_block] by what the search finds. *)
Lemma replace_block_Ok_inv text sm em replacement out :
  replace_block text sm em replacement = Ok out ->
  exists pre c,
    search (block_pattern (start_line sm) (end_line em)) text = Some (pre, c)
    /\ out = pre ++ (start_line sm ++ [nl; nl] ++ rstrip replacement
                     ++ [nl; nl] ++ end_line em) ++ rest c.
Proof.
  rewrite replace_block_search.
  destruct (search _ text) as [[pre c]|] eqn:Sr; [|discriminate].
  intros H. exists pre, c. split; [reflexivity | congruence].
Qed.


(** The search on the output of a splice. *)
Lemma search_spliced_markers sm em R text pre c :
  ~ In nl em ->
  search (block_pattern (start_line sm) (end_line em)) text = Some (pre, c) ->
  exists c2,
    search (block_pattern (start_line sm) (end_line em))
           (pre ++ (start_line sm ++ [nl; nl] ++ R ++ [nl; nl] ++ end_line em)
                ++ rest c)
    = Some (pre, c2)
    /\ (rest c2 = rest c <-> ~ holds_end_line (end_line em) R).
Proof.
  intros Hem Sr.
  destruct (@search_spliced (start_line sm) (end_line em) R
              "%"%char "%"%char "%"%char
              (L "%% " ++ sm ++ L " %") (L "% /" ++ em ++ L " %%")
              (L "%% /" ++ em ++ L " %")
              (start_line_last sm) (end_line_first em) (end_line_last em)
              eq_refl eq_refl eq_refl (end_line_no_newline Hem)
              text pre c Sr) as (c2 & S2 & R2).
  exists c2. split; [|exact R2].
  unfold search. rewrite <- S2. f_equal. rewrite <- !app_assoc. reflexivity.
Qed.



End SplicerFacts.

(** ** What the scanners record *)

Module ScanFacts.
Import Py Re PyFacts ReFacts Inventory Chars Terms Shapes ScannerFacts.
Import TextFacts OrderFacts DictFacts MatchFacts LoopFacts.

Ltac loop_inv H :=
  match type of H with
  | for_each _ _ _ = Ok ?s' =>
      pattern s'; eapply for_each_inv; [ | | exact H]; cbv beta
  end.

Lemma In_iter_rs_files fs root f :
  In f (iter_rs_files fs root) <->
  In f fs /\ startswith (f_path f) (root ++ L "/") = true
  /\ endswith (f_path f) (L ".rs") = true.
Proof.
  unfold iter_rs_files. rewrite filter_In, andb_true_iff. tauto.
Qed.

(** Every item comes from a match in a file of the walk that could be
    read and resolved. *)
Lemma collect_public_items_In fs dir items it :
  collect_public_items fs dir = Ok items -> In it items ->
  exists f contents m,
    In f (iter_rs_files fs dir) /\ f_text f = Ok contents
    /\ f_rel f = Ok (rel_path it)
    /\ In m (finditer PUB_DECL_RE contents)
    /\ name it = group 2 (groups m) /\ kind it = group 1 (groups m).
Proof.
  unfold collect_public_items. intros H. revert it.
  loop_inv H; [intros it []|].
  intros s f s1 Hf Hs Hb.
  apply bind_Ok in Hb. destruct Hb as (contents & Ht & Hb).
  loop_inv Hb; [exact Hs|].
  intros s0 m s2 Hm Hs0 Hstep. cbv zeta in Hstep.
  apply bind_Ok in Hstep. destruct Hstep as (p & Hp & Hstep).
  injection Hstep as <-. intros it Hit.
  apply in_app_or in Hit. destruct Hit as [Hit|[<-|[]]]; [auto|].
  exists f, contents, m. cbn [name kind rel_path]. auto 10.
Qed.

(** The loop of [collect_public_type_names] over the files. *)
Lemma type_names_loop (fl : list file) : forall out out',
  for_each fl
    (fun out file_path =>
       contents <- f_text file_path ;;
       for_each (finditer PUB_TYPE_RE contents)
         (fun out m =>
            let name := group 1 (groups m) in
            p <- f_rel file_path ;;
            Ok (setdefault_append out name p))
         out)
    out = Ok out' ->
  (dict_ok out -> dict_ok out')
  /\ (forall x p,
         In p (get out' x) <->
         In p (get out x)
         \/ exists f contents c,
              In f fl /\ f_text f = Ok contents /\ f_rel f = Ok p
              /\ In c (finditer PUB_TYPE_RE contents)
              /\ group 1 (groups c) = x)
  /\ (forall f contents c,
         In f fl -> f_text f = Ok contents ->
         In c (finditer PUB_TYPE_RE contents) -> exists p, f_rel f = Ok p).
Proof.
  induction fl as [|f fl IH]; intros out out' H; simpl in H.
  - injection H as <-. split; [auto|]. split.
    + intros x p. split; [auto|]. intros [Hp|(f & ct & c & [] & _)]. assumption.
    + intros f ct c [].
  - apply bind_Ok in H. destruct H as (out1 & H1 & H2).
    apply bind_Ok in H1. destruct H1 as (contents & Ht & H1).
    cbv zeta in H1.
    rewrite (@for_each_asking _ _ _ (f_rel f)
               (fun out m p => setdefault_append out (group 1 (groups m)) p)) in H1.
    destruct (IH out1 out' H2) as (Ok1 & Get1 & Rel1). clear IH H2.
    destruct (finditer PUB_TYPE_RE contents) as [|c0 cs] eqn:Fc.
    + injection H1 as <-. split; [assumption|]. split.
      * intros x p. rewrite Get1. split.
        -- intros [Hp|(g & ct & c & Hg & Hgt & Hgr & Hc & Hx)]; [auto|].
           right. exists g, ct, c. simpl. auto 10.
        -- intros [Hp|(g & ct & c & [<-|Hg] & Hgt & Hgr & Hc & Hx)]; [auto| |].
           ++ exfalso. rewrite Ht in Hgt. injection Hgt as <-.
              rewrite Fc in Hc. destruct Hc.
           ++ right. exists g, ct, c. auto 10.
      * intros g ct c [<-|Hg] Hgt Hc; [|eauto].
        exfalso. rewrite Ht in Hgt. injection Hgt as <-. rewrite Fc in Hc. destruct Hc.
    + apply bind_Ok in H1. destruct H1 as (p0 & Hp0 & H1).
      assert (E : out1 = fold_left (fun out m => setdefault_append out (group 1 (groups m)) p0)
                           (c0 :: cs) out) by congruence.
      clear H1. subst out1.
      split; [intros Ho; apply Ok1;
              apply (@dict_ok_fold_append (fun m => group 1 (groups m)) p0); assumption|].
      split.
      * intros x p. rewrite Get1.
        rewrite (fold_matches_get (fun m => group 1 (groups m)) p0). split.
        -- intros [[Hp|(-> & c & Hc & Hx)]|(g & ct & c & Hg & Hgt & Hgr & Hc & Hx)];
             [auto| |].
           ++ right. exists f, contents, c. rewrite Fc. simpl. auto 10.
           ++ right. exists g, ct, c. simpl. auto 10.
        -- intros [Hp|(g & ct & c & [<-|Hg] & Hgt & Hgr & Hc & Hx)]; [auto| |].
           ++ left. right. rewrite Ht in Hgt. injection Hgt as <-.
              rewrite Hp0 in Hgr. injection Hgr as <-. rewrite Fc in Hc. eauto.
           ++ right. exists g, ct, c. auto 10.
      * intros g ct c [<-|Hg] Hgt Hc; [eauto | eauto].
Qed.

(** What [collect_public_type_names] returns: the declared names as keys,
    each once, and for each name the paths of the declaring files, each
    once and in code-point order. *)
Lemma type_names_spec fs dir d :
  collect_public_type_names fs dir = Ok d ->
  NoDup (keys d)
  /\ (forall x, In x (keys d) <-> declared_type fs dir x)
  /\ (forall x, NoDup (get d x)
                /\ StronglySorted (fun a b => str_leb a b = true) (get d x))
  /\ (forall x p,
         In p (get d x) <->
         exists f contents c,
           In f (iter_rs_files fs dir) /\ f_text f = Ok contents
           /\ f_rel f = Ok p
           /\ In c (finditer PUB_TYPE_RE contents)
           /\ group 1 (groups c) = x).
Proof.
  unfold collect_public_type_names. intros H.
  apply bind_Ok in H. destruct H as (out & H & Hd). injection Hd as <-.
  apply type_names_loop in H. destruct H as (Hok & Hget & Hrel).
  specialize (Hok dict_ok_nil).
  assert (Hg : forall x, get (map (fun kv => (fst kv, sorted_set (snd kv))) out) x
                         = sorted_set (get out x)).
  { intros x. unfold get. rewrite (lookup_map_values sorted_set).
    destruct (lookup out x); reflexivity. }
  assert (Hk : keys (map (fun kv : str * list str => (fst kv, sorted_set (snd kv))) out)
               = keys out).
  { unfold keys. rewrite map_map. reflexivity. }
  assert (Hget' : forall x p,
             In p (get out x) <->
             exists f contents c,
               In f (iter_rs_files fs dir) /\ f_text f = Ok contents
               /\ f_rel f = Ok p
               /\ In c (finditer PUB_TYPE_RE contents)
               /\ group 1 (groups c) = x).
  { intros x p. rewrite Hget. unfold get at 1. simpl. tauto. }
  split; [rewrite Hk; apply Hok|]. split; [|split].
  - intros x. rewrite Hk, (In_keys_get x Hok). unfold declared_type. split.
    + intros (p & Hp). apply Hget' in Hp.
      destruct Hp as (f & ct & c & H1 & H2 & H3 & H4 & H5). eauto 10.
    + intros (f & ct & c & H1 & H2 & H4 & H5).
      destruct (Hrel f ct c H1 H2 H4) as (p & Hp).
      exists p. apply Hget'. eauto 10.
  - intros x. rewrite Hg. split; [apply NoDup_sorted_set | apply sorted_set_StronglySorted].
  - intros x p. rewrite Hg, In_sorted_set. apply Hget'.
Qed.

(** The usage scan: every step keeps an invariant about the recorded
    pairs. *)
Section Scan.
Variable Q : str -> str -> Prop.

Lemma scan_inv_append out k v :
  scan_inv Q out -> Q k v -> scan_inv Q (setdefault_append out k v).
Proof.
  intros [H1 H2] Hq. split; [apply dict_ok_setdefault_append; assumption|].
  intros x p Hp. apply get_setdefault_append in Hp.
  destruct Hp as [Hp|[-> ->]]; auto.
Qed.

Lemma scan_inv_match (r : result str) c out out1 :
  scan_inv Q out ->
  (forall n p, r = Ok p -> is_ident n = true ->
               contains n (group 2 (groups c)) = true -> Q n p) ->
  scan_match r out c = Ok out1 -> scan_inv Q out1.
Proof.
  intros Ho Hq. unfold scan_match. cbv zeta.
  destruct (startswith (strip (group 2 (groups c))) (L "{")).
  - intros H. loop_inv H; [exact Ho|].
    intros s n s1 Hn Hs Hstep.
    destruct (fullmatch IDENT_RE n) eqn:F; [|congruence].
    apply bind_Ok in Hstep. destruct Hstep as (p & Hp & Hstep). injection Hstep as <-.
    apply scan_inv_append; [assumption|].
    apply (Hq n p Hp); [apply fullmatch_IDENT_RE; assumption|].
    apply in_map_iff in Hn. destruct Hn as (e & <- & He).
    apply split_contains in He.
    eapply contains_trans; [apply contains_strip|].
    eapply contains_trans; [exact He|].
    destruct (lstrip_char_suffix "{"%char
                (split1_head "}"%char (strip (group 2 (groups c))))) as [w1 H1].
    destruct (split1_head_prefix "}"%char (strip (group 2 (groups c)))) as [w2 H2].
    eapply contains_trans; [|apply contains_strip].
    apply contains_spec. exists w1, w2.
    etransitivity; [exact H2|]. rewrite app_assoc, <- H1. reflexivity.
  - destruct (_extract_last_ident (group 2 (groups c))) as [last|] eqn:E.
    + intros H. apply bind_Ok in H. destruct H as (p & Hp & H). injection H as <-.
      apply scan_inv_append; [assumption|].
      unfold _extract_last_ident in E.
      destruct (strip (group 2 (groups c))) as [|x t] eqn:Es; [discriminate|].
      destruct (startswith (x :: t) (L "{") && endswith (x :: t) (L "}"));
        [discriminate|].
      destruct (rev (filter _ _)) as [|l0 ls] eqn:Er; [discriminate|].
      destruct (fullmatch IDENT_RE l0) eqn:F; [|discriminate].
      injection E as ->.
      apply (Hq last p Hp); [apply fullmatch_IDENT_RE; assumption|].
      assert (I : In last (rev (filter (fun p => negb (str_eqb p []))
                                       (split (L "::") (x :: t))))).
      { rewrite Er. left. reflexivity. }
      apply in_rev, filter_In in I. destruct I as [I _].
      apply split_contains in I.
      eapply contains_trans; [exact I|]. rewrite <- Es. apply contains_strip.
    + intros H. injection H as <-. assumption.
Qed.

Lemma scan_inv_roots (fs : tree) (roots : list str) out out' :
  scan_inv Q out ->
  (forall root f contents c n p,
      In root roots -> In f (iter_rs_files fs root) ->
      f_text f = Ok contents -> f_rel f = Ok p ->
      In c (finditer INBOUND_PATH_USE_RE contents) ->
      is_ident n = true -> contains n (group 2 (groups c)) = true ->
      Q n p) ->
  for_each roots
    (fun out root =>
       for_each (iter_rs_files fs root)
         (fun out file_path =>
            contents <- f_text file_path ;;
            for_each (finditer INBOUND_PATH_USE_RE contents)
                     (fun out m => scan_match (f_rel file_path) out m) out)
         out)
    out = Ok out' ->
  scan_inv Q out'.
Proof.
  intros Ho Hq H.
  loop_inv H; [exact Ho|].
  intros s root s1 Hroot Hs H1.
  loop_inv H1; [exact Hs|].
  intros s2 f s3 Hf Hs2 H2.
  apply bind_Ok in H2. destruct H2 as (contents & Ht & H2).
  loop_inv H2; [exact Hs2|].
  intros s4 c s5 Hc Hs4 H4.
  apply (@scan_inv_match (f_rel f) c s4 s5 Hs4); [|assumption].
  intros n p Hp Hn Hcn. apply (Hq root f contents c n p); assumption.
Qed.
End Scan.

(** What [scan_inbound_usages] returns. *)
Lemma scan_inbound_usages_spec (Q : str -> str -> Prop) fs roots d :
  scan_inbound_usages fs roots = Ok d ->
  (forall root f contents c n p,
      In root roots -> In f (iter_rs_files fs root) ->
      f_text f = Ok contents -> f_rel f = Ok p ->
      In c (finditer INBOUND_PATH_USE_RE contents) ->
      is_ident n = true -> contains n (group 2 (groups c)) = true ->
      Q n p) ->
  forall name,
    NoDup (get d name)
    /\ StronglySorted (fun a b => str_leb a b = true) (get d name)
    /\ (forall p, In p (get d name) -> Q name p)
    /\ (forall paths, lookup d name = Some paths -> paths <> []).
Proof.
  unfold scan_inbound_usages. intros H Hq name.
  apply bind_Ok in H. destruct H as (out & H & Hd). injection Hd as <-.
  apply (@scan_inv_roots Q fs roots [] out) in H; [|split; [apply dict_ok_nil|]|assumption].
  2:{ intros x p []. }
  destruct H as [[Nk Ne] Iq].
  assert (Hg : get (map (fun kv => (fst kv, sorted_set (snd kv))) out) name
               = sorted_set (get out name)).
  { unfold get. rewrite (lookup_map_values sorted_set).
    destruct (lookup out name); reflexivity. }
  rewrite Hg. split; [apply NoDup_sorted_set|].
  split; [apply sorted_set_StronglySorted|]. split.
  - intros p Hp. rewrite In_sorted_set in Hp. apply Iq. exact Hp.
  - intros paths. rewrite (lookup_map_values sorted_set).
    destruct (lookup out name) as [v|] eqn:Lk; [|discriminate].
    intros Hv. injection Hv as <-. intros C. apply sorted_set_nil_inv in C.
    apply lookup_In in Lk. rewrite Forall_forall in Ne. apply (Ne _ Lk). assumption.
Qed.

(** *** What the scanners raise *)





End ScanFacts.

(** ** The text of the rendered blocks *)

Module LayoutFacts.
Import Py Re PyFacts ReFacts Inventory Chars Terms Shapes ScannerFacts.
Import TextFacts OrderFacts DictFacts MatchFacts LoopFacts ScanFacts.

Lemma join_cons sep p q (l : list str) :
  join sep (p :: q :: l) = p ++ sep ++ join sep (q :: l).
Proof. reflexivity. Qed.

Lemma join_cons_ne sep p (l : list str) :
  l <> [] -> join sep (p :: l) = p ++ sep ++ join sep l.
Proof. destruct l; [congruence | reflexivity]. Qed.

Ltac nonempty :=
  solve [ assumption | discriminate
        | let E := fresh in
          intros E; apply app_eq_nil in E; destruct E; (congruence || discriminate) ].

Lemma join_snoc sep (front : list str) l :
  front <> [] -> join sep (front ++ [l]) = join sep front ++ sep ++ l.
Proof. intros H. apply join_app; [assumption | discriminate]. Qed.

(** Joining joined lines. *)
Lemma join_join sep (xs ys zs : list str) :
  ys <> [] -> join sep (xs ++ [join sep ys] ++ zs) = join sep (xs ++ ys ++ zs).
Proof.
  intros Hy. destruct xs as [|x xs], zs as [|z zs].
  - cbn [app join]. rewrite app_nil_r. reflexivity.
  - cbn [app]. change (join sep ys :: z :: zs) with ([join sep ys] ++ z :: zs).
    rewrite !join_app by (assumption || discriminate). reflexivity.
  - rewrite !app_nil_r. rewrite !join_app by (assumption || discriminate).
    reflexivity.
  - rewrite (@join_app sep (x :: xs) ([join sep ys] ++ z :: zs)) by discriminate.
    rewrite (@join_app sep [join sep ys] (z :: zs)) by discriminate.
    rewrite (@join_app sep (x :: xs) (ys ++ z :: zs));
      [|discriminate | destruct ys; [congruence | discriminate]].
    rewrite (@join_app sep ys (z :: zs)) by (assumption || discriminate).
    reflexivity.
Qed.

Lemma concat_lines (rows : list str) :
  rows <> [] -> concat (map (fun r => r ++ [nl]) rows) = join [nl] rows ++ [nl].
Proof.
  induction rows as [|r rows IH]; [congruence|]. intros _.
  destruct rows as [|q rows].
  - cbn [map concat join]. rewrite app_nil_r. reflexivity.
  - rewrite join_cons. change (map (fun r => r ++ [nl]) (r :: q :: rows))
      with ((r ++ [nl]) :: map (fun r => r ++ [nl]) (q :: rows)).
    cbn [concat]. rewrite IH by discriminate. rewrite <- !app_assoc. reflexivity.
Qed.

(** *** The cells *)

Lemma used_disp_cell used : used_disp used = example_cell 3 used.
Proof. destruct used; reflexivity. Qed.

Lemma dto_disp_cell locs : dto_disp locs = example_cell 2 locs.
Proof. reflexivity. Qed.

(** *** The port table *)

Lemma map_format_rows defs usage :
  map format_row (table_rows defs usage)
  = map (fun r => r ++ [nl])
        (flat_map
           (fun name =>
              match lookup defs name with
              | Some it => [ port_row_text name it (get usage name) ]
              | None => []
              end)
           (sorted str_leb (keys defs))).
Proof.
  unfold table_rows. induction (sorted str_leb (keys defs)) as [|n ns IH];
    [reflexivity|].
  cbn [flat_map]. rewrite !map_app, IH. f_equal.
  destruct (lookup defs n) as [it|]; [|reflexivity].
  cbv zeta. cbn [map]. f_equal.
  unfold format_row, port_row_text.
  cbn [r_item r_kind r_defined r_used r_suggested r_notes].
  rewrite used_disp_cell. rewrite <- !app_assoc. reflexivity.
Qed.

Lemma render_table_lines defs usage :
  render_table defs usage = join [nl] (port_table_lines defs usage) ++ [nl].
Proof.
  unfold render_table, port_table_lines. rewrite map_format_rows.
  set (rows := flat_map _ _). destruct rows as [|r rows].
  - vm_compute. reflexivity.
  - rewrite concat_lines by discriminate.
    cbn [app]. rewrite !join_cons. unfold table_header.
    rewrite <- !app_assoc. reflexivity.
Qed.

Lemma port_row_text_end name it used :
  exists Y, port_row_text name it used = Y ++ ["|"%char].
Proof.
  unfold port_row_text.
  exists (L "| `" ++ name ++ L "` | " ++ kind it ++ L " | " ++ rel_path it ++ L " | "
          ++ example_cell 3 used ++ L " | " ++ suggest_port_target name used ++ L " | "
          ++ notes_for (suggest_port_target name used) ++ L " ").
  rewrite <- !app_assoc. reflexivity.
Qed.

Lemma port_table_lines_end defs usage l :
  In l (port_table_lines defs usage) -> exists Y, l = Y ++ ["|"%char].
Proof.
  unfold port_table_lines. intros H. apply in_app_or in H. destruct H as [H|H].
  - destruct H as [<-|[<-|[]]].
    + exists (L "| Item | Kind | Defined in | Used in app/UI (examples) | Suggested target | Notes ").
      reflexivity.
    + exists (L "|---|---|---|---|---|---"). reflexivity.
  - apply in_flat_map in H. destruct H as (n & _ & H).
    destruct (lookup defs n) as [it|]; [|destruct H].
    destruct H as [<-|[]]. apply port_row_text_end.
Qed.

(** Lines that all end in a vertical bar, joined. *)
Lemma join_end_bar (ls : list str) :
  ls <> [] -> (forall l, In l ls -> exists Y, l = Y ++ ["|"%char]) ->
  exists X, join [nl] ls = X ++ ["|"%char].
Proof.
  intros Hne Hl. destruct (@exists_last _ ls Hne) as (front & l & ->).
  destruct (Hl l) as (Y & ->); [apply in_or_app; right; left; reflexivity|].
  destruct front as [|f front].
  - exists Y. reflexivity.
  - rewrite join_snoc by discriminate.
    exists (join [nl] (f :: front) ++ [nl] ++ Y). rewrite <- !app_assoc. reflexivity.
Qed.

(** [rstrip] takes the last line break of a table and nothing else. *)
Lemma rstrip_render_table defs usage :
  rstrip (render_table defs usage) = join [nl] (port_table_lines defs usage).
Proof.
  rewrite render_table_lines.
  destruct (@join_end_bar (port_table_lines defs usage)) as (X & ->).
  - unfold port_table_lines. discriminate.
  - apply port_table_lines_end.
  - rewrite <- app_assoc. cbn [app].
    rewrite rstrip_app_nonspace by reflexivity. reflexivity.
Qed.

(** *** The port block *)

Lemma port_side_lines_nonempty ph defs usage : port_side_lines ph defs usage <> [].
Proof. unfold port_side_lines, port_table_lines. destruct defs; discriminate. Qed.

Lemma strip_between x h X n y :
  is_space x = false -> is_space y = false ->
  strip ((x :: h) ++ X ++ n ++ [y]) = (x :: h) ++ X ++ n ++ [y].
Proof.
  intros Hx Hy.
  replace ((x :: h) ++ X ++ n ++ [y]) with (x :: (h ++ X ++ n) ++ [y])
    by (cbn [app]; rewrite <- !app_assoc; reflexivity).
  apply strip_nonspace; assumption.
Qed.

(** A text between a heading and the regenerate note. *)
Lemma join_framed (h : str) (M : list str) :
  M <> [] ->
  join [nl] ([h; []] ++ M ++ [[]; regenerate_note])
  = h ++ ([nl; nl] ++ join [nl] M ++ [nl; nl])
      ++ L "_Regenerate with `task arch:inventories`." ++ ["_"%char].
Proof.
  intros HM. cbn [app].
  rewrite (@join_cons_ne [nl] h) by discriminate.
  rewrite (@join_cons_ne [nl] []) by nonempty.
  rewrite (@join_app [nl] M [[]; regenerate_note]) by nonempty.
  rewrite join_cons. unfold regenerate_note. cbn [join].
  rewrite <- !app_assoc. reflexivity.
Qed.

Lemma port_lines_join ed pd eu pu :
  join [nl] (port_taxonomy_lines ed pd eu pu)
  = join [nl]
      ([ L "#### Engine inbound taxonomy"; [] ]
       ++ port_side_lines (L "_No engine inbound items found (unexpected)._ ") ed eu
       ++ [ []; L "#### Player inbound taxonomy"; [] ]
       ++ port_side_lines (L "_No player inbound items found (unexpected)._ ") pd pu
       ++ [ []; L "_Regenerate with `task arch:inventories`._" ]).
Proof.
  unfold port_taxonomy_lines.
  set (el := port_side_lines _ ed eu). set (pl := port_side_lines _ pd pu).
  assert (He : match ed with
               | [] => L "_No engine inbound items found (unexpected)._ "
               | _ :: _ => rstrip (render_table ed eu)
               end = join [nl] el).
  { unfold el, port_side_lines. destruct ed; [reflexivity | apply rstrip_render_table]. }
  assert (Hp : match pd with
               | [] => L "_No player inbound items found (unexpected)._ "
               | _ :: _ => rstrip (render_table pd pu)
               end = join [nl] pl).
  { unfold pl, port_side_lines. destruct pd; [reflexivity | apply rstrip_render_table]. }
  rewrite He, Hp.
  assert (Ne : el <> []) by apply port_side_lines_nonempty.
  assert (Np : pl <> []) by apply port_side_lines_nonempty.
  clearbody el pl. clear He Hp.
  rewrite (@join_join [nl] [L "#### Engine inbound taxonomy"; []] el) by assumption.
  replace ([L "#### Engine inbound taxonomy"; []] ++ el
           ++ [[]; L "#### Player inbound taxonomy"; []] ++ [join [nl] pl]
           ++ [[]; regenerate_note])
    with (([L "#### Engine inbound taxonomy"; []] ++ el
           ++ [[]; L "#### Player inbound taxonomy"; []]) ++ [join [nl] pl]
          ++ [[]; regenerate_note])
    by (rewrite <- !app_assoc; reflexivity).
  rewrite (@join_join [nl] _ pl) by assumption.
  f_equal. unfold regenerate_note. rewrite <- !app_assoc. reflexivity.
Qed.

Lemma strip_port_join (el pl : list str) :
  el <> [] ->
  strip (join [nl]
           ([ L "#### Engine inbound taxonomy"; [] ] ++ el
            ++ [ []; L "#### Player inbound taxonomy"; [] ] ++ pl
            ++ [ []; L "_Regenerate with `task arch:inventories`._" ]))
  = join [nl]
      ([ L "#### Engine inbound taxonomy"; [] ] ++ el
       ++ [ []; L "#### Player inbound taxonomy"; [] ] ++ pl
       ++ [ []; L "_Regenerate with `task arch:inventories`._" ]).
Proof.
  intros Ne.
  replace ([L "#### Engine inbound taxonomy"; []] ++ el
           ++ [[]; L "#### Player inbound taxonomy"; []] ++ pl
           ++ [[]; L "_Regenerate with `task arch:inventories`._"])
    with ([L "#### Engine inbound taxonomy"; []]
          ++ (el ++ [[]; L "#### Player inbound taxonomy"; []] ++ pl)
          ++ [[]; regenerate_note])
    by (unfold regenerate_note; rewrite <- !app_assoc; reflexivity).
  rewrite join_framed by nonempty.
  apply (@strip_between "#"%char (L "### Engine inbound taxonomy")); reflexivity.
Qed.

(** The final [strip] of the port renderer removes nothing. *)
Lemma strip_port_lines ed pd eu pu :
  strip (join [nl] (port_taxonomy_lines ed pd eu pu))
  = join [nl] (port_taxonomy_lines ed pd eu pu).
Proof.
  rewrite port_lines_join. apply strip_port_join. apply port_side_lines_nonempty.
Qed.

Lemma port_block_layout ed pd eu pu :
  strip (join [nl] (port_taxonomy_lines ed pd eu pu)) ++ [nl]
  = port_block_text
      (port_side_lines (L "_No engine inbound items found (unexpected)._ ") ed eu)
      (port_side_lines (L "_No player inbound items found (unexpected)._ ") pd pu).
Proof.
  rewrite strip_port_lines, port_lines_join. reflexivity.
Qed.

Lemma render_port_Ok_inv fs block :
  render_port_taxonomy_block fs = Ok block ->
  exists engine_items player_items engine_usage player_usage,
    collect_public_items fs (L "crates/engine-ports/src/inbound") = Ok engine_items
    /\ collect_public_items fs (L "crates/player-ports/src/inbound") = Ok player_items
    /\ scan_inbound_usages fs [L "crates/engine-app/src"] = Ok engine_usage
    /\ scan_inbound_usages fs [L "crates/player-app/src"; L "crates/player-ui/src"]
       = Ok player_usage
    /\ block = strip (join [nl] (port_taxonomy_lines (index_defs engine_items)
                                                     (index_defs player_items)
                                                     engine_usage player_usage))
               ++ [nl]
    /\ block = port_block_text
                 (port_side_lines (L "_No engine inbound items found (unexpected)._ ")
                                  (index_defs engine_items) engine_usage)
                 (port_side_lines (L "_No player inbound items found (unexpected)._ ")
                                  (index_defs player_items) player_usage).
Proof.
  unfold render_port_taxonomy_block. intros H.
  apply bind_Ok in H. destruct H as (ei & H1 & H).
  apply bind_Ok in H. destruct H as (pi & H2 & H).
  apply bind_Ok in H. destruct H as (eu & H3 & H).
  apply bind_Ok in H. destruct H as (pu & H4 & H).
  cbv zeta in H. exists ei, pi, eu, pu.
  assert (E : block = strip (join [nl] (port_taxonomy_lines (index_defs ei) (index_defs pi)
                                                            eu pu)) ++ [nl])
    by congruence.
  repeat (split; [assumption|]). rewrite E. apply port_block_layout.
Qed.

(** *** The DTO block *)

Lemma format_dto_rows dt pt :
  map format_dto_row (dto_rows dt pt)
  = map (fun name => dto_row_text (get dt name) (get pt name) name) (collisions dt pt).
Proof.
  unfold dto_rows. rewrite map_map. apply map_ext. intros n.
  unfold format_dto_row, dto_row_text. cbn [d_name d_dto d_port d_owner d_notes].
  rewrite !dto_disp_cell. repeat (simpl; rewrite <- ?app_assoc). reflexivity.
Qed.

Lemma dto_ownership_lines_body dt pt :
  dto_ownership_lines dt pt
  = [ L "| Type name | engine-dto (examples) | engine-ports (examples) | Suggested owner | Notes |";
      L "|---|---|---|---|---|" ]
    ++ dto_body_lines dt pt (collisions dt pt) ++ [ []; regenerate_note ].
Proof.
  unfold dto_ownership_lines. rewrite format_dto_rows. unfold dto_body_lines.
  destruct (collisions dt pt) as [|n ns]; reflexivity.
Qed.

Lemma dto_body_lines_nonempty dt pt names : dto_body_lines dt pt names <> [].
Proof. unfold dto_body_lines. destruct names; discriminate. Qed.

Lemma dto_lines_join (body : list str) :
  body <> [] ->
  join [nl]
    ([ L "| Type name | engine-dto (examples) | engine-ports (examples) | Suggested owner | Notes |";
       L "|---|---|---|---|---|" ] ++ body ++ [ []; regenerate_note ])
  = L "| Type name | engine-dto (examples) | engine-ports (examples) | Suggested owner | Notes |"
    ++ ([nl] ++ L "|---|---|---|---|---|" ++ [nl] ++ join [nl] body ++ [nl; nl])
    ++ L "_Regenerate with `task arch:inventories`." ++ ["_"%char].
Proof.
  intros Hne. cbn [app].
  rewrite (@join_cons_ne [nl] (L "| Type name | engine-dto (examples) | engine-ports (examples) | Suggested owner | Notes |"))
    by discriminate.
  rewrite (@join_cons_ne [nl] (L "|---|---|---|---|---|")) by nonempty.
  rewrite (@join_app [nl] body [[]; regenerate_note]) by nonempty.
  rewrite join_cons. unfold regenerate_note. cbn [join].
  repeat (simpl; rewrite <- ?app_assoc). reflexivity.
Qed.

(** The final [strip] of the DTO renderer removes nothing. *)
Lemma strip_dto_lines dt pt :
  strip (join [nl] (dto_ownership_lines dt pt))
  = join [nl] (dto_ownership_lines dt pt).
Proof.
  rewrite dto_ownership_lines_body.
  rewrite dto_lines_join by apply dto_body_lines_nonempty.
  apply (@strip_between "|"%char
           (L " Type name | engine-dto (examples) | engine-ports (examples) | Suggested owner | Notes |"));
    reflexivity.
Qed.

Lemma dto_block_layout dt pt :
  strip (join [nl] (dto_ownership_lines dt pt)) ++ [nl]
  = dto_block_text (dto_body_lines dt pt (collisions dt pt)).
Proof.
  rewrite strip_dto_lines, dto_ownership_lines_body.
  rewrite dto_lines_join by apply dto_body_lines_nonempty.
  unfold dto_block_text. repeat (simpl; rewrite <- ?app_assoc). reflexivity.
Qed.

Lemma render_dto_Ok_inv fs block :
  render_dto_ownership_block fs = Ok block ->
  exists dto_types port_types,
    collect_public_type_names fs (L "crates/engine-dto/src") = Ok dto_types
    /\ collect_public_type_names fs (L "crates/engine-ports/src") = Ok port_types
    /\ block = strip (join [nl] (dto_ownership_lines dto_types port_types)) ++ [nl]
    /\ block = dto_block_text
                 (dto_body_lines dto_types port_types (collisions dto_types port_types)).
Proof.
  unfold render_dto_ownership_block. intros H.
  apply bind_Ok in H. destruct H as (dt & H1 & H).
  apply bind_Ok in H. destruct H as (pt & H2 & H).
  exists dt, pt.
  assert (E : block = strip (join [nl] (dto_ownership_lines dt pt)) ++ [nl])
    by congruence.
  repeat (split; [assumption|]). rewrite E. apply dto_block_layout.
Qed.

(** *** The blocks without their last line break *)

Lemma rstrip_noted (front : list str) :
  front <> [] ->
  rstrip (join [nl] (front ++ [ L "_Regenerate with `task arch:inventories`._" ]) ++ [nl])
  = join [nl] (front ++ [ L "_Regenerate with `task arch:inventories`._" ]).
Proof.
  intros Hne. rewrite join_snoc by assumption.
  set (J := join [nl] front).
  change (L "_Regenerate with `task arch:inventories`._")
    with (L "_Regenerate with `task arch:inventories`." ++ ["_"%char]).
  replace ((J ++ [nl] ++ L "_Regenerate with `task arch:inventories`." ++ ["_"%char])
           ++ [nl])
    with ((J ++ [nl] ++ L "_Regenerate with `task arch:inventories`.")
          ++ "_"%char :: [nl])
    by (rewrite <- !app_assoc; reflexivity).
  rewrite rstrip_app_nonspace by reflexivity.
  rewrite <- !app_assoc. reflexivity.
Qed.

Lemma rstrip_port_block el pl :
  rstrip (port_block_text el pl)
  = join [nl]
      ([ L "#### Engine inbound taxonomy"; [] ] ++ el
       ++ [ []; L "#### Player inbound taxonomy"; [] ] ++ pl
       ++ [ []; L "_Regenerate with `task arch:inventories`._" ]).
Proof.
  unfold port_block_text.
  replace ([ L "#### Engine inbound taxonomy"; [] ] ++ el
           ++ [ []; L "#### Player inbound taxonomy"; [] ] ++ pl
           ++ [ []; L "_Regenerate with `task arch:inventories`._" ])
    with (([ L "#### Engine inbound taxonomy"; [] ] ++ el
           ++ [ []; L "#### Player inbound taxonomy"; [] ] ++ pl ++ [ [] ])
          ++ [ L "_Regenerate with `task arch:inventories`._" ])
    by (repeat (cbn [app]; rewrite <- ?app_assoc); reflexivity).
  apply rstrip_noted. discriminate.
Qed.

Lemma dto_block_text_lines body :
  body <> [] ->
  dto_block_text body
  = join [nl]
      (([ L "| Type name | engine-dto (examples) | engine-ports (examples) | Suggested owner | Notes |";
          L "|---|---|---|---|---|" ]
        ++ body ++ [ [] ]) ++ [ L "_Regenerate with `task arch:inventories`._" ])
    ++ [nl].
Proof.
  intros Hne. unfold dto_block_text.
  rewrite join_snoc by discriminate.
  cbn [app].
  rewrite (@join_cons_ne [nl] (L "| Type name | engine-dto (examples) | engine-ports (examples) | Suggested owner | Notes |"))
    by discriminate.
  rewrite (@join_cons_ne [nl] (L "|---|---|---|---|---|")) by nonempty.
  rewrite (@join_snoc [nl] body []) by assumption.
  rewrite <- !app_assoc. reflexivity.
Qed.

Lemma rstrip_dto_block body :
  body <> [] ->
  rstrip (dto_block_text body)
  = join [nl]
      ([ L "| Type name | engine-dto (examples) | engine-ports (examples) | Suggested owner | Notes |";
         L "|---|---|---|---|---|" ]
       ++ body ++ [ []; L "_Regenerate with `task arch:inventories`._" ]).
Proof.
  intros Hne. rewrite dto_block_text_lines by assumption.
  rewrite rstrip_noted by discriminate.
  f_equal. repeat (cbn [app]; rewrite <- ?app_assoc). reflexivity.
Qed.

(** *** What the renderers raise *)



End LayoutFacts.

(** ** The lines of the rendered blocks *)

Module LineFacts.
Import Py Re PyFacts ReFacts Inventory Chars Terms Shapes ScannerFacts BlockFacts.
Import TextFacts OrderFacts DictFacts MatchFacts LoopFacts ScanFacts LayoutFacts.

(** *** Lines that begin with a percent sign *)

Lemma is_nl_false c : c <> nl -> is_nl c = false.
Proof.
  intros H. destruct (is_nl c) eqn:E; [|reflexivity].
  apply is_nl_eq in E. contradiction.
Qed.

Lemma nonspace_not_nl x : is_space x = false -> is_nl x = false.
Proof.
  intros H. destruct (is_nl x) eqn:E; [|reflexivity].
  apply is_nl_eq in E. subst x. discriminate H.
Qed.

Lemma marked_ws u r : ws u = true -> marked true (u ++ "%"%char :: r) = true.
Proof.
  induction u as [|c u IH]; intros H.
  - reflexivity.
  - simpl in H. apply andb_true_iff in H. destruct H as [Hc Hu].
    cbn [app marked]. rewrite Hc. cbn [andb].
    rewrite orb_true_r, (IH Hu). apply orb_true_r.
Qed.

Lemma marked_from X a : forall d fresh,
  (a = [] -> fresh = true) -> bol (last_opt a d) = true ->
  marked true X = true -> marked fresh (a ++ X) = true.
Proof.
  induction a as [|c a IH]; intros d fresh Hf Hb HX.
  - rewrite (Hf eq_refl). exact HX.
  - cbn [app marked]. cbn [last_opt] in Hb.
    rewrite (IH (Some c)); [apply orb_true_r| |assumption|assumption].
    intros ->. cbn [last_opt bol] in Hb. rewrite Hb. reflexivity.
Qed.

Lemma holds_end_line_marked E' R :
  holds_end_line ("%"%char :: E') R -> marked true R = true.
Proof.
  intros (a & u2 & u3 & b & -> & Hb & W2 & _).
  apply (@marked_from _ a (Some nl) true); [reflexivity | assumption|].
  cbn [app]. apply marked_ws. assumption.
Qed.

Lemma marked_line l : ~ In nl l -> forall tl, marked false (l ++ tl) = marked false tl.
Proof.
  induction l as [|c l IH]; intros H tl; [reflexivity|].
  cbn [app marked andb orb].
  rewrite is_nl_false by (intros ->; apply H; left; reflexivity).
  cbn [orb]. apply IH. intros I. apply H. right. assumption.
Qed.

Lemma marked_good_line l T :
  good_line l -> marked true (l ++ nl :: T) = marked true T.
Proof.
  intros [Hn Hh]. destruct l as [|x t].
  - reflexivity.
  - destruct Hh as [Hs Hp]. cbn [app marked andb].
    assert (E : Ascii.eqb x "%"%char = false).
    { destruct (Ascii.eqb x "%"%char) eqn:E; [|reflexivity].
      apply Ascii.eqb_eq in E. contradiction. }
    rewrite E, Hs, (nonspace_not_nl x Hs). cbn [orb].
    rewrite marked_line by (intros I; apply Hn; right; assumption).
    reflexivity.
Qed.

Lemma marked_last_line l : good_line l -> marked true l = false.
Proof.
  intros [Hn Hh]. destruct l as [|x t]; [reflexivity|].
  destruct Hh as [Hs Hp]. cbn [marked andb].
  assert (E : Ascii.eqb x "%"%char = false).
  { destruct (Ascii.eqb x "%"%char) eqn:E; [|reflexivity].
    apply Ascii.eqb_eq in E. contradiction. }
  rewrite E, Hs, (nonspace_not_nl x Hs). cbn [orb].
  rewrite <- (app_nil_r t), marked_line; [reflexivity|].
  intros I. apply Hn. right. assumption.
Qed.

Lemma marked_good_lines ls : Forall good_line ls -> marked true (join [nl] ls) = false.
Proof.
  induction ls as [|l ls IH]; intros H; [reflexivity|].
  inversion H as [|? ? Hl Hls]; subst.
  destruct ls as [|q ls].
  - apply marked_last_line. assumption.
  - rewrite join_cons. cbn [app]. rewrite marked_good_line by assumption.
    apply IH. assumption.
Qed.

(** Lines that are empty or begin with something else hold no end line. *)
Lemma no_end_line_lines em ls :
  Forall good_line ls -> ~ holds_end_line (end_line em) (join [nl] ls).
Proof.
  intros H C. apply holds_end_line_marked in C.
  rewrite marked_good_lines in C by assumption. discriminate.
Qed.

(** *** Texts without a line break *)

Lemma no_nl_b s : forallb (fun c => negb (Ascii.eqb c nl)) s = true -> ~ In nl s.
Proof.
  intros H I. rewrite forallb_forall in H. specialize (H nl I).
  rewrite Ascii.eqb_refl in H. discriminate.
Qed.

Lemma uint_no_nl d : ~ In nl (L (NilEmpty.string_of_uint d)).
Proof.
  induction d; cbn [NilEmpty.string_of_uint L list_ascii_of_string];
    [intros [] | intros [H|H]; (discriminate H || auto) ..].
Qed.

Lemma str_of_nat_no_nl n : ~ In nl (str_of_nat n).
Proof.
  unfold str_of_nat, NilZero.string_of_uint.
  destruct (Nat.to_uint n) eqn:E; try (rewrite <- E; apply uint_no_nl).
  apply no_nl_b. reflexivity.
Qed.

Lemma In_firstn_In (A : Type) n (l : list A) x : In x (firstn n l) -> In x l.
Proof.
  revert l. induction n as [|n IH]; intros l H; [destruct H|].
  destruct l as [|y l]; [destruct H|].
  destruct H as [H|H]; [left; assumption | right; auto].
Qed.

Lemma example_cell_no_nl limit paths :
  (forall p, In p paths -> ~ In nl p) -> ~ In nl (example_cell limit paths).
Proof.
  intros Hp H. unfold example_cell in H. apply in_app_or in H. destruct H as [H|H].
  - apply In_join in H. destruct H as [H|(p & H1 & H2)].
    + revert H. apply no_nl_b. reflexivity.
    + apply In_firstn_In in H1. apply (Hp p H1 H2).
  - destruct (limit <? length paths); [|destruct H].
    apply in_app_or in H. destruct H as [H|H];
      [revert H; apply no_nl_b; reflexivity|].
    apply in_app_or in H. destruct H as [H|H];
      [revert H; apply str_of_nat_no_nl | revert H; apply no_nl_b; reflexivity].
Qed.

Lemma suggest_port_target_no_nl n u : ~ In nl (suggest_port_target n u).
Proof.
  unfold suggest_port_target.
  destruct (mem n _); [apply no_nl_b; reflexivity|].
  destruct (mem n _); [apply no_nl_b; reflexivity|].
  destruct (endswith n _); [apply no_nl_b; reflexivity|].
  destruct u; [apply no_nl_b; reflexivity|].
  cbv zeta. destruct (negb _); apply no_nl_b; reflexivity.
Qed.

Lemma notes_for_no_nl s : ~ In nl (notes_for s).
Proof.
  unfold notes_for.
  destruct (startswith s _); [apply no_nl_b; reflexivity|].
  destruct (contains _ s); apply no_nl_b; reflexivity.
Qed.

Lemma suggest_dto_owner_no_nl n : ~ In nl (suggest_dto_owner n).
Proof.
  unfold suggest_dto_owner.
  destruct (_ || _); [apply no_nl_b; reflexivity|].
  destruct (_ || _); apply no_nl_b; reflexivity.
Qed.

Lemma ident_no_nl x w :
  ident_start x = true -> forallb ident_char w = true -> ~ In nl (x :: w).
Proof.
  intros Hx Hw [H|H].
  - apply ident_start_char in Hx. apply ident_char_not_nl in Hx. contradiction.
  - rewrite forallb_forall in Hw. apply Hw in H.
    apply ident_char_not_nl in H. apply H. reflexivity.
Qed.

(** *** The lines are lines *)

Lemma good_line_bar t : ~ In nl ("|"%char :: t) -> good_line ("|"%char :: t).
Proof. intros H. split; [assumption|]. split; [reflexivity | discriminate]. Qed.

Ltac good_literal :=
  split; [apply no_nl_b; reflexivity | first [exact I | split; [reflexivity | discriminate]]].

Ltac good_list := repeat (apply Forall_cons; [good_literal|]); apply Forall_nil.

Ltac split_In H :=
  repeat match type of H with
         | In _ (_ ++ _) => apply in_app_or in H; destruct H as [H|H]
         end.

Lemma port_row_good name it used :
  ~ In nl name -> ~ In nl (kind it) -> ~ In nl (rel_path it) ->
  (forall p, In p used -> ~ In nl p) ->
  good_line (port_row_text name it used).
Proof.
  intros Hn Hk Hr Hu.
  change (port_row_text name it used)
    with ("|"%char :: (L " `" ++ name ++ L "` | " ++ kind it ++ L " | " ++ rel_path it
                       ++ L " | " ++ example_cell 3 used ++ L " | "
                       ++ suggest_port_target name used ++ L " | "
                       ++ notes_for (suggest_port_target name used) ++ L " |")).
  apply good_line_bar. intros [H|H]; [discriminate H|].
  split_In H; try contradiction;
    try (revert H; apply no_nl_b; reflexivity).
  - revert H. apply example_cell_no_nl. assumption.
  - revert H. apply suggest_port_target_no_nl.
  - revert H. apply notes_for_no_nl.
Qed.

Lemma dto_row_good dto_locs port_locs name :
  ~ In nl name ->
  (forall p, In p dto_locs -> ~ In nl p) -> (forall p, In p port_locs -> ~ In nl p) ->
  good_line (dto_row_text dto_locs port_locs name).
Proof.
  intros Hn Hd Hp.
  change (dto_row_text dto_locs port_locs name)
    with ("|"%char :: (L " `" ++ name ++ L "` | " ++ example_cell 2 dto_locs ++ L " | "
                       ++ example_cell 2 port_locs ++ L " | " ++ suggest_dto_owner name
                       ++ L " | Pick one canonical definition; delete the shadow copy; migrate imports |")).
  apply good_line_bar. intros [H|H]; [discriminate H|].
  split_In H; try contradiction;
    try (revert H; apply no_nl_b; reflexivity).
  - revert H. apply example_cell_no_nl. assumption.
  - revert H. apply example_cell_no_nl. assumption.
  - revert H. apply suggest_dto_owner_no_nl.
Qed.

(** *** What the scanners give to the renderers *)

Lemma index_defs_lookup items n it :
  lookup (index_defs items) n = Some it -> In it items /\ name it = n.
Proof.
  unfold index_defs. rewrite lookup_fold_setdefault. cbn [lookup]. intros H.
  apply find_some in H. destruct H as [H1 H2].
  apply In_sorted in H1. apply str_eqb_eq in H2. auto.
Qed.

Lemma item_fields_no_nl fs dir items it :
  one_line_paths fs -> collect_public_items fs dir = Ok items -> In it items ->
  ~ In nl (name it) /\ ~ In nl (kind it) /\ ~ In nl (rel_path it).
Proof.
  intros Hfs Hc Hi.
  destruct (@collect_public_items_In fs dir items it Hc Hi)
    as (f & contents & m & Hf & Ht & Hr & Hm & Hn & Hk).
  apply finditer_located in Hm. destruct Hm as (pre & r0 & _ & Hm).
  apply PUB_DECL_RE_inv in Hm.
  destruct Hm as (_ & w0 & w1 & kd & w2 & x & w & r' & _ & _ & _ & _ & Hkd & _ & _
                  & Px & Pw & _ & G & _).
  rewrite Hn, Hk, G. cbn. split; [|split].
  - apply ident_no_nl; assumption.
  - destruct Hkd as [<-|[<-|[<-|[<-|[]]]]]; apply no_nl_b; reflexivity.
  - apply In_iter_rs_files in Hf. destruct Hf as [Hf _]. apply (Hfs f (rel_path it) Hf Hr).
Qed.

Lemma usage_paths_no_nl fs roots d :
  one_line_paths fs -> scan_inbound_usages fs roots = Ok d ->
  forall n p, In p (get d n) -> ~ In nl p.
Proof.
  intros Hfs Hs n p Hp.
  destruct (@scan_inbound_usages_spec
              (fun _ p => exists f, In f fs /\ f_rel f = Ok p) fs roots d Hs) with (name := n)
    as (_ & _ & HQ & _).
  - intros root f contents c n0 p0 _ Hf _ Hr _ _ _.
    apply In_iter_rs_files in Hf. destruct Hf as [Hf _]. eauto.
  - destruct (HQ p Hp) as (f & Hf & Hr). apply (Hfs f p Hf Hr).
Qed.

Lemma port_table_lines_good fs dir roots items usage :
  one_line_paths fs ->
  collect_public_items fs dir = Ok items ->
  scan_inbound_usages fs roots = Ok usage ->
  Forall good_line (port_table_lines (index_defs items) usage).
Proof.
  intros Hfs Hc Hs. unfold port_table_lines. apply Forall_app. split.
  - repeat constructor; try (apply no_nl_b; reflexivity); discriminate.
  - apply Forall_forall. intros l Hl. apply in_flat_map in Hl.
    destruct Hl as (n & _ & Hl).
    destruct (lookup (index_defs items) n) as [it|] eqn:Lk; [|destruct Hl].
    destruct Hl as [<-|[]].
    apply index_defs_lookup in Lk. destruct Lk as [Hi Hn].
    destruct (@item_fields_no_nl fs dir items it Hfs Hc Hi) as (N1 & N2 & N3).
    apply port_row_good; try assumption.
    + rewrite <- Hn. assumption.
    + intros p Hp. apply (@usage_paths_no_nl fs roots usage Hfs Hs n p Hp).
Qed.

Lemma port_side_lines_good fs dir roots items usage ph :
  one_line_paths fs ->
  collect_public_items fs dir = Ok items ->
  scan_inbound_usages fs roots = Ok usage ->
  good_line ph ->
  Forall good_line (port_side_lines ph (index_defs items) usage).
Proof.
  intros Hfs Hc Hs Hph. unfold port_side_lines.
  destruct (index_defs items) as [|i d] eqn:E.
  - constructor; [assumption | constructor].
  - rewrite <- E. apply (@port_table_lines_good fs dir roots items usage Hfs Hc Hs).
Qed.

(** The port block holds no line that is an end marker between white
    space, when no path holds a line break. *)
Lemma render_port_no_end_line fs em block :
  one_line_paths fs -> render_port_taxonomy_block fs = Ok block ->
  ~ holds_end_line (end_line em) (rstrip block).
Proof.
  intros Hfs H. apply render_port_Ok_inv in H.
  destruct H as (ei & pi & eu & pu & H1 & H2 & H3 & H4 & _ & ->).
  rewrite rstrip_port_block. apply no_end_line_lines.
  apply Forall_app. split; [good_list|].
  apply Forall_app. split; [apply (@port_side_lines_good fs _ _ ei eu _ Hfs H1 H3); good_literal|].
  apply Forall_app. split; [good_list|].
  apply Forall_app. split; [apply (@port_side_lines_good fs _ _ pi pu _ Hfs H2 H4); good_literal|].
  good_list.
Qed.

(** *** The DTO block *)

Lemma PUB_TYPE_RE_name c a :
  match_at PUB_TYPE_RE c = Some a ->
  exists x w, group 1 (groups a) = x :: w
              /\ ident_start x = true /\ forallb ident_char w = true.
Proof.
  unfold match_at, PUB_TYPE_RE. cbn [seq]. intros H.
  do 6 skip_prefix H.
  rewrite m_Cat in H. apply m_ident_group in H.
  destruct H as (x & w & r' & _ & Px & Pw & H).
  cbn [m] in H. destruct (at_word_boundary _); [|discriminate].
  injection H as <-. exists x, w. auto.
Qed.




Lemma In_collisions dt pt x :
  In x (collisions dt pt) <-> In x (keys dt) /\ In x (keys pt).
Proof.
  unfold collisions. rewrite In_sorted_set, filter_In, mem_In. tauto.
Qed.

Lemma type_name_no_nl fs dir d n :
  collect_public_type_names fs dir = Ok d -> In n (keys d) -> ~ In nl n.
Proof.
  intros Hc Hn. apply type_names_spec in Hc. destruct Hc as (_ & Hk & _).
  apply Hk in Hn. destruct Hn as (f & contents & c & _ & _ & Hm & <-).
  apply finditer_from_match in Hm. destruct Hm as (pv & s & Hm).
  apply PUB_TYPE_RE_name in Hm. destruct Hm as (x & w & -> & Px & Pw).
  apply ident_no_nl; assumption.
Qed.

Lemma type_paths_no_nl fs dir d :
  one_line_paths fs -> collect_public_type_names fs dir = Ok d ->
  forall n p, In p (get d n) -> ~ In nl p.
Proof.
  intros Hfs Hc n p Hp. apply type_names_spec in Hc. destruct Hc as (_ & _ & _ & Hg).
  apply Hg in Hp. destruct Hp as (f & contents & c & Hf & _ & Hr & _).
  apply In_iter_rs_files in Hf. destruct Hf as [Hf _]. apply (Hfs f p Hf Hr).
Qed.

Lemma dto_body_lines_good fs dt pt :
  one_line_paths fs ->
  collect_public_type_names fs (L "crates/engine-dto/src") = Ok dt ->
  collect_public_type_names fs (L "crates/engine-ports/src") = Ok pt ->
  Forall good_line (dto_body_lines dt pt (collisions dt pt)).
Proof.
  intros Hfs H1 H2. unfold dto_body_lines.
  destruct (collisions dt pt) as [|n ns] eqn:E.
  - good_list.
  - rewrite <- E. apply Forall_forall. intros l Hl.
    apply in_map_iff in Hl. destruct Hl as (x & <- & Hx).
    apply In_collisions in Hx. destruct Hx as [Hx _].
    apply dto_row_good.
    + apply (@type_name_no_nl fs _ dt x H1 Hx).
    + intros p Hp. apply (@type_paths_no_nl fs _ dt Hfs H1 x p Hp).
    + intros p Hp. apply (@type_paths_no_nl fs _ pt Hfs H2 x p Hp).
Qed.

Lemma render_dto_no_end_line fs em block :
  one_line_paths fs -> render_dto_ownership_block fs = Ok block ->
  ~ holds_end_line (end_line em) (rstrip block).
Proof.
  intros Hfs H. apply render_dto_Ok_inv in H.
  destruct H as (dt & pt & H1 & H2 & _ & ->).
  rewrite rstrip_dto_block by apply dto_body_lines_nonempty.
  apply no_end_line_lines.
  apply Forall_app. split; [good_list|].
  apply Forall_app. split; [apply (@dto_body_lines_good fs dt pt Hfs H1 H2)|].
  good_list.
Qed.

End LineFacts.

(** ** The steps of a run *)

Module RunFacts.
Import Py Re PyFacts Inventory Chars Terms.
Import LoopFacts SplicerFacts LayoutFacts LineFacts.



(** The two splices of [main] one by one. *)
Lemma spliced_Ok_inv fs original updated :
  spliced fs original = Ok updated ->
  exists port_block dto_block with_ports,
    render_port_taxonomy_block fs = Ok port_block
    /\ render_dto_ownership_block fs = Ok dto_block
    /\ replace_block original (L "PORT TAXONOMY") (L "PORT TAXONOMY") port_block
       = Ok with_ports
    /\ replace_block with_ports (L "DTO OWNERSHIP") (L "DTO OWNERSHIP") dto_block
       = Ok updated.
Proof.
  unfold spliced. intros H.
  apply bind_Ok in H. destruct H as (pb & H1 & H).
  apply bind_Ok in H. destruct H as (db & H2 & H).
  apply bind_Ok in H. destruct H as (u & H3 & H).
  exists pb, db, u. auto.
Qed.


End RunFacts.

(** ** The declaration scanner *)

Module ScannerProps.
Import Py Re PyFacts ReFacts Inventory Chars ScannerFacts LoopFacts ScanFacts.

(** C3 (amended). Every [PubItem] that [collect_public_items] produces has a
    name that begins with an ASCII letter of either case or an underscore and
    goes on with letters, digits and underscores; the first character need
    not be upper case: the line [pub struct lower_case] yields the item
    [lower_case] of kind [struct]. *)
Theorem collect_public_items_names :
  (forall fs dir items it,
      collect_public_items fs dir = Ok items ->
      In it items ->
      exists x w, name it = x :: w
                  /\ ident_start x = true /\ forallb ident_char w = true)
  /\ collect_public_items
       [plain (L "crates/engine-ports/src/inbound/a.rs") (L "pub struct lower_case")]
       (L "crates/engine-ports/src/inbound")
     = Ok [mkPubItem (L "lower_case") (L "struct")
                     (L "crates/engine-ports/src/inbound/a.rs")].
Proof.
  split.
  - intros fs dir items it Hc H.
    destruct (@collect_public_items_In fs dir items it Hc H)
      as (f & contents & m & _ & _ & _ & Hm & Hn & _).
    rewrite Hn. apply finditer_from_match in Hm. destruct Hm as (pv & s & Hm).
    apply PUB_DECL_RE_name in Hm. exact Hm.
  - vm_compute. reflexivity.
Qed.

(** The name of the item found in [pub trait Foo {] has that shape. *)
Lemma collect_public_items_names_witness :
  exists x w, L "Foo" = x :: w /\ ident_start x = true /\ forallb ident_char w = true.
Proof.
  apply (proj1 collect_public_items_names
           [plain (L "crates/engine-ports/src/inbound/a.rs") (L "pub trait Foo {")]
           (L "crates/engine-ports/src/inbound")
           [mkPubItem (L "Foo") (L "trait") (L "crates/engine-ports/src/inbound/a.rs")]
           (mkPubItem (L "Foo") (L "trait") (L "crates/engine-ports/src/inbound/a.rs"))).
  - vm_compute. reflexivity.
  - left. reflexivity.
Defined.

(** C3, as stated, fails: the line [pub struct lower_case] yields an item,
    and its name does not begin with an upper-case letter. *)
Lemma collect_public_items_lower_case :
  exists items it,
    collect_public_items
      [plain (L "crates/engine-ports/src/inbound/a.rs") (L "pub struct lower_case")]
      (L "crates/engine-ports/src/inbound") = Ok items
    /\ In it items
    /\ name it = L "lower_case"
    /\ match name it with x :: _ => is_upper x | [] => false end = false.
Proof.
  eexists. eexists. split; [vm_compute; reflexivity|].
  split; [left; reflexivity|]. split; reflexivity.
Qed.

End ScannerProps.

(** ** The block splicer *)

Module SplicerProps.
Import Py Re PyFacts ReFacts Inventory Chars Terms BlockFacts Examples.
Import SplicerFacts LineFacts.

(** C1, what the code does where the claim asks for a fatal error: with two
    blocks for the same label in the document, [replace_block] raises
    nothing; it replaces the first block, leaves the second as it was, and
    returns.  With the start marker written twice before one end marker it
    returns as well, and replaces all from the first start marker on. *)
Theorem replace_block_two_blocks :
  replace_block two_blocks (L "X") (L "X") (L "NEW")
  = Ok (lines [ "%% X %%"; ""; "NEW"; ""; "%% /X %%"; "mid";
                "%% X %%"; "b"; "%% /X %%"; "" ]%string)
  /\ replace_block two_starts (L "X") (L "X") (L "NEW")
     = Ok (lines [ "%% X %%"; ""; "NEW"; ""; "%% /X %%" ]%string).
Proof. split; vm_compute; reflexivity. Qed.

(** Without any block the splicer does raise. *)
Lemma replace_block_no_block :
  replace_block (L "no markers here") (L "X") (L "X") (L "NEW")
  = Raise (RuntimeError
             (L "Expected exactly 1 replace for markers %% X %%..%% /X %%, got 0")).
Proof. vm_compute. reflexivity. Qed.

(** C2 (amended). For an end-marker label without a line break: when
    [replace_block] succeeds, applying it again to its output with the same
    markers and the same replacement returns that output unchanged exactly
    when the right-stripped replacement holds no line that is the end
    marker between white space.  The blocks of the two renderers hold no
    such line when no recorded path holds a line break, so a rendered
    block spliced a second time changes nothing. *)
Theorem replace_block_idempotent :
  (forall text start_marker end_marker replacement out,
      contains [nl] end_marker = false ->
      replace_block text start_marker end_marker replacement = Ok out ->
      (replace_block out start_marker end_marker replacement = Ok out
       <-> ~ holds_end_line (end_line end_marker) (rstrip replacement)))
  /\ (forall fs end_marker block,
         one_line_paths fs ->
         render_port_taxonomy_block fs = Ok block
         \/ render_dto_ownership_block fs = Ok block ->
         ~ holds_end_line (end_line end_marker) (rstrip block))
  /\ (forall fs text start_marker end_marker block out,
         contains [nl] end_marker = false ->
         one_line_paths fs ->
         render_port_taxonomy_block fs = Ok block
         \/ render_dto_ownership_block fs = Ok block ->
         replace_block text start_marker end_marker block = Ok out ->
         replace_block out start_marker end_marker block = Ok out).
Proof.
  assert (A : forall text start_marker end_marker replacement out,
             contains [nl] end_marker = false ->
             replace_block text start_marker end_marker replacement = Ok out ->
             (replace_block out start_marker end_marker replacement = Ok out
              <-> ~ holds_end_line (end_line end_marker) (rstrip replacement))).
  { intros text sm em r out He H1. apply no_newline_In in He.
    apply replace_block_Ok_inv in H1. destruct H1 as (pre & c & Sr & ->).
    destruct (@search_spliced_markers sm em (rstrip r) text pre c He Sr)
      as (c2 & S2 & R2).
    rewrite replace_block_search, S2. rewrite <- R2.
    remember (start_line sm ++ [nl; nl] ++ rstrip r ++ [nl; nl] ++ end_line em)
      as X eqn:EX.
    clear EX. split.
    - intros H. assert (E : pre ++ X ++ rest c2 = pre ++ X ++ rest c) by congruence.
      apply app_inv_head in E. apply app_inv_head in E. exact E.
    - intros ->. reflexivity. }
  assert (B : forall fs end_marker block,
             one_line_paths fs ->
             render_port_taxonomy_block fs = Ok block
             \/ render_dto_ownership_block fs = Ok block ->
             ~ holds_end_line (end_line end_marker) (rstrip block)).
  { intros fs em block Hfs [H|H].
    - apply (@render_port_no_end_line fs em block Hfs H).
    - apply (@render_dto_no_end_line fs em block Hfs H). }
  split; [exact A|]. split; [exact B|].
  intros fs text sm em block out He Hfs Hb H1.
  apply (A text sm em block out He H1). apply (B fs em block Hfs Hb).
Qed.

(** The DTO block of a tree with one colliding type, spliced twice. *)
Lemma replace_block_idempotent_witness :
  exists block out,
    render_dto_ownership_block fs_shared = Ok block
    /\ replace_block
         (lines [ "intro"; "%% DTO OWNERSHIP %%"; "old"; "  %% /DTO OWNERSHIP %%  ";
                  ""; "outro" ]%string)
         (L "DTO OWNERSHIP") (L "DTO OWNERSHIP") block = Ok out
    /\ replace_block out (L "DTO OWNERSHIP") (L "DTO OWNERSHIP") block = Ok out.
Proof.
  eexists. eexists. split; [vm_compute; reflexivity|].
  split; [vm_compute; reflexivity|].
  apply (proj2 (proj2 replace_block_idempotent) fs_shared
           (lines [ "intro"; "%% DTO OWNERSHIP %%"; "old"; "  %% /DTO OWNERSHIP %%  ";
                    ""; "outro" ]%string)).
  - vm_compute. reflexivity.
  - intros f p Hf Hp.
    repeat (destruct Hf as [<-|Hf];
            [injection Hp as <-; apply no_nl_b; vm_compute; reflexivity|]).
    destruct Hf.
  - right. vm_compute. reflexivity.
  - vm_compute. reflexivity.
Defined.

(** C2, as stated, fails: with a replacement that itself holds an end-marker
    line, the second application changes the output of the first. *)
Lemma replace_block_not_idempotent :
  exists out,
    replace_block (lines [ "%% X %%"; "%% /X %%" ]%string) (L "X") (L "X")
                  (lines [ "%% /X %%"; "foo" ]%string) = Ok out
    /\ replace_block out (L "X") (L "X") (lines [ "%% /X %%"; "foo" ]%string)
       = Ok (lines [ "%% X %%"; ""; "%% /X %%"; "foo"; ""; "%% /X %%";
                     "foo"; ""; "%% /X %%" ]%string)
    /\ replace_block out (L "X") (L "X") (lines [ "%% /X %%"; "foo" ]%string)
       <> Ok out.
Proof.
  eexists. split; [vm_compute; reflexivity|].
  split; [vm_compute; reflexivity | vm_compute; discriminate].
Qed.

(** A replacement that only mentions the end marker within a line is
    spliced twice without change. *)
Lemma replace_block_marker_within_a_line :
  exists out,
    replace_block (lines [ "%% X %%"; "%% /X %%" ]%string) (L "X") (L "X")
                  (L "see %% /X %% here") = Ok out
    /\ replace_block out (L "X") (L "X") (L "see %% /X %% here") = Ok out.
Proof. eexists. split; vm_compute; reflexivity. Qed.

(** The end-marker label must be a single line for that: with a line break
    in it, a replacement that holds no end line can still complete one
    together with the marker written after it. *)
Lemma replace_block_end_label_with_line_break :
  ~ holds_end_line (end_line (lines [ " %%"; ""; "%% /" ]%string))
                   (rstrip (L "%% / %%"))
  /\ exists out,
       replace_block (lines [ "%% X %%"; "old"; "%% / %%"; ""; "%% / %%" ]%string)
                     (L "X") (lines [ " %%"; ""; "%% /" ]%string) (L "%% / %%")
       = Ok out
       /\ replace_block out (L "X") (lines [ " %%"; ""; "%% /" ]%string) (L "%% / %%")
          <> Ok out.
Proof.
  split.
  - intros (a & u2 & u3 & b & H & _).
    assert (E7 : rstrip (L "%% / %%") = L "%% / %%") by reflexivity.
    rewrite E7 in H.
    apply (f_equal (@length ascii)) in H. rewrite !length_app in H.
    change (length (L "%% / %%")) with 7 in H.
    change (length (end_line (lines [ " %%"; ""; "%% /" ]%string))) with 16 in H.
    lia.
  - eexists. split; [vm_compute; reflexivity | vm_compute; discriminate].
Qed.

End SplicerProps.

(** ** The classifier *)

Module ClassifierProps.
Import Py Re PyFacts Inventory Chars.

(** C5. A name of the boundary-DTO exception list is classified
    [inbound (boundary DTO)] whatever its usage paths are, also when all of
    them lie outside the boundary directories; the boundary-trait exception
    likewise comes before the rule on usage locations. *)
Theorem boundary_dto_exception_first (usage_paths : list str) :
  (forall item_name,
      In item_name [L "RequestContext"; L "UseCaseContext"] ->
      suggest_port_target item_name usage_paths = L "inbound (boundary DTO)")
  /\ suggest_port_target (L "RequestHandler") usage_paths
     = L "inbound (boundary trait)".
Proof.
  split.
  - intros item_name H. unfold suggest_port_target.
    apply mem_In in H. rewrite H. reflexivity.
  - reflexivity.
Qed.

(** [RequestContext], used only from a services file. *)
Lemma boundary_dto_exception_first_witness :
  suggest_port_target (L "RequestContext")
    [L "crates/engine-app/src/services/world.rs"] = L "inbound (boundary DTO)"
  /\ is_boundary_path (L "crates/engine-app/src/services/world.rs") = false.
Proof.
  split.
  - apply (proj1 (boundary_dto_exception_first
                    [L "crates/engine-app/src/services/world.rs"])).
    simpl. left. reflexivity.
  - vm_compute. reflexivity.
Defined.

(** C6. For a name outside the exception lists that does not end with
    [UseCasePort]: a non-empty list of usage paths with at least one path
    that fails the boundary test gives [outbound (misplaced today)]; an
    empty list, or one whose paths all pass the test, gives [inbound]. *)
Theorem usage_location_rule (item_name : str) (usage_paths : list str) :
  mem item_name [L "RequestContext"; L "UseCaseContext"] = false ->
  mem item_name [L "RequestHandler"] = false ->
  endswith item_name (L "UseCasePort") = false ->
  (usage_paths <> [] ->
   (exists p, In p usage_paths /\ is_boundary_path p = false) ->
   suggest_port_target item_name usage_paths = L "outbound (misplaced today)")
  /\ (usage_paths = []
      \/ (forall p, In p usage_paths -> is_boundary_path p = true) ->
      suggest_port_target item_name usage_paths = L "inbound").
Proof.
  intros H1 H2 H3. unfold suggest_port_target. rewrite H1, H2, H3. split.
  - intros Hne (p & Hp & Hb). destruct usage_paths as [|q t]; [congruence|].
    assert (F : forallb is_boundary_path (q :: t) = false).
    { destruct (forallb is_boundary_path (q :: t)) eqn:F; [|reflexivity].
      rewrite forallb_forall in F. rewrite (F p Hp) in Hb. discriminate. }
    rewrite F. reflexivity.
  - intros [->|Hall]; [reflexivity|].
    destruct usage_paths as [|q t]; [reflexivity|].
    assert (F : forallb is_boundary_path (q :: t) = true).
    { apply forallb_forall. assumption. }
    rewrite F. reflexivity.
Qed.

(** [WorldService] with a handler and a service usage, with a handler usage
    only, and without usage. *)
Lemma usage_location_rule_witness :
  suggest_port_target (L "WorldService")
    [L "crates/engine-app/src/application/handlers/a.rs";
     L "crates/engine-app/src/services/world.rs"] = L "outbound (misplaced today)"
  /\ suggest_port_target (L "WorldService")
       [L "crates/engine-app/src/application/handlers/a.rs"] = L "inbound"
  /\ suggest_port_target (L "WorldService") [] = L "inbound".
Proof.
  split; [|split].
  - apply (usage_location_rule (L "WorldService")
             [L "crates/engine-app/src/application/handlers/a.rs";
              L "crates/engine-app/src/services/world.rs"]);
      try (vm_compute; reflexivity); [discriminate|].
    exists (L "crates/engine-app/src/services/world.rs").
    split; [right; left; reflexivity | vm_compute; reflexivity].
  - apply (usage_location_rule (L "WorldService")
             [L "crates/engine-app/src/application/handlers/a.rs"]);
      try (vm_compute; reflexivity).
    right. intros p [<-|[]]. vm_compute. reflexivity.
  - apply (usage_location_rule (L "WorldService") []);
      try (vm_compute; reflexivity).
    left. reflexivity.
Defined.

End ClassifierProps.

(** ** The table renderer *)

Module RendererProps.
Import Py Re PyFacts Inventory Chars Terms Examples.
Import TextFacts LoopFacts ScanFacts LayoutFacts.

Lemma firstn_whole (A : Type) n (l : list A) : length l <= n -> firstn n l = l.
Proof.
  revert l. induction n as [|n IH]; intros l H.
  - destruct l; [reflexivity | simpl in H; lia].
  - destruct l as [|x l]; [reflexivity|]. simpl in H. simpl. f_equal. apply IH. lia.
Qed.

(** C4 (amended). In the rendered port block every row of a table is the
    text [port_row_text] of an indexed item, whose cell of usage examples
    is [example_cell 3] of the usage list; in the rendered DTO block every
    row is the text [dto_row_text], whose two cells of example locations
    are [example_cell 2] of the location lists.  A cell shows the whole
    list when it has no more paths than the limit, and otherwise the first
    paths up to the limit followed by [(+K more)], K being the number of
    paths left out; an empty list gives an empty cell, and five usage
    files give three paths and [(+2 more)], as in the port block of a tree
    with a trait used in five files. *)
Theorem example_cells :
  (forall fs block,
      render_port_taxonomy_block fs = Ok block ->
      exists engine_items player_items engine_usage player_usage,
        collect_public_items fs (L "crates/engine-ports/src/inbound") = Ok engine_items
        /\ collect_public_items fs (L "crates/player-ports/src/inbound") = Ok player_items
        /\ scan_inbound_usages fs [L "crates/engine-app/src"] = Ok engine_usage
        /\ scan_inbound_usages fs [L "crates/player-app/src"; L "crates/player-ui/src"]
           = Ok player_usage
        /\ block = port_block_text
                     (port_side_lines (L "_No engine inbound items found (unexpected)._ ")
                                      (index_defs engine_items) engine_usage)
                     (port_side_lines (L "_No player inbound items found (unexpected)._ ")
                                      (index_defs player_items) player_usage))
  /\ (forall fs block,
         render_dto_ownership_block fs = Ok block ->
         exists dto_types port_types,
           collect_public_type_names fs (L "crates/engine-dto/src") = Ok dto_types
           /\ collect_public_type_names fs (L "crates/engine-ports/src") = Ok port_types
           /\ block = dto_block_text
                        (dto_body_lines dto_types port_types
                                        (collisions dto_types port_types)))
  /\ (forall limit paths,
         (length paths <= limit -> example_cell limit paths = join (L ", ") paths)
         /\ (limit < length paths ->
             exists shown omitted,
               paths = shown ++ omitted /\ length shown = limit /\ omitted <> []
               /\ example_cell limit paths
                  = join (L ", ") shown
                    ++ L " (+" ++ str_of_nat (length omitted) ++ L " more)"))
  /\ (forall p1 p2 p3 p4 p5,
         example_cell 3 [p1; p2; p3; p4; p5]
         = p1 ++ L ", " ++ p2 ++ L ", " ++ p3 ++ L " (+2 more)")
  /\ example_cell 3 [] = []
  /\ render_port_taxonomy_block fs_five
     = Ok (lines
             [ "#### Engine inbound taxonomy"; "";
               "| Item | Kind | Defined in | Used in app/UI (examples) | Suggested target | Notes |";
               "|---|---|---|---|---|---|";
               "| `Clock` | trait | crates/engine-ports/src/inbound/p.rs | crates/engine-app/src/a.rs, crates/engine-app/src/b.rs, crates/engine-app/src/c.rs (+2 more) | outbound (misplaced today) | Move to outbound; update app deps; remove inbound re-export |";
               "";
               "#### Player inbound taxonomy"; "";
               "_No player inbound items found (unexpected)._ "; "";
               "_Regenerate with `task arch:inventories`._"; "" ]%string).
Proof.
  split; [|split; [|split; [|split; [|split]]]].
  - intros fs block H. apply render_port_Ok_inv in H.
    destruct H as (ei & pi & eu & pu & H1 & H2 & H3 & H4 & _ & H6).
    exists ei, pi, eu, pu. auto 6.
  - intros fs block H. apply render_dto_Ok_inv in H.
    destruct H as (dt & pt & H1 & H2 & _ & H4). exists dt, pt. auto.
  - intros limit paths. unfold example_cell. split.
    + intros H. rewrite firstn_whole by assumption.
      assert (E : (limit <? length paths) = false) by (apply Nat.ltb_ge; assumption).
      rewrite E. apply app_nil_r.
    + intros H. exists (firstn limit paths), (skipn limit paths).
      split; [symmetry; apply firstn_skipn|].
      split; [apply firstn_length_le; lia|].
      split.
      { intros E. apply (f_equal (@length str)) in E. rewrite length_skipn in E.
        simpl in E. lia. }
      assert (E : (limit <? length paths) = true) by (apply Nat.ltb_lt; assumption).
      rewrite E, length_skipn. reflexivity.
  - intros p1 p2 p3 p4 p5. unfold example_cell. cbn [firstn length Nat.ltb Nat.leb].
    cbn [join Nat.sub]. rewrite <- !app_assoc. reflexivity.
  - reflexivity.
  - vm_compute. reflexivity.
Qed.

(** The port block of the tree with a trait used in five files. *)
Lemma example_cells_witness :
  exists engine_items player_items engine_usage player_usage,
    collect_public_items fs_five (L "crates/engine-ports/src/inbound") = Ok engine_items
    /\ collect_public_items fs_five (L "crates/player-ports/src/inbound") = Ok player_items
    /\ scan_inbound_usages fs_five [L "crates/engine-app/src"] = Ok engine_usage
    /\ scan_inbound_usages fs_five [L "crates/player-app/src"; L "crates/player-ui/src"]
       = Ok player_usage
    /\ lines
         [ "#### Engine inbound taxonomy"; "";
           "| Item | Kind | Defined in | Used in app/UI (examples) | Suggested target | Notes |";
           "|---|---|---|---|---|---|";
           "| `Clock` | trait | crates/engine-ports/src/inbound/p.rs | crates/engine-app/src/a.rs, crates/engine-app/src/b.rs, crates/engine-app/src/c.rs (+2 more) | outbound (misplaced today) | Move to outbound; update app deps; remove inbound re-export |";
           "";
           "#### Player inbound taxonomy"; "";
           "_No player inbound items found (unexpected)._ "; "";
           "_Regenerate with `task arch:inventories`._"; "" ]%string
       = port_block_text
           (port_side_lines (L "_No engine inbound items found (unexpected)._ ")
                            (index_defs engine_items) engine_usage)
           (port_side_lines (L "_No player inbound items found (unexpected)._ ")
                            (index_defs player_items) player_usage).
Proof.
  apply (proj1 example_cells fs_five). vm_compute. reflexivity.
Defined.

(** C4, as stated, fails in the DTO table: a type with three locations in
    engine-dto is shown with two of them and [(+1 more)]. *)
Lemma dto_cell_shows_two :
  render_dto_ownership_block fs_dto3
  = Ok (lines
          [ "| Type name | engine-dto (examples) | engine-ports (examples) | Suggested owner | Notes |";
            "|---|---|---|---|---|";
            "| `Shared` | crates/engine-dto/src/a.rs, crates/engine-dto/src/b.rs (+1 more) | crates/engine-ports/src/p.rs | TBD | Pick one canonical definition; delete the shadow copy; migrate imports |";
            ""; "_Regenerate with `task arch:inventories`._"; "" ]%string)
  /\ (exists dto_types,
         collect_public_type_names fs_dto3 (L "crates/engine-dto/src") = Ok dto_types
         /\ get dto_types (L "Shared")
            = map L [ "crates/engine-dto/src/a.rs"; "crates/engine-dto/src/b.rs";
                      "crates/engine-dto/src/c.rs" ]%string).
Proof.
  split; [vm_compute; reflexivity|].
  eexists. split; vm_compute; reflexivity.
Qed.

(** C7 (amended). When a side has no declared inbound item, the port block
    holds one fixed placeholder line in the place of that side's table: a
    line of prose, not a table row, and no header either.  When no type
    name collides, the DTO table keeps its header and its body is the one
    row [| _(none)_ |  |  |  |  |]. *)
Theorem empty_result_placeholder :
  (forall fs block,
      collect_public_items fs (L "crates/engine-ports/src/inbound") = Ok [] ->
      render_port_taxonomy_block fs = Ok block ->
      exists player_part,
        block =
        join [nl]
          [ L "#### Engine inbound taxonomy"; [];
            L "_No engine inbound items found (unexpected)._ "; [];
            L "#### Player inbound taxonomy"; []; player_part; [];
            L "_Regenerate with `task arch:inventories`._" ]
        ++ [nl])
  /\ (forall fs block,
         collect_public_items fs (L "crates/player-ports/src/inbound") = Ok [] ->
         render_port_taxonomy_block fs = Ok block ->
         exists engine_part,
           block =
           join [nl]
             [ L "#### Engine inbound taxonomy"; []; engine_part; [];
               L "#### Player inbound taxonomy"; [];
               L "_No player inbound items found (unexpected)._ "; [];
               L "_Regenerate with `task arch:inventories`._" ]
           ++ [nl])
  /\ (forall fs dto_types port_types,
         collect_public_type_names fs (L "crates/engine-dto/src") = Ok dto_types ->
         collect_public_type_names fs (L "crates/engine-ports/src") = Ok port_types ->
         collisions dto_types port_types = [] ->
         render_dto_ownership_block fs =
         Ok (lines [ "| Type name | engine-dto (examples) | engine-ports (examples) | Suggested owner | Notes |";
                     "|---|---|---|---|---|";
                     "| _(none)_ |  |  |  |  |";
                     "";
                     "_Regenerate with `task arch:inventories`._";
                     "" ]%string)).
Proof.
  split; [|split].
  - intros fs block He H. apply render_port_Ok_inv in H.
    destruct H as (ei & pi & eu & pu & H1 & _ & _ & _ & H5 & _).
    assert (E : ei = []) by congruence. subst ei.
    rewrite strip_port_lines in H5. rewrite H5. unfold port_taxonomy_lines.
    cbn [index_defs sorted fold_right fold_left app].
    eexists. reflexivity.
  - intros fs block Hp H. apply render_port_Ok_inv in H.
    destruct H as (ei & pi & eu & pu & _ & H2 & _ & _ & H5 & _).
    assert (E : pi = []) by congruence. subst pi.
    rewrite strip_port_lines in H5. rewrite H5. unfold port_taxonomy_lines.
    cbn [index_defs sorted fold_right fold_left app].
    eexists. reflexivity.
  - intros fs dt pt H1 H2 Hc. unfold render_dto_ownership_block.
    rewrite H1, H2. cbn [bind]. rewrite dto_block_layout, Hc. reflexivity.
Qed.

(** The DTO block of an empty tree. *)
Lemma empty_result_placeholder_witness :
  render_dto_ownership_block [] =
  Ok (lines [ "| Type name | engine-dto (examples) | engine-ports (examples) | Suggested owner | Notes |";
              "|---|---|---|---|---|";
              "| _(none)_ |  |  |  |  |";
              "";
              "_Regenerate with `task arch:inventories`._";
              "" ]%string).
Proof.
  apply (proj2 (proj2 empty_result_placeholder) [] [] []); vm_compute; reflexivity.
Defined.

(** C7, as stated, fails for the port tables: the block of a tree without
    any inbound item has no table row at all. *)
Lemma port_placeholder_is_no_table_row :
  render_port_taxonomy_block [] =
  Ok (lines [ "#### Engine inbound taxonomy"; "";
              "_No engine inbound items found (unexpected)._ "; "";
              "#### Player inbound taxonomy"; "";
              "_No player inbound items found (unexpected)._ "; "";
              "_Regenerate with `task arch:inventories`._"; "" ]%string)
  /\ existsb is_table_row
       (split [nl]
          (lines [ "#### Engine inbound taxonomy"; "";
                   "_No engine inbound items found (unexpected)._ "; "";
                   "#### Player inbound taxonomy"; "";
                   "_No player inbound items found (unexpected)._ "; "";
                   "_Regenerate with `task arch:inventories`._"; "" ]%string))
     = false.
Proof. split; vm_compute; reflexivity. Qed.

End RendererProps.

(** ** The DTO collision detector *)

Module CollisionProps.
Import Py Re PyFacts ReFacts Inventory Chars Terms Examples.
Import OrderFacts LoopFacts ScanFacts LayoutFacts LineFacts.




End CollisionProps.

(** ** The command *)

Module CommandProps.
Import Py Re PyFacts Inventory Chars Terms Examples.
Import LoopFacts SplicerFacts LayoutFacts LineFacts RunFacts.




(** A stale plan: check mode reports it, write mode rewrites it once. *)
Lemma check_mode_stale_example :
  main true (workspace [] plan_skeleton []) =
  (Returned 1 (L "Inventories out of date (run `task arch:inventories`)"),
   workspace [] plan_skeleton [])
  /\ snd (main false (workspace [] plan_skeleton []))
     = workspace [] plan_current [plan_current].
Proof. split; vm_compute; reflexivity. Qed.

(** A missing plan ends the run with the exception of the read. *)
Lemma check_mode_missing_plan :
  main true (mkWorld [] (Raise (FileNotFoundError MASTER_PLAN)) (Ok MASTER_PLAN) [])
  = (Uncaught (FileNotFoundError MASTER_PLAN),
     mkWorld [] (Raise (FileNotFoundError MASTER_PLAN)) (Ok MASTER_PLAN) []).
Proof. reflexivity. Qed.

End CommandProps.

(** ** The variant parser *)

Module VariantProps.
Import Py Re PyFacts ReFacts Inventory Chars Payloads Terms.

Lemma find_lower (sub s : str) : (-1 <= find sub s)%Z.
Proof.
  induction s as [|x t IH]; simpl.
  - destruct (startswith [] sub); lia.
  - destruct (startswith (x :: t) sub); [lia|].
    destruct (find sub t <? 0)%Z eqn:E; [lia|]. apply Z.ltb_ge in E. lia.
Qed.

Lemma find_contains (sub s : str) :
  find sub s = (-1)%Z <-> contains sub s = false.
Proof.
  induction s as [|x t IH]; simpl.
  - destruct (startswith [] sub); simpl; split; (discriminate || reflexivity).
  - destruct (startswith (x :: t) sub); simpl; [split; discriminate|].
    rewrite <- IH. pose proof (find_lower sub t) as Lo.
    destruct (find sub t <? 0)%Z eqn:E.
    + apply Z.ltb_lt in E. split; [lia | reflexivity].
    + apply Z.ltb_ge in E. split; lia.
Qed.

(** Where [find] finds something, the text splits there. *)
Lemma find_split (sub s : str) :
  find sub s <> (-1)%Z ->
  exists a b, s = a ++ sub ++ b /\ find sub s = Z.of_nat (length a)
              /\ slice_from (find sub s) s = sub ++ b
              /\ (forall a' b', s = a' ++ sub ++ b' -> length a <= length a').
Proof.
  induction s as [|x t IH]; simpl.
  - destruct (startswith [] sub) eqn:P; [|congruence].
    intros _. apply startswith_spec in P. destruct P as (r & P).
    exists [], r. repeat split; auto. intros; simpl; lia.
  - destruct (startswith (x :: t) sub) eqn:P.
    + intros _. apply startswith_spec in P. destruct P as (r & P).
      exists [], r. repeat split; auto. intros; simpl; lia.
    + pose proof (find_lower sub t) as Lo.
      destruct (find sub t <? 0)%Z eqn:E; [congruence|].
      apply Z.ltb_ge in E. intros _.
      destruct IH as (a & b & Es & Ef & Esl & Min); [lia|].
      exists (x :: a), b. simpl. repeat split.
      * congruence.
      * rewrite Ef. lia.
      * unfold slice_from in *. rewrite Ef in *.
        replace (Z.to_nat (Z.of_nat (length a) + 1)) with (S (length a)) by lia.
        rewrite Nat2Z.id in Esl. simpl. assumption.
      * intros a' b' E'. destruct a' as [|y a']; simpl in *.
        -- assert (Q : startswith (x :: t) sub = true).
           { apply startswith_spec. eauto. }
           congruence.
        -- injection E' as -> E'. apply Min in E'. lia.
Qed.

(** The text searched for the end of the enum starts after the first
    opening brace that follows the start of the header; without such a
    brace it starts at the header. *)
Lemma enum_body_after_brace (text : str) :
  contains header text = true ->
  exists a b,
    text = a ++ header ++ b
    /\ (forall a' b', text = a' ++ header ++ b' -> length a <= length a')
    /\ ((contains (L "{") (header ++ b) = false /\ enum_body text = header ++ b)
        \/ (exists c d,
               header ++ b = c ++ L "{" ++ d
               /\ contains (L "{") c = false
               /\ enum_body text = d)).
Proof.
  intros H. unfold enum_body.
  destruct (@find_split header text) as (a & b & E & F & Sl & Min).
  { intros N. apply find_contains in N. congruence. }
  exists a, b. split; [assumption|]. split; [assumption|].
  rewrite Sl.
  destruct (contains (L "{") (header ++ b)) eqn:C.
  - right.
    destruct (@find_split (L "{") (header ++ b)) as (c & d & E2 & F2 & _ & Min2).
    { intros N. apply find_contains in N. congruence. }
    exists c, d. split; [assumption|]. split.
    + destruct (contains (L "{") c) eqn:Cc; [|reflexivity].
      apply contains_spec in Cc. destruct Cc as (c1 & c2 & ->).
      specialize (Min2 c1 (c2 ++ L "{" ++ d)).
      rewrite E2, <- !app_assoc in Min2. specialize (Min2 eq_refl).
      rewrite !length_app in Min2. simpl in Min2. lia.
    + rewrite F2. unfold slice_from.
      replace (Z.to_nat (Z.of_nat (length c) + 1)) with (length c + 1) by lia.
      rewrite E2, skipn_app, skipn_all2 by lia.
      replace (length c + 1 - length c) with 1 by lia. reflexivity.
  - left. split; [reflexivity|].
    apply find_contains in C. rewrite C. reflexivity.
Qed.

Lemma END_RE_match pv s g a :
  match_at END_RE (mkCur pv s g) = Some a ->
  exists w r', s = [nl] ++ L "}" ++ w ++ [nl] ++ r' /\ ws w = true.
Proof.
  unfold match_at, END_RE. cbn [seq m rest]. intros H.
  destruct (strip_prefix [nl] s) as [r1|] eqn:P1; [|discriminate].
  apply strip_prefix_Some in P1. subst s.
  unfold after in H. cbn [prev rest groups] in H.
  destruct (strip_prefix (L "}") r1) as [r2|] eqn:P2; [|discriminate].
  apply strip_prefix_Some in P2. subst r1.
  apply star_greedy_Some in H. destruct H as (w & r3 & E3 & W & H & _).
  cbn [rest] in H.
  destruct (strip_prefix [nl] r3) as [r4|] eqn:P4; [|discriminate].
  apply strip_prefix_Some in P4. subst r3 r2.
  exists w, r4. split; [reflexivity | assumption].
Qed.

Lemma END_RE_intro pv s g w r' :
  s = [nl] ++ L "}" ++ w ++ [nl] ++ r' -> ws w = true ->
  match_at END_RE (mkCur pv s g) <> None.
Proof.
  intros -> W. unfold match_at, END_RE. cbn [seq m rest].
  rewrite strip_prefix_app. unfold after. cbn [prev rest groups].
  rewrite strip_prefix_app.
  intros N. rewrite star_greedy_None in N.
  specialize (N w _ eq_refl W). cbn [rest] in N.
  rewrite strip_prefix_app in N. discriminate.
Qed.


Lemma search_END_RE_Some body before c :
  search END_RE body = Some (before, c) ->
  (exists w post, body = before ++ [nl] ++ L "}" ++ w ++ [nl] ++ post /\ ws w = true)
  /\ (forall pre w post,
         body = pre ++ [nl] ++ L "}" ++ w ++ [nl] ++ post -> ws w = true ->
         length before <= length pre).
Proof.
  unfold search. intros H. apply search_from_Some in H.
  destruct H as (r0 & E & M & Min). split.
  - apply END_RE_match in M. destruct M as (w & r' & -> & W). eauto.
  - intros pre w post E' W.
    destruct (le_lt_dec (length before) (length pre)) as [Le|Lt]; [assumption|].
    exfalso. specialize (Min pre _ E' Lt). revert Min.
    eapply END_RE_intro; eauto.
Qed.

Lemma dedup_spec variants :
  forall seen ordered,
    (forall u, In u seen <-> In u ordered) -> NoDup ordered ->
    NoDup (dedup variants seen ordered)
    /\ (forall u, In u (dedup variants seen ordered) <-> In u ordered \/ In u variants)
    /\ exists l', dedup variants seen ordered = ordered ++ l'.
Proof.
  induction variants as [|v t IH]; intros seen ordered Inv Nd; simpl.
  - split; [assumption|]. split; [tauto|]. exists []. symmetry. apply app_nil_r.
  - destruct (mem v seen) eqn:M; simpl.
    + apply mem_In in M. destruct (IH seen ordered Inv Nd) as (N & I & P).
      split; [assumption|]. split; [|assumption].
      intros u. rewrite I. apply Inv in M. intuition. subst. auto.
    + assert (Hv : ~ In v ordered).
      { intros Hv. apply Inv, mem_In in Hv. congruence. }
      destruct (IH (v :: seen) (ordered ++ [v])) as (N & I & (l' & P)).
      * intros u. simpl. rewrite in_app_iff, Inv. simpl. tauto.
      * apply NoDup_app; [assumption | repeat constructor; simpl; tauto |].
        intros u Hu [<-|[]]. contradiction.
      * split; [assumption|]. split.
        -- intros u. rewrite I, in_app_iff. simpl. tauto.
        -- exists (v :: l'). rewrite P, <- app_assoc. reflexivity.
Qed.





(** Line breaks count among the four white-space characters: after an
    empty line a name indented by three spaces is returned. *)
Lemma parse_accepts_three_spaces_after_empty_line :
  parse_request_payload_variants
    (lines [ "pub enum RequestPayload {"; ""; "   Foo,"; "}"; "" ]%string)
  = Ok [L "Foo"].
Proof. vm_compute. reflexivity. Qed.

End VariantProps.

(** ** The splicer: which block is replaced, and when there is one *)

Module SplicerFrame.
Import Py Re PyFacts ReFacts Inventory Chars Terms BlockFacts Shapes TextFacts.
Import SplicerFacts.

(** X1. A successful [replace_block] rewrites one block and nothing else.
    The block is the first one of the document: no block starts further to
    the left.  It goes from the start line, over white space up to a line
    break and any text, to the first line that is the end marker between
    white space, and takes with it the longest run of white space after
    the end marker that a line end follows.  The text before the start
    line and the text after that white space are kept; the start and end
    lines are written back without the white space around them, and
    between them stand an empty line, the replacement without its
    trailing white space and an empty line. *)
Theorem replace_block_frame (text start_marker end_marker replacement out : str) :
  replace_block text start_marker end_marker replacement = Ok out ->
  exists pre w1 mid w2 w3 post,
    text = pre ++ start_line start_marker ++ (w1 ++ [nl] ++ mid ++ w2)
               ++ end_line end_marker ++ w3 ++ post
    /\ out = pre ++ start_line start_marker ++ [nl; nl] ++ rstrip replacement
                 ++ [nl; nl] ++ end_line end_marker ++ post
    /\ bol (last_opt pre None) = true
    /\ ws w1 = true /\ bol (last_opt mid (Some nl)) = true /\ ws w2 = true
    /\ ws w3 = true /\ eol post = true
    /\ (forall w3' post',
           w3 ++ post = w3' ++ post' -> ws w3' = true ->
           length w3 < length w3' -> eol post' = false)
    /\ (forall a u2 u3 b,
           (w1 ++ [nl] ++ mid ++ w2) ++ end_line end_marker ++ w3 ++ post
           = a ++ u2 ++ end_line end_marker ++ u3 ++ b ->
           last_opt a None = Some nl ->
           ws u2 = true -> ws u3 = true -> eol b = true ->
           length (w1 ++ [nl] ++ mid ++ w2) <= length (a ++ u2))
    /\ (forall pre',
           block_at (start_line start_marker) (end_line end_marker) pre' text ->
           length pre <= length pre').
Proof.
  intros H. apply replace_block_Ok_inv in H. destruct H as (pre & c & Sr & Ho).
  destruct (@search_block_frame start_marker end_marker text pre c Sr)
    as (interior & w3 & Et & B & W3 & Eo & Max3 & First & Left
        & w1 & mid & w2 & Ei & W1 & Bm & W2).
  subst interior. exists pre, w1, mid, w2, w3, (rest c).
  split; [exact Et|].
  split; [rewrite Ho, <- !app_assoc; reflexivity|].
  repeat (split; [assumption|]). assumption.
Qed.

Lemma replace_block_frame_witness :
  exists pre w1 mid w2 w3 post,
    lines [ "intro"; "%% X %%"; "old"; "%% /X %%  "; "outro" ]%string
    = pre ++ start_line (L "X") ++ (w1 ++ [nl] ++ mid ++ w2) ++ end_line (L "X")
          ++ w3 ++ post
    /\ lines [ "intro"; "%% X %%"; ""; "NEW"; ""; "%% /X %%"; "outro" ]%string
       = pre ++ start_line (L "X") ++ [nl; nl] ++ rstrip (L "NEW")
             ++ [nl; nl] ++ end_line (L "X") ++ post
    /\ bol (last_opt pre None) = true
    /\ ws w3 = true /\ eol post = true.
Proof.
  destruct (@replace_block_frame
              (lines [ "intro"; "%% X %%"; "old"; "%% /X %%  "; "outro" ]%string)
              (L "X") (L "X") (L "NEW")
              (lines [ "intro"; "%% X %%"; ""; "NEW"; ""; "%% /X %%"; "outro" ]%string))
    as (pre & w1 & mid & w2 & w3 & post & H1 & H2 & H3 & _ & _ & _ & H4 & H5 & _).
  - vm_compute. reflexivity.
  - exists pre, w1, mid, w2, w3, post. auto.
Defined.

(** X2. [replace_block] returns a text exactly when the document holds a
    block of its two markers, and raises the RuntimeError that reports 0
    replacements exactly when it holds none. *)
Theorem replace_block_succeeds_iff_block
  (text start_marker end_marker replacement : str) :
  ((exists out, replace_block text start_marker end_marker replacement = Ok out)
   <-> has_block (start_line start_marker) (end_line end_marker) text)
  /\ (replace_block text start_marker end_marker replacement
      = Raise (RuntimeError
                 (L "Expected exactly 1 replace for markers "
                  ++ start_line start_marker ++ L ".." ++ end_line end_marker
                  ++ L ", got 0"))
      <-> ~ has_block (start_line start_marker) (end_line end_marker) text).
Proof.
  rewrite replace_block_search.
  destruct (search _ text) as [[pre c]|] eqn:Sr.
  - assert (Hb : has_block (start_line start_marker) (end_line end_marker) text).
    { apply search_block_Some in Sr.
      destruct Sr as (w1 & mid & w2 & w3 & Et & B & W1 & Bm & W2 & W3 & Eo).
      exists pre, w1, mid, w2, w3, (rest c). auto 10. }
    split; split; eauto; [discriminate | contradiction].
  - assert (Hb : ~ has_block (start_line start_marker) (end_line end_marker) text).
    { intros H. apply search_block_found in H. contradiction. }
    split; split; auto.
    + intros (out & H). discriminate.
    + intros H. contradiction.
Qed.

(** X3. The output of a successful [replace_block] holds a block of the
    same markers again, so the same pair can be spliced once more, with any
    replacement. *)
Theorem replace_block_can_be_repeated
  (text start_marker end_marker replacement out replacement' : str) :
  replace_block text start_marker end_marker replacement = Ok out ->
  exists out', replace_block out start_marker end_marker replacement' = Ok out'.
Proof.
  rewrite (replace_block_search text).
  destruct (search _ text) as [[pre c]|] eqn:Sr; [|discriminate].
  intros H.
  assert (Ho : out = pre ++ (start_line start_marker ++ [nl; nl] ++ rstrip replacement
                           ++ [nl; nl] ++ end_line end_marker) ++ rest c)
    by congruence.
  clear H. rewrite Ho, replace_block_search.
  apply search_block_Some in Sr.
  destruct Sr as (w1 & mid & w2 & w3 & Et & B & W1 & Bm & W2 & W3 & Eo).
  match goal with |- context [search ?p ?t] => destruct (search p t) as [[pre2 c2]|] eqn:S2 end.
  - eauto.
  - exfalso. revert S2. apply search_block_found.
    exists pre. apply block_at_spliced; assumption.
Qed.

Lemma replace_block_can_be_repeated_witness :
  exists out',
    replace_block
      (lines [ "intro"; "%% X %%"; ""; "NEW"; ""; "%% /X %%"; "outro" ]%string)
      (L "X") (L "X") (L "newer") = Ok out'.
Proof.
  apply (@replace_block_can_be_repeated
           (lines [ "intro"; "%% X %%"; "old"; "%% /X %%  "; "outro" ]%string)
           (L "X") (L "X") (L "NEW")
           (lines [ "intro"; "%% X %%"; ""; "NEW"; ""; "%% /X %%"; "outro" ]%string)
           (L "newer")).
  vm_compute. reflexivity.
Defined.

(** X4. White space at the end of the replacement does not reach the
    document: a replacement and the same replacement followed by white
    space give the same result. *)
Theorem replace_block_ignores_trailing_space
  (text start_marker end_marker replacement w : str) :
  ws w = true ->
  replace_block text start_marker end_marker (replacement ++ w)
  = replace_block text start_marker end_marker replacement.
Proof.
  intros H. unfold replace_block. rewrite rstrip_app_ws by assumption. reflexivity.
Qed.

Lemma replace_block_ignores_trailing_space_witness :
  replace_block (lines [ "%% X %%"; "old"; "%% /X %%" ]%string) (L "X") (L "X")
                (L "NEW" ++ [nl; " "%char; nl])
  = replace_block (lines [ "%% X %%"; "old"; "%% /X %%" ]%string) (L "X") (L "X")
                  (L "NEW").
Proof.
  apply (@replace_block_ignores_trailing_space
           (lines [ "%% X %%"; "old"; "%% /X %%" ]%string) (L "X") (L "X")
           (L "NEW") [nl; " "%char; nl]).
  reflexivity.
Defined.

End SplicerFrame.

(** ** The scanners: what an item and a recorded usage stand for *)

Module ScannerSound.
Import Py Re PyFacts ReFacts Inventory Chars ScannerFacts Shapes Examples.
Import TextFacts OrderFacts DictFacts MatchFacts LoopFacts ScanFacts.

(** X5. Every item that [collect_public_items] returns is written in a
    Rust file that the walk finds below the scanned directory: at the
    start of a line, after optional white space, stand the word pub,
    white space, one of the four kinds, white space and the name, and the
    name ends at a word boundary.  The item carries that kind and the path
    that [rel] gives for the file, which for a link is the path of the
    file it resolves to. *)
Theorem collect_public_items_sound (fs : tree) (dir_path : str)
  (items : list PubItem) (it : PubItem) :
  collect_public_items fs dir_path = Ok items ->
  In it items ->
  In (kind it) [L "trait"; L "struct"; L "enum"; L "type"]
  /\ exists f contents pre w0 w1 w2 post,
       In f fs
       /\ startswith (f_path f) (dir_path ++ L "/") = true
       /\ endswith (f_path f) (L ".rs") = true
       /\ f_rel f = Ok (rel_path it)
       /\ f_text f = Ok contents
       /\ contents = pre ++ w0 ++ L "pub" ++ w1 ++ kind it ++ w2 ++ name it ++ post
       /\ bol (last_opt pre None) = true
       /\ ws w0 = true /\ ws w1 = true /\ w1 <> []
       /\ ws w2 = true /\ w2 <> []
       /\ ends_word post = true.
Proof.
  intros Hc Hi.
  destruct (@collect_public_items_In fs dir_path items it Hc Hi)
    as (f & contents & m & Hf & Ht & Hr & Hm & Hn & Hk).
  apply In_iter_rs_files in Hf. destruct Hf as (Hf & Hp1 & Hp2).
  apply finditer_located in Hm. destruct Hm as (pre & r0 & Ec & M).
  apply PUB_DECL_RE_inv in M.
  destruct M as (B & w0 & w1 & kd & w2 & x & w & r' & Er & W0 & W1 & N1 & Hkd
                 & W2 & N2 & Px & Pw & Hb & G & _).
  rewrite G in Hn, Hk. cbn [group Nat.eqb] in Hn, Hk.
  rewrite Hk. split; [assumption|].
  exists f, contents, pre, w0, w1, w2, r'. rewrite Hn. subst.
  repeat split; auto.
Qed.

(** The trait of a linked file: found below the inbound directory,
    recorded under the path the link resolves to. *)
Lemma collect_public_items_sound_witness :
  In (L "trait") [L "trait"; L "struct"; L "enum"; L "type"]
  /\ exists f contents pre w0 w1 w2 post,
       In f fs_link
       /\ startswith (f_path f) (L "crates/engine-ports/src/inbound" ++ L "/") = true
       /\ endswith (f_path f) (L ".rs") = true
       /\ f_rel f = Ok (L "shared/a.rs")
       /\ f_text f = Ok contents
       /\ contents = pre ++ w0 ++ L "pub" ++ w1 ++ L "trait" ++ w2 ++ L "Foo" ++ post
       /\ bol (last_opt pre None) = true
       /\ ws w0 = true /\ ws w1 = true /\ w1 <> []
       /\ ws w2 = true /\ w2 <> []
       /\ ends_word post = true.
Proof.
  apply (@collect_public_items_sound fs_link (L "crates/engine-ports/src/inbound")
           [mkPubItem (L "Foo") (L "trait") (L "shared/a.rs")]
           (mkPubItem (L "Foo") (L "trait") (L "shared/a.rs"))).
  - vm_compute. reflexivity.
  - left. reflexivity.
Defined.

(** X6. Every entry of the dictionary that [scan_inbound_usages] returns
    has an identifier as its key and a non-empty list of paths without
    duplicates, in code-point order, as its value; and each of the paths
    is what [rel] gives for a Rust file found below one of the search
    roots whose text holds an inbound path of one of the two ports crates,
    with the key written in the text that follows it. *)
Theorem scan_inbound_usages_sound (fs : tree) (search_roots : list str)
  (usage : dict (list str)) (name : str) (paths : list str) :
  scan_inbound_usages fs search_roots = Ok usage ->
  lookup usage name = Some paths ->
  is_ident name = true
  /\ paths <> [] /\ NoDup paths
  /\ StronglySorted (fun a b => str_leb a b = true) paths
  /\ forall p, In p paths ->
       exists root f contents crate tail,
         In root search_roots
         /\ In f (iter_rs_files fs root)
         /\ f_text f = Ok contents
         /\ f_rel f = Ok p
         /\ inbound_use contents crate tail
         /\ contains name tail = true.
Proof.
  intros Hs Lk.
  set (Q := fun (n p : str) =>
              is_ident n = true /\
              exists root f contents crate tail,
                In root search_roots
                /\ In f (iter_rs_files fs root)
                /\ f_text f = Ok contents
                /\ f_rel f = Ok p
                /\ inbound_use contents crate tail
                /\ contains n tail = true).
  destruct (@scan_inbound_usages_spec Q fs search_roots usage Hs) with (name := name)
    as (Nd & So & HQ & Hne).
  { intros root f contents c n p Hr Hf Ht Hp Hc Hn Hcn.
    split; [assumption|].
    apply finditer_located in Hc. destruct Hc as (pre & r0 & Ect & M).
    apply INBOUND_PATH_USE_RE_inv in M.
    destruct M as (crate & tail & r' & Er & Hcr & Htl & Pt & G).
    exists root, f, contents, crate, tail. rewrite G in Hcn.
    repeat split; auto. exists pre, r'. subst. auto. }
  assert (G : get usage name = paths) by (unfold get; rewrite Lk; reflexivity).
  rewrite G in Nd, So, HQ.
  pose proof (Hne paths Lk) as Hp.
  split.
  { destruct paths as [|p0 ps]; [congruence|]. apply (HQ p0). left. reflexivity. }
  split; [assumption|]. split; [assumption|]. split; [assumption|].
  intros p Hin. apply (HQ p Hin).
Qed.

Lemma scan_inbound_usages_sound_witness :
  is_ident (L "Foo") = true /\ [L "crates/engine-app/src/a.rs"] <> [].
Proof.
  destruct (@scan_inbound_usages_sound
              [ plain (L "crates/engine-app/src/a.rs")
                      (L "use wrldbldr_engine_ports::inbound::{Foo, bar::Baz};") ]
              [L "crates/engine-app/src"]
              [(L "Foo", [L "crates/engine-app/src/a.rs"])]
              (L "Foo")
              [L "crates/engine-app/src/a.rs"]) as (H1 & H2 & _).
  - vm_compute. reflexivity.
  - reflexivity.
  - split; assumption.
Defined.

Lemma extract_last_ident_eq segment s :
  strip segment = s -> s <> [] ->
  startswith s (L "{") && endswith s (L "}") = false ->
  _extract_last_ident segment =
  match rev (filter (fun p => negb (str_eqb p [])) (split (L "::") s)) with
  | [] => None
  | last :: _ => if fullmatch IDENT_RE last then Some last else None
  end.
Proof.
  intros E Hs Hb. unfold _extract_last_ident. rewrite E.
  destruct s as [|x t]; [congruence|]. rewrite Hb. reflexivity.
Qed.

(** X7. For a module path, that is segments without a colon joined by
    "::" and ending with an identifier, [_extract_last_ident] returns that
    last identifier. *)
Theorem extract_last_ident_of_path (mods : list str) (id : str) :
  (forall m, In m mods -> ~ In ":"%char m) ->
  is_ident id = true ->
  _extract_last_ident (join (L "::") (mods ++ [id])) = Some id.
Proof.
  intros Hm Hid.
  destruct (@is_ident_snoc _ Hid) as (t & z & Et & Pz).
  destruct (@is_ident_cons _ Hid) as (x & w & Ex & Px & Pw).
  set (mods' := match mods with [] => [] | m1 :: ms => lstrip m1 :: ms end).
  assert (Hm' : forall m, In m (mods' ++ [id]) -> ~ In ":"%char m).
  { intros m I. apply in_app_or in I. destruct I as [I|[<-|[]]].
    - destruct mods as [|m1 ms]; [destruct I|]. destruct I as [<-|I].
      + intros C. apply lstrip_In in C. apply (Hm m1); [left; reflexivity | assumption].
      + apply Hm. right. assumption.
    - intros C. apply (@is_ident_chars _ _ Hid) in C. vm_compute in C. discriminate. }
  assert (L1 : lstrip (join (L "::") (mods ++ [id])) = join (L "::") (mods' ++ [id])).
  { destruct mods as [|m1 ms]; cbn [app mods'].
    - cbn [join]. rewrite Ex. apply lstrip_nonspace.
      apply ident_char_not_space, ident_start_char. assumption.
    - change (m1 :: ms ++ [id]) with ([m1] ++ (ms ++ [id])).
      change (lstrip m1 :: ms ++ [id]) with ([lstrip m1] ++ (ms ++ [id])).
      rewrite (@join_app (L "::") [m1] (ms ++ [id]))
        by (try discriminate; destruct ms; discriminate).
      rewrite (@join_app (L "::") [lstrip m1] (ms ++ [id]))
        by (try discriminate; destruct ms; discriminate).
      cbn [join]. apply (lstrip_app_nonspace m1 ":"%char). reflexivity. }
  assert (L2 : exists T, join (L "::") (mods' ++ [id]) = T ++ [z]).
  { destruct mods' as [|m1 ms].
    - exists t. exact Et.
    - rewrite join_app by discriminate. cbn [join]. rewrite Et.
      exists (join (L "::") (m1 :: ms) ++ L "::" ++ t). rewrite <- !app_assoc. reflexivity. }
  destruct L2 as (T & ET).
  assert (S1 : strip (join (L "::") (mods ++ [id])) = join (L "::") (mods' ++ [id])).
  { unfold strip. rewrite L1, ET. apply rstrip_nonspace, ident_char_not_space. assumption. }
  rewrite (@extract_last_ident_eq _ _ S1).
  - rewrite (@split_join (L "::") ":"%char [":"%char] (mods' ++ [id]) eq_refl);
      [| destruct mods'; discriminate | assumption].
    rewrite filter_app. cbn [filter].
    assert (N : negb (str_eqb id []) = true).
    { apply negb_true_iff, str_eqb_neq. rewrite Ex. discriminate. }
    rewrite N, rev_app_distr. cbn [rev app].
    rewrite (@m_IDENT_RE_full _ Hid). reflexivity.
  - rewrite ET. destruct T; discriminate.
  - apply andb_false_iff. right. rewrite ET. unfold endswith.
    rewrite rev_app_distr. cbn [rev app L list_ascii_of_string].
    unfold startswith. cbn [strip_prefix].
    destruct (Ascii.eqb "}" z) eqn:E; [|reflexivity].
    apply Ascii.eqb_eq in E. subst z. vm_compute in Pz. discriminate.
Qed.

Lemma extract_last_ident_of_path_witness :
  _extract_last_ident (L "staging::StagingUseCasePort") = Some (L "StagingUseCasePort").
Proof.
  apply (@extract_last_ident_of_path [L "staging"] (L "StagingUseCasePort")).
  - intros m [<-|[]]. vm_compute. intuition discriminate.
  - reflexivity.
Defined.

Lemma for_each_names path (names : list str) : forall out,
  for_each names
    (fun out name =>
       if fullmatch IDENT_RE name then
         p <- Ok path ;; Ok (setdefault_append out name p)
       else Ok out)
    out
  = Ok (fold_left
          (fun out name =>
             if fullmatch IDENT_RE name then setdefault_append out name path else out)
          names out).
Proof.
  induction names as [|n t IH]; intros out; [reflexivity|].
  cbn [for_each fold_left]. destruct (fullmatch IDENT_RE n); cbn [bind]; apply IH.
Qed.

Lemma fold_names_all path (names : list str) : forall out,
  (forall n, In n names -> is_ident n = true) ->
  fold_left
    (fun out name =>
       if fullmatch IDENT_RE name then setdefault_append out name path else out)
    names out
  = fold_left (fun out name => setdefault_append out name path) names out.
Proof.
  induction names as [|n t IH]; intros out Hn; [reflexivity|].
  cbn [fold_left]. rewrite (@m_IDENT_RE_full n) by (apply Hn; left; reflexivity).
  apply IH. intros; apply Hn; right; assumption.
Qed.

(** X8. For a usage with a brace list, an opening brace, identifiers
    separated by a comma and a space, and a closing brace, the scan
    records the file under every identifier of the list, in the order of
    the list, whatever follows the closing brace. *)
Theorem scan_match_brace_list (path : str) (out : dict (list str)) (c : cursor)
  (names : list str) (after_brace : str) :
  group 2 (groups c) = L "{" ++ join (L ", ") names ++ L "}" ++ after_brace ->
  names <> [] ->
  (forall n, In n names -> is_ident n = true) ->
  scan_match (Ok path) out c
  = Ok (fold_left (fun out name => setdefault_append out name path) names out).
Proof.
  intros G Hne Hn. unfold scan_match. cbv zeta. rewrite G.
  set (J := join (L ", ") names).
  assert (HJ : forall ch, In ch J -> ch = ","%char \/ ch = " "%char \/ ident_char ch = true).
  { intros ch I. apply In_join in I. destruct I as [[<-|[<-|[]]]|(p & H1 & H2)]; auto.
    right. right. apply (@is_ident_chars p ch); auto. }
  assert (S1 : strip (L "{" ++ J ++ L "}" ++ after_brace)
               = L "{" ++ J ++ L "}" ++ rstrip after_brace).
  { change (L "{" ++ J ++ L "}" ++ after_brace)
      with ("{"%char :: J ++ "}"%char :: after_brace).
    apply strip_keeps_prefix; reflexivity. }
  rewrite S1.
  assert (P : startswith (L "{" ++ J ++ L "}" ++ rstrip after_brace) (L "{") = true).
  { apply startswith_spec. eexists. reflexivity. }
  rewrite P.
  assert (S2 : split1_head "}"%char (L "{" ++ J ++ L "}" ++ rstrip after_brace)
               = L "{" ++ J).
  { change (L "{" ++ J ++ L "}" ++ rstrip after_brace)
      with ("{"%char :: J ++ "}"%char :: rstrip after_brace).
    change ("{"%char :: J ++ "}"%char :: rstrip after_brace)
      with (("{"%char :: J) ++ "}"%char :: rstrip after_brace).
    apply split1_head_app. intros [C|C]; [discriminate|].
    apply HJ in C. destruct C as [C|[C|C]]; try discriminate. }
  rewrite S2.
  destruct names as [|n ns]; [congruence|].
  assert (Hn1 : is_ident n = true) by (apply Hn; left; reflexivity).
  destruct (@is_ident_cons n Hn1) as (x & w & Ex & Px & Pw).
  assert (S3 : lstrip_char "{"%char (L "{" ++ J) = J).
  { cbn [L list_ascii_of_string app lstrip_char]. rewrite Ascii.eqb_refl.
    unfold J. destruct ns as [|n2 ns]; cbn [join]; rewrite Ex; cbn [app lstrip_char];
      (destruct (Ascii.eqb x "{") eqn:E; [|reflexivity]);
      apply Ascii.eqb_eq in E; subst x; discriminate. }
  rewrite S3. unfold J.
  change (L ", ") with (L "," ++ L " ").
  rewrite join_sep_app.
  rewrite (@split_join (L ",") ","%char [] _ eq_refl); [|discriminate|].
  - cbn [map]. rewrite map_map.
    rewrite (@strip_ident n Hn1).
    assert (M : map (fun q => strip (L " " ++ q)) ns = ns).
    { rewrite <- (map_id ns) at 2. apply map_ext_in. intros q Hq.
      apply strip_space_ident. apply Hn. right. assumption. }
    rewrite M, for_each_names. f_equal. apply fold_names_all. assumption.
  - intros q [<-|I] C.
    + apply (@is_ident_chars n _ Hn1) in C. discriminate.
    + apply in_map_iff in I. destruct I as (r & <- & Hr).
      destruct C as [C|C]; [discriminate|].
      apply (@is_ident_chars r) in C; [discriminate|]. apply Hn. right. assumption.
Qed.

Lemma scan_match_brace_list_witness :
  scan_match (Ok (L "a.rs")) [] (mkCur None [] [(2, L "{Foo, Bar}")])
  = Ok [(L "Foo", [L "a.rs"]); (L "Bar", [L "a.rs"])].
Proof.
  apply (@scan_match_brace_list (L "a.rs") [] (mkCur None [] [(2, L "{Foo, Bar}")])
           [L "Foo"; L "Bar"] []).
  - reflexivity.
  - discriminate.
  - intros n [<-|[<-|[]]]; reflexivity.
Defined.

End ScannerSound.

(** ** The index of the items and the locations of the types *)

Module IndexProps.
Import Py Re PyFacts ReFacts Inventory Chars Terms Shapes.
Import TextFacts OrderFacts DictFacts LoopFacts ScanFacts Examples.

(** X9. [index_defs] keeps one item per name: no key occurs twice, the keys
    are exactly the names of the given items, and the item kept for a name
    is one of the given items of that name whose path is the least in
    code-point order. *)
Theorem index_defs_first_definition (items : list PubItem) :
  NoDup (keys (index_defs items))
  /\ (forall n, In n (keys (index_defs items)) <-> exists it, In it items /\ name it = n)
  /\ (forall n it,
         lookup (index_defs items) n = Some it ->
         In it items /\ name it = n
         /\ forall it', In it' items -> name it' = n ->
                        str_leb (rel_path it) (rel_path it') = true).
Proof.
  unfold index_defs.
  set (srt := sorted (fun x y => pair_leb (name x, rel_path x) (name y, rel_path y)) items).
  assert (Hs : StronglySorted (fun a b => item_leb a b = true) srt).
  { apply sorted_StronglySorted.
    - intros x y. apply pair_leb_total.
    - intros x y z. apply pair_leb_trans. }
  assert (Hin : forall it, In it srt <-> In it items) by (intros it; apply In_sorted).
  assert (Hl : forall n it,
             lookup (fold_left (fun indexed it => setdefault indexed (name it) it) srt []) n
             = Some it ->
             In it items /\ name it = n
             /\ forall it', In it' items -> name it' = n ->
                            str_leb (rel_path it) (rel_path it') = true).
  { intros n it H. rewrite lookup_fold_setdefault in H. simpl in H.
    destruct (find_sorted_least n Hs H) as (H1 & H2 & H3).
    split; [apply Hin; assumption|]. split; [assumption|].
    intros it' Hi. apply H3. apply Hin. assumption. }
  split; [|split].
  - apply NoDup_keys_fold_setdefault. constructor.
  - intros n. rewrite lookup_In_keys. split.
    + intros (it & H). exists it. apply Hl in H. tauto.
    + intros (it & Hi & Hn). rewrite lookup_fold_setdefault. simpl.
      destruct (List.find (fun it0 => str_eqb n (name it0)) srt) as [v|] eqn:F; [eauto|].
      exfalso. apply Hin in Hi.
      apply (find_none _ _ F) in Hi. subst n. rewrite str_eqb_refl in Hi. discriminate.
  - exact Hl.
Qed.

(** X13. The locations that [collect_public_type_names] records for a type
    name are the paths that [rel] gives for the Rust files found below the
    scanned directory in whose text the pattern finds that name, each path
    once, in code-point order. *)
Theorem type_locations_are_declaring_files (fs : tree) (root : str)
  (types : dict (list str)) (name : str) :
  collect_public_type_names fs root = Ok types ->
  NoDup (get types name)
  /\ StronglySorted (fun a b => str_leb a b = true) (get types name)
  /\ forall p, In p (get types name) <->
               exists f contents c,
                 In f (iter_rs_files fs root)
                 /\ f_text f = Ok contents
                 /\ f_rel f = Ok p
                 /\ In c (finditer PUB_TYPE_RE contents)
                 /\ group 1 (groups c) = name.
Proof.
  intros H. destruct (@type_names_spec fs root types H) as (_ & _ & Hs & Hg).
  destruct (Hs name) as [H1 H2].
  split; [assumption|]. split; [assumption|]. intros p. apply Hg.
Qed.

(** The three files that declare [Shared] in engine-dto. *)
Lemma type_locations_are_declaring_files_witness :
  NoDup (map L [ "crates/engine-dto/src/a.rs"; "crates/engine-dto/src/b.rs";
                 "crates/engine-dto/src/c.rs" ]%string)
  /\ StronglySorted (fun a b => str_leb a b = true)
       (map L [ "crates/engine-dto/src/a.rs"; "crates/engine-dto/src/b.rs";
                "crates/engine-dto/src/c.rs" ]%string).
Proof.
  destruct (@type_locations_are_declaring_files fs_dto3 (L "crates/engine-dto/src")
              [(L "Shared",
                map L [ "crates/engine-dto/src/a.rs"; "crates/engine-dto/src/b.rs";
                        "crates/engine-dto/src/c.rs" ]%string)]
              (L "Shared")) as (H1 & H2 & _).
  - vm_compute. reflexivity.
  - split; [exact H1 | exact H2].
Defined.

End IndexProps.

(** ** The classifier, continued *)

Module ClassifierConverse.
Import Py PyFacts Inventory Chars.

(** X14. The outbound target is only ever suggested for an item that is in
    none of the exception lists, whose name does not end with UseCasePort,
    and that is used in at least one file outside the boundary
    directories. *)
Theorem outbound_only_for_misplaced_usage (item_name : str) (usage_paths : list str) :
  suggest_port_target item_name usage_paths = L "outbound (misplaced today)" ->
  ~ In item_name [L "RequestContext"; L "UseCaseContext"; L "RequestHandler"]
  /\ endswith item_name (L "UseCasePort") = false
  /\ exists p, In p usage_paths /\ is_boundary_path p = false.
Proof.
  unfold suggest_port_target.
  destruct (mem item_name [L "RequestContext"; L "UseCaseContext"]) eqn:M1;
    [discriminate|].
  destruct (mem item_name [L "RequestHandler"]) eqn:M2; [discriminate|].
  destruct (endswith item_name (L "UseCasePort")) eqn:M3; [discriminate|].
  destruct usage_paths as [|q t]; [discriminate|].
  destruct (forallb is_boundary_path (q :: t)) eqn:F; [discriminate|].
  intros _. split; [|split; [reflexivity|]].
  - intros [H|[H|[H|[]]]].
    + assert (Q : mem item_name [L "RequestContext"; L "UseCaseContext"] = true)
        by (apply mem_In; simpl; auto). congruence.
    + assert (Q : mem item_name [L "RequestContext"; L "UseCaseContext"] = true)
        by (apply mem_In; simpl; auto). congruence.
    + assert (Q : mem item_name [L "RequestHandler"] = true)
        by (apply mem_In; simpl; auto). congruence.
  - assert (X : existsb (fun p => negb (is_boundary_path p)) (q :: t) = true).
    { destruct (existsb (fun p => negb (is_boundary_path p)) (q :: t)) eqn:X;
        [reflexivity|].
      assert (F' : forallb is_boundary_path (q :: t) = true).
      { apply forallb_forall. intros p Hp.
        destruct (is_boundary_path p) eqn:B; [reflexivity|].
        assert (Y : existsb (fun p => negb (is_boundary_path p)) (q :: t) = true).
        { apply existsb_exists. exists p. rewrite B. auto. }
        congruence. }
      congruence. }
    apply existsb_exists in X. destruct X as (p & Hp & Hb).
    exists p. split; [assumption|]. destruct (is_boundary_path p); [discriminate|reflexivity].
Qed.

Lemma outbound_only_for_misplaced_usage_witness :
  exists p, In p [L "crates/engine-app/src/application/handlers/a.rs";
                  L "crates/engine-app/src/services/world.rs"]
            /\ is_boundary_path p = false.
Proof.
  apply (@outbound_only_for_misplaced_usage (L "WorldService")
           [L "crates/engine-app/src/application/handlers/a.rs";
            L "crates/engine-app/src/services/world.rs"]).
  vm_compute. reflexivity.
Defined.

End ClassifierConverse.

(** ** The layout of the rendered blocks *)

Module LayoutProps.
Import Py Re PyFacts Inventory Chars Terms Shapes Examples.
Import TextFacts LoopFacts ScanFacts LayoutFacts.

(** X15. The final [strip] of the two renderers removes nothing: a block
    is its lines joined by line breaks, and one line break.  The port
    block is the engine heading, an empty line, the lines of the engine
    side, an empty line, the player heading, an empty line, the lines of
    the player side, an empty line and the regenerate note; the lines of a
    side are the placeholder line, or the two header lines and the rows.
    The DTO block is the two header lines, the body lines, an empty line
    and the regenerate note; the body has as many lines as there are
    colliding names, and one, the placeholder row, when there is none. *)
Theorem rendered_blocks_shape (fs : tree) :
  (forall block,
      render_port_taxonomy_block fs = Ok block ->
      exists engine_items player_items engine_usage player_usage,
        collect_public_items fs (L "crates/engine-ports/src/inbound") = Ok engine_items
        /\ collect_public_items fs (L "crates/player-ports/src/inbound") = Ok player_items
        /\ scan_inbound_usages fs [L "crates/engine-app/src"] = Ok engine_usage
        /\ scan_inbound_usages fs [L "crates/player-app/src"; L "crates/player-ui/src"]
           = Ok player_usage
        /\ block = join [nl] (port_taxonomy_lines (index_defs engine_items)
                                                  (index_defs player_items)
                                                  engine_usage player_usage)
                   ++ [nl]
        /\ block
           = join [nl]
               ([ L "#### Engine inbound taxonomy"; [] ]
                ++ port_side_lines (L "_No engine inbound items found (unexpected)._ ")
                                   (index_defs engine_items) engine_usage
                ++ [ []; L "#### Player inbound taxonomy"; [] ]
                ++ port_side_lines (L "_No player inbound items found (unexpected)._ ")
                                   (index_defs player_items) player_usage
                ++ [ []; L "_Regenerate with `task arch:inventories`._" ])
             ++ [nl])
  /\ (forall block,
         render_dto_ownership_block fs = Ok block ->
         exists dto_types port_types body,
           collect_public_type_names fs (L "crates/engine-dto/src") = Ok dto_types
           /\ collect_public_type_names fs (L "crates/engine-ports/src") = Ok port_types
           /\ body = dto_body_lines dto_types port_types
                                    (collisions dto_types port_types)
           /\ length body = Nat.max 1 (length (collisions dto_types port_types))
           /\ block = join [nl] (dto_ownership_lines dto_types port_types) ++ [nl]
           /\ block
              = join [nl]
                  ([ L "| Type name | engine-dto (examples) | engine-ports (examples) | Suggested owner | Notes |";
                     L "|---|---|---|---|---|" ]
                   ++ body
                   ++ [ []; L "_Regenerate with `task arch:inventories`._" ])
                ++ [nl]).
Proof.
  split.
  - intros block H. apply render_port_Ok_inv in H.
    destruct H as (ei & pi & eu & pu & H1 & H2 & H3 & H4 & H5 & _).
    exists ei, pi, eu, pu. rewrite strip_port_lines in H5.
    repeat (split; [assumption|]).
    rewrite H5, port_lines_join. reflexivity.
  - intros block H. apply render_dto_Ok_inv in H.
    destruct H as (dt & pt & H1 & H2 & H3 & _).
    exists dt, pt, (dto_body_lines dt pt (collisions dt pt)).
    rewrite strip_dto_lines in H3.
    split; [assumption|]. split; [assumption|]. split; [reflexivity|].
    split.
    { unfold dto_body_lines. destruct (collisions dt pt) as [|n ns] eqn:E;
        [reflexivity|].
      rewrite length_map. cbn [length]. lia. }
    split; [assumption|].
    rewrite H3, dto_ownership_lines_body. reflexivity.
Qed.

(** The DTO block of the tree with one colliding type. *)
Lemma rendered_blocks_shape_witness :
  exists dto_types port_types body,
    collect_public_type_names fs_shared (L "crates/engine-dto/src") = Ok dto_types
    /\ collect_public_type_names fs_shared (L "crates/engine-ports/src") = Ok port_types
    /\ body = dto_body_lines dto_types port_types (collisions dto_types port_types)
    /\ length body = Nat.max 1 (length (collisions dto_types port_types))
    /\ lines [ "| Type name | engine-dto (examples) | engine-ports (examples) | Suggested owner | Notes |";
               "|---|---|---|---|---|";
               "| `TypeX` | crates/engine-dto/src/a.rs | crates/engine-ports/src/p.rs | TBD | Pick one canonical definition; delete the shadow copy; migrate imports |";
               "";
               "_Regenerate with `task arch:inventories`._";
               "" ]%string
       = join [nl] (dto_ownership_lines dto_types port_types) ++ [nl].
Proof.
  destruct (proj2 (rendered_blocks_shape fs_shared)
              (lines [ "| Type name | engine-dto (examples) | engine-ports (examples) | Suggested owner | Notes |";
                       "|---|---|---|---|---|";
                       "| `TypeX` | crates/engine-dto/src/a.rs | crates/engine-ports/src/p.rs | TBD | Pick one canonical definition; delete the shadow copy; migrate imports |";
                       "";
                       "_Regenerate with `task arch:inventories`._";
                       "" ]%string))
    as (dt & pt & body & H1 & H2 & H3 & H4 & H5 & _).
  - vm_compute. reflexivity.
  - exists dt, pt, body. auto.
Defined.

End LayoutProps.

(** ** The command: what a run leaves behind *)

Module RunProps.
Import Py Re PyFacts ReFacts Inventory Chars Terms BlockFacts Examples Shapes TextFacts.
Import LoopFacts SplicerFacts RunFacts.

(** X16. A run that returns leaves the source files alone and ends with
    status 0, or with status 1 in check mode with nothing changed.  With
    status 0 the document is the result of the two splices, and it holds,
    at a line start, the start line of the DTO block, an empty line, the
    freshly rendered DTO block, an empty line and the end line, up to a
    line end. *)
Theorem returned_run_holds_dto_block
  (check : bool) (w w' : world) (status : nat) (printed : str) :
  main check w = (Returned status printed, w') ->
  files w' = files w
  /\ (status = 0 \/ (status = 1 /\ check = true /\ w' = w))
  /\ (status = 0 ->
      exists original updated dto_block,
        master_plan w = Ok original
        /\ spliced (files w) original = Ok updated
        /\ master_plan w' = Ok updated
        /\ render_dto_ownership_block (files w) = Ok dto_block
        /\ exists pre post,
             updated
             = pre ++ start_line (L "DTO OWNERSHIP") ++ [nl; nl]
                   ++ rstrip dto_block ++ [nl; nl]
                   ++ end_line (L "DTO OWNERSHIP") ++ post
             /\ bol (last_opt pre None) = true /\ eol post = true).
Proof.
  unfold main. destruct (master_plan w) as [o|e0] eqn:Hm; [|discriminate].
  destruct (spliced (files w) o) as [updated|e] eqn:Sp; [|discriminate].
  assert (Hd : exists dto_block,
             render_dto_ownership_block (files w) = Ok dto_block
             /\ exists pre post,
                  updated
                  = pre ++ start_line (L "DTO OWNERSHIP") ++ [nl; nl]
                        ++ rstrip dto_block ++ [nl; nl]
                        ++ end_line (L "DTO OWNERSHIP") ++ post
                  /\ bol (last_opt pre None) = true /\ eol post = true).
  { pose proof Sp as Sp'. apply spliced_Ok_inv in Sp'.
    destruct Sp' as (pb & db & u & _ & H2 & _ & H4).
    exists db. split; [assumption|].
    apply replace_block_Ok_inv in H4. destruct H4 as (pre & c & Sr & Ho).
    apply search_block_Some in Sr.
    destruct Sr as (w1 & mid & w2 & w3 & Et & B & W1 & Bm & W2 & W3 & Eo).
    exists pre, (rest c). split; [|auto].
    rewrite Ho, <- !app_assoc. reflexivity. }
  destruct Hd as (db & Hdb & Hd).
  destruct (str_eqb updated o) eqn:E.
  - apply str_eqb_eq in E. intros H.
    assert (H1 : status = 0) by congruence.
    assert (H2 : w' = w) by congruence.
    subst w' updated. split; [reflexivity|]. split; [left; assumption|].
    intros _. exists o, o, db. auto.
  - destruct check.
    + intros H.
      assert (H1 : status = 1) by congruence.
      assert (H2 : w' = w) by congruence.
      subst w'. split; [reflexivity|]. split; [right; auto|].
      intros C. congruence.
    + destruct (master_plan_rel w) as [p|e1]; [|discriminate].
      intros H.
      assert (H1 : status = 0) by congruence.
      assert (H2 : w' = write_text w updated) by congruence.
      subst w'. cbn [write_text files master_plan].
      split; [reflexivity|]. split; [left; assumption|].
      intros _. exists o, updated, db. auto.
Qed.

Lemma returned_run_holds_dto_block_witness :
  files (workspace [] plan_current [plan_current]) = files (workspace [] plan_skeleton [])
  /\ (0 = 0 \/ (0 = 1 /\ false = true
                /\ workspace [] plan_current [plan_current] = workspace [] plan_skeleton [])).
Proof.
  destruct (@returned_run_holds_dto_block false (workspace [] plan_skeleton [])
              (workspace [] plan_current [plan_current]) 0
              (L "Updated inventories in: " ++ MASTER_PLAN))
    as (H1 & H2 & _).
  - vm_compute. reflexivity.
  - split; assumption.
Defined.



End RunProps.

(** ** The variant parser: what a parsed name is *)

Module VariantShape.
Import Py Re PyFacts ReFacts Inventory Chars Payloads Terms Shapes.
Import TextFacts MatchFacts VariantProps.

(** X18. Every name that [parse_request_payload_variants] returns begins
    with an upper-case letter and goes on with letters, digits and
    underscores, and it is written in the enum body at a line start after
    exactly four white-space characters, ending at a word boundary. *)
Theorem parsed_variants_are_indented_names (text : str) (ordered : list str) (v : str) :
  parse_request_payload_variants text = Ok ordered ->
  In v ordered ->
  (exists x w, v = x :: w /\ is_upper x = true /\ forallb ident_char w = true)
  /\ exists pre w4 post,
       enum_body text = pre ++ w4 ++ v ++ post
       /\ bol (last_opt pre None) = true
       /\ length w4 = 4 /\ ws w4 = true
       /\ ends_word post = true.
Proof.
  unfold parse_request_payload_variants. fold header.
  destruct (find header text =? -1)%Z; [discriminate|]. fold (enum_body text).
  destruct (search END_RE (enum_body text)) as [[before c]|] eqn:S; [|discriminate].
  intros H Hv. injection H as <-.
  apply search_END_RE_Some in S. destruct S as ((w & post & Eb & W) & _).
  destruct (@dedup_spec (findall VARIANT_RE before) [] []) as (_ & I & _);
    [tauto | constructor |].
  apply I in Hv. destruct Hv as [[]|Hv].
  unfold findall in Hv. apply in_map_iff in Hv. destruct Hv as (cv & <- & Hc).
  apply finditer_located in Hc. destruct Hc as (pre & r0 & Ebf & M).
  apply VARIANT_RE_inv in M.
  destruct M as (B & w4 & x & w' & r' & Er & L4 & W4 & Px & Pw & Hb & G).
  rewrite G. cbn [group Nat.eqb]. split; [eauto|].
  exists pre, w4, (r' ++ [nl] ++ L "}" ++ w ++ [nl] ++ post).
  repeat split; auto.
  - rewrite Eb, Ebf, Er. rewrite <- !app_assoc. reflexivity.
  - destruct r'; [reflexivity | assumption].
Qed.

Lemma parsed_variants_are_indented_names_witness :
  exists x w, L "Pong" = x :: w /\ is_upper x = true /\ forallb ident_char w = true.
Proof.
  apply (@parsed_variants_are_indented_names
           (lines [ "pub enum RequestPayload {"; "    Ping,"; "    Pong { a: u8 },";
                    "}"; "" ]%string)
           [L "Ping"; L "Pong"] (L "Pong")).
  - vm_compute. reflexivity.
  - right. left. reflexivity.
Defined.

End VariantShape.

(** ** The report of unreferenced variants *)

Module ReportProps.
Import Py Re PyFacts ReFacts Inventory Chars Payloads Terms Shapes PayloadsReport.
Import TextFacts MatchFacts LoopFacts VariantProps.

(** The texts that make up [engine_text]. *)
Lemma engine_text_loop (fl : list file) : forall acc et,
  for_each fl (fun engine_text p => t <- f_text p ;; Ok (engine_text ++ t ++ [nl])) acc
  = Ok et ->
  exists texts,
    Forall2 (fun f t => f_text f = Ok t) fl texts
    /\ et = acc ++ concat (map (fun t => t ++ [nl]) texts).
Proof.
  induction fl as [|f fl IH]; intros acc et H; simpl in H.
  - injection H as <-. exists []. split; [constructor|]. symmetry. apply app_nil_r.
  - apply bind_Ok in H. destruct H as (acc1 & H1 & H2).
    apply bind_Ok in H1. destruct H1 as (t & Ht & H1). injection H1 as <-.
    destruct (IH _ _ H2) as (texts & F & ->).
    exists (t :: texts). split; [constructor; assumption|].
    cbn [map concat]. rewrite <- !app_assoc. reflexivity.
Qed.

Lemma contains_texts n (texts : list str) :
  ~ In nl n -> n <> [] ->
  contains n (concat (map (fun t => t ++ [nl]) texts)) = existsb (contains n) texts.
Proof.
  intros Hn Hne. induction texts as [|t ts IH]; cbn [map concat existsb].
  - apply contains_nil_false. assumption.
  - rewrite <- IH. apply eq_true_iff_eq.
    rewrite <- app_assoc. cbn [app]. rewrite contains_across_newline by assumption.
    rewrite orb_true_iff. tauto.
Qed.

Lemma parsed_variant_no_newline text ordered v :
  parse_request_payload_variants text = Ok ordered -> In v ordered -> ~ In nl v.
Proof.
  unfold parse_request_payload_variants.
  destruct (find _ text =? -1)%Z; [discriminate|].
  destruct (search END_RE _) as [[before c]|] eqn:S; [|discriminate].
  intros H Hv. injection H as <-.
  destruct (@dedup_spec (findall VARIANT_RE before) [] []) as (_ & I & _);
    [tauto | constructor |].
  apply I in Hv. destruct Hv as [[]|Hv].
  unfold findall in Hv. apply in_map_iff in Hv. destruct Hv as (cv & <- & Hc).
  apply finditer_located in Hc. destruct Hc as (pre & r0 & Ebf & M).
  apply VARIANT_RE_inv in M.
  destruct M as (B & w4 & x & w' & r' & Er & L4 & W4 & Px & Pw & Hb & G).
  rewrite G. cbn [group Nat.eqb]. intros [E|E].
  - apply (is_upper_not_nl Px). assumption.
  - rewrite forallb_forall in Pw. apply (ident_char_not_nl (Pw _ E)). reflexivity.
Qed.

Lemma parsed_variants_NoDup text ordered :
  parse_request_payload_variants text = Ok ordered -> NoDup ordered.
Proof.
  unfold parse_request_payload_variants.
  destruct (find _ text =? -1)%Z; [discriminate|].
  destruct (search END_RE _) as [[before c]|] eqn:S; [|discriminate].
  intros H. injection H as <-.
  destruct (@dedup_spec (findall VARIANT_RE before) [] []) as (N & _);
    [tauto | constructor | assumption].
Qed.

(** The unreferenced variants, file by file. *)
Lemma missing_by_file proto ordered (texts : list str) :
  parse_request_payload_variants proto = Ok ordered ->
  missing ordered (concat (map (fun t => t ++ [nl]) texts))
  = filter (fun v => negb (existsb (contains (L "RequestPayload::" ++ v)) texts))
           ordered.
Proof.
  intros P. unfold missing. apply filter_ext_in. intros v Hv. f_equal.
  apply contains_texts; [|discriminate].
  intros I. apply in_app_or in I. destruct I as [I|I].
  - vm_compute in I. intuition discriminate.
  - exact (@parsed_variant_no_newline _ _ _ P Hv I).
Qed.

Lemma NoDup_filter_keeps (A : Type) (f : A -> bool) l : NoDup l -> NoDup (filter f l).
Proof.
  induction 1 as [|x t Hx Ht IH]; simpl; [constructor|].
  destruct (f x); [|assumption]. constructor; [|assumption].
  rewrite filter_In. tauto.
Qed.

Lemma main_Printed_inv fs lines :
  main fs = Printed lines ->
  exists proto ordered texts,
    read_text fs (L "crates/protocol/src/requests.rs") = Ok proto
    /\ parse_request_payload_variants proto = Ok ordered
    /\ Forall2 (fun f t => f_text f = Ok t) (websocket_files fs) texts
    /\ lines
       = [ L "Total variants: " ++ str_of_nat (length ordered);
           L "Referenced in engine websocket code: "
             ++ str_of_nat
                  (length ordered
                   - length (filter
                               (fun v => negb (existsb
                                                 (contains (L "RequestPayload::" ++ v))
                                                 texts))
                               ordered));
           L "Possibly unimplemented (not referenced): "
             ++ str_of_nat
                  (length (filter
                             (fun v => negb (existsb
                                               (contains (L "RequestPayload::" ++ v))
                                               texts))
                             ordered));
           L "---" ]
         ++ filter (fun v => negb (existsb (contains (L "RequestPayload::" ++ v)) texts))
                   ordered.
Proof.
  unfold main.
  destruct (read_text fs _) as [proto|e0] eqn:R; [|discriminate].
  destruct (parse_request_payload_variants proto) as [ordered|e] eqn:P; [|discriminate].
  destruct (engine_text fs) as [et|e1] eqn:Et; [|discriminate].
  cbv zeta. intros H.
  unfold engine_text in Et. apply engine_text_loop in Et.
  destruct Et as (texts & F & Ee). cbn [app] in Ee. subst et.
  rewrite (@missing_by_file proto ordered texts P) in H.
  exists proto, ordered, texts.
  split; [reflexivity|]. split; [exact P|]. split; [exact F|]. congruence.
Qed.

(** X19. When the script prints its report, the report is the three
    counts, a rule and the unreferenced variants: the parsed variants, in
    the order in which they were parsed and each once, for which no
    websocket file below the API directory holds the text RequestPayload::
    followed by the name.  The counts add up: no more variants are
    unreferenced than there are. *)
Theorem report_lists_unreferenced_variants (fs : tree) (lines : list str) :
  main fs = Printed lines ->
  exists proto ordered texts unreferenced,
    read_text fs (L "crates/protocol/src/requests.rs") = Ok proto
    /\ parse_request_payload_variants proto = Ok ordered
    /\ Forall2 (fun f t => f_text f = Ok t) (websocket_files fs) texts
    /\ unreferenced
       = filter (fun v => negb (existsb (contains (L "RequestPayload::" ++ v)) texts))
                ordered
    /\ lines = [ L "Total variants: " ++ str_of_nat (length ordered);
                 L "Referenced in engine websocket code: "
                   ++ str_of_nat (length ordered - length unreferenced);
                 L "Possibly unimplemented (not referenced): "
                   ++ str_of_nat (length unreferenced);
                 L "---" ] ++ unreferenced
    /\ length unreferenced <= length ordered
    /\ NoDup unreferenced
    /\ forall v, In v unreferenced <->
                 In v ordered /\
                 forall t, In t texts ->
                           contains (L "RequestPayload::" ++ v) t = false.
Proof.
  intros H. apply main_Printed_inv in H.
  destruct H as (proto & ordered & texts & R & P & F & E).
  exists proto, ordered, texts.
  eexists. split; [exact R|]. split; [exact P|]. split; [exact F|].
  split; [reflexivity|]. split; [exact E|].
  split; [apply filter_length_le|].
  split; [apply NoDup_filter_keeps, (@parsed_variants_NoDup _ _ P)|].
  intros v. rewrite filter_In, negb_true_iff. split.
  - intros [Hv Hx]. split; [assumption|]. intros t Ht.
    destruct (contains (L "RequestPayload::" ++ v) t) eqn:C; [|reflexivity].
    assert (X : existsb (contains (L "RequestPayload::" ++ v)) texts = true)
      by (apply existsb_exists; eauto).
    congruence.
  - intros [Hv Hx]. split; [assumption|].
    destruct (existsb _ texts) eqn:X; [|reflexivity].
    apply existsb_exists in X. destruct X as (t & Ht & C).
    rewrite (Hx t Ht) in C. discriminate.
Qed.

Lemma report_lists_unreferenced_variants_witness :
  exists (proto : str) (ordered texts unreferenced : list str),
    read_text
      [ plain (L "crates/protocol/src/requests.rs")
              (lines [ "pub enum RequestPayload {"; "    Quit,"; "    PingAll,";
                       "    Ping,"; "    Away,"; "}"; "" ]%string);
        plain (L "crates/engine/src/api/websocket_handlers.rs")
              (L "match p { RequestPayload::PingAll => {} }") ]
      (L "crates/protocol/src/requests.rs") = Ok proto
    /\ parse_request_payload_variants proto = Ok ordered
    /\ unreferenced
       = filter (fun v => negb (existsb (contains (L "RequestPayload::" ++ v)) texts))
                ordered
    /\ [ L "Total variants: 4";
         L "Referenced in engine websocket code: 2";
         L "Possibly unimplemented (not referenced): 2";
         L "---"; L "Quit"; L "Away" ]
       = [ L "Total variants: " ++ str_of_nat (length ordered);
           L "Referenced in engine websocket code: "
             ++ str_of_nat (length ordered - length unreferenced);
           L "Possibly unimplemented (not referenced): "
             ++ str_of_nat (length unreferenced);
           L "---" ] ++ unreferenced.
Proof.
  destruct (@report_lists_unreferenced_variants
              [ plain (L "crates/protocol/src/requests.rs")
                      (lines [ "pub enum RequestPayload {"; "    Quit,"; "    PingAll,";
                               "    Ping,"; "    Away,"; "}"; "" ]%string);
                plain (L "crates/engine/src/api/websocket_handlers.rs")
                      (L "match p { RequestPayload::PingAll => {} }") ]
              [ L "Total variants: 4";
                L "Referenced in engine websocket code: 2";
                L "Possibly unimplemented (not referenced): 2";
                L "---"; L "Quit"; L "Away" ])
    as (proto & ordered & texts & unreferenced & H1 & H2 & _ & H4 & H5 & _).
  - vm_compute. reflexivity.
  - exists proto, ordered, texts, unreferenced. auto.
Defined.

(** X20. A variant is never reported when a websocket file references a
    variant whose name begins with its name: the reference to the longer
    name counts as a reference to the shorter one. *)
Theorem longer_reference_hides_variant (fs : tree) (lines : list str)
  (v suffix : str) (f : file) (t : str) :
  main fs = Printed lines ->
  In f (websocket_files fs) ->
  f_text f = Ok t ->
  contains (L "RequestPayload::" ++ v ++ suffix) t = true ->
  mem v (skipn 4 lines) = false.
Proof.
  intros H Hf Ht C. apply main_Printed_inv in H.
  destruct H as (proto & ordered & texts & R & P & F & ->). cbn [skipn app].
  match goal with |- mem v ?l = false => destruct (mem v l) eqn:M end; [|reflexivity].
  apply mem_In, filter_In in M. destruct M as [_ M]. apply negb_true_iff in M.
  assert (C' : contains (L "RequestPayload::" ++ v) t = true).
  { eapply contains_trans; [|exact C].
    apply contains_spec. exists [], suffix. simpl. rewrite <- ?app_assoc. reflexivity. }
  assert (It : In t texts).
  { clear - F Hf Ht. induction F as [|g u gs us Hg F IH]; [destruct Hf|].
    destruct Hf as [->|Hf]; [left; congruence | right; auto]. }
  assert (X : existsb (contains (L "RequestPayload::" ++ v)) texts = true)
    by (apply existsb_exists; eauto).
  congruence.
Qed.

Lemma longer_reference_hides_variant_witness :
  mem (L "Ping")
      (skipn 4 [ L "Total variants: 3";
                 L "Referenced in engine websocket code: 2";
                 L "Possibly unimplemented (not referenced): 1";
                 L "---"; L "Quit" ]) = false.
Proof.
  apply (@longer_reference_hides_variant
           [ plain (L "crates/protocol/src/requests.rs")
                   (lines [ "pub enum RequestPayload {"; "    Ping,"; "    PingAll,";
                            "    Quit,"; "}"; "" ]%string);
             plain (L "crates/engine/src/api/websocket_handlers.rs")
                   (L "match p { RequestPayload::PingAll => {} }") ]
           [ L "Total variants: 3";
             L "Referenced in engine websocket code: 2";
             L "Possibly unimplemented (not referenced): 1";
             L "---"; L "Quit" ]
           (L "Ping") (L "All")
           (plain (L "crates/engine/src/api/websocket_handlers.rs")
                  (L "match p { RequestPayload::PingAll => {} }"))
           (L "match p { RequestPayload::PingAll => {} }")).
  - vm_compute. reflexivity.
  - vm_compute. left. reflexivity.
  - reflexivity.
  - vm_compute. reflexivity.
Defined.

End ReportProps.

